(** * neon_slice: the AudioService beat scheduler and synthesis engine

    A shallow embedding of [class AudioService] (look-ahead scheduler,
    pattern rules, voice recipes, mix graph and impulse response) and the
    properties its specification states about it, followed by the part
    of the game loop that drives the service (spawning, strikes, misses
    and the score of GameCanvas.tsx, the start of a game of App.tsx) and
    the properties the code shows of both.

    Conventions of the embedding:
    - JavaScript numbers that carry times, frequencies and gains are exact
      rationals ([Q]); IEEE-754 rounding is not modelled in the service.
      What the exact value of a running sum decides is settled on
      [Double.nextNote], the step advance over the binary64 numbers of
      the kernel.
      Integer-valued numbers (the step counter, array indices) are [Z].  Division by
      zero, which yields [Infinity] in JavaScript and 0 in [Q], does not
      occur: the only divisor is the tempo, which is 100, 120 or 135.
    - The object [this] together with the pieces of the platform the class
      touches (the pending [window] timeouts and the position in the stream
      of [Math.random()] draws) is one record [State]; a method is a
      procedure [State -> Outcome].
    - [Math.random], [Math.pow] and the [AudioContext] constructor are
      platform primitives; they are Variables of the section.
    - Logs (the scheduled voices of the audio graph, the automation events
      of the master gain) list the most recent entry first. *)

From Stdlib Require Import ZArith QArith Qround Qabs Bool List Lia Lqa Sorted.
From Stdlib Require String.
From Stdlib Require Floats.PrimFloat Floats.FloatOps Floats.SpecFloat Uint63.
Import ListNotations.

Local Open Scope Q_scope.

(** ** The audio engine as the class sees it *)

Inductive Intensity := low | high.

Inductive ContextState := suspended | running.

Inductive OscillatorType := sine | square | sawtooth.

Inductive FilterType := lowpass | highpass.

(** Automation commands of an [AudioParam]; [SetValue] is the direct
    assignment [param.value = v]. *)
Inductive ParamEvent :=
| SetValue (v : Q)
| SetValueAtTime (v t : Q)
| LinearRampToValueAtTime (v t : Q)
| ExponentialRampToValueAtTime (v t : Q)
| SetTargetAtTime (target startTime timeConstant : Q).

(** A mono noise buffer filled by [data[i] = Math.random() * 2 - 1]:
    [nb_size] is the requested [bufferSize], [nb_first] the position in
    the stream of draws of the one that fills [data[0]]. *)
Record NoiseBuffer := mkNoise { nb_size : Q; nb_first : nat }.

Inductive Source :=
| Oscillator (type : OscillatorType) (frequency : list ParamEvent)
| BufferSource (buffer : NoiseBuffer).

Record BiquadFilter := mkFilter {
  f_type : FilterType;
  f_frequency : list ParamEvent
}.

(** The method that built a voice. *)
Inductive Instrument :=
| Kick | Snare | HiHat | Bass | Synth | SliceSfx | BombSfx.

(** One scheduled voice: source, optional filter, gain envelope, the
    buses its gain node is connected to, and the [start]/[stop] times. *)
Record Voice := mkVoice {
  v_instrument : Instrument;
  v_source : Source;
  v_filter : option BiquadFilter;
  v_gain : list ParamEvent;
  v_toReverb : bool;
  v_toMaster : bool;
  v_start : Q;
  v_stop : option Q
}.

Record AudioContext := mkContext {
  currentTime : Q;
  sampleRate : Q;
  state : ContextState;
  graph : list Voice
}.

(** [masterGain]: the value set at creation and the automation events
    scheduled on [gain] since. *)
Record GainNode := mkGain {
  gain_value : Q;
  gain_events : list ParamEvent
}.

(** A stereo buffer: the two channels as lists of samples. *)
Record AudioBuffer := mkBuffer {
  left : list Q;
  right : list Q
}.

Record ConvolverNode := mkConvolver { buffer : AudioBuffer }.

(** ** The service *)

Record State := mkState {
  (* fields of the class *)
  ctx : option AudioContext;
  isMuted : bool;
  isPlaying : bool;
  tempo : Q;
  nextNoteTime : Q;
  current16thNote : Z;
  timerID : option nat;
  intensity : Intensity;
  masterGain : option GainNode;
  reverbNode : option ConvolverNode;
  (* platform: pending window timeouts (each runs [this.scheduler()]),
     the next timeout id, the position in the Math.random() stream *)
  timeouts : list nat;
  timeoutSeq : nat;
  randomPos : nat
}.

(** Fields that are initialised and never assigned. *)
Definition lookahead : Q := 25.
Definition scheduleAheadTime : Q := 0.1.
Definition scale : list Q := [130.81; 155.56; 174.61; 196.00; 233.08; 261.63].

(** The object as the constructor leaves it. *)
Definition initial : State :=
  mkState None false false 120 0 0%Z None low None None [] 0 0.

Definition set_ctx (c : option AudioContext) (s : State) : State :=
  mkState c (isMuted s) (isPlaying s) (tempo s) (nextNoteTime s)
    (current16thNote s) (timerID s) (intensity s) (masterGain s)
    (reverbNode s) (timeouts s) (timeoutSeq s) (randomPos s).

Definition set_isMuted (b : bool) (s : State) : State :=
  mkState (ctx s) b (isPlaying s) (tempo s) (nextNoteTime s)
    (current16thNote s) (timerID s) (intensity s) (masterGain s)
    (reverbNode s) (timeouts s) (timeoutSeq s) (randomPos s).

Definition set_isPlaying (b : bool) (s : State) : State :=
  mkState (ctx s) (isMuted s) b (tempo s) (nextNoteTime s)
    (current16thNote s) (timerID s) (intensity s) (masterGain s)
    (reverbNode s) (timeouts s) (timeoutSeq s) (randomPos s).

Definition set_tempo (t : Q) (s : State) : State :=
  mkState (ctx s) (isMuted s) (isPlaying s) t (nextNoteTime s)
    (current16thNote s) (timerID s) (intensity s) (masterGain s)
    (reverbNode s) (timeouts s) (timeoutSeq s) (randomPos s).

Definition set_nextNoteTime (t : Q) (s : State) : State :=
  mkState (ctx s) (isMuted s) (isPlaying s) (tempo s) t
    (current16thNote s) (timerID s) (intensity s) (masterGain s)
    (reverbNode s) (timeouts s) (timeoutSeq s) (randomPos s).

Definition set_current16thNote (n : Z) (s : State) : State :=
  mkState (ctx s) (isMuted s) (isPlaying s) (tempo s) (nextNoteTime s)
    n (timerID s) (intensity s) (masterGain s)
    (reverbNode s) (timeouts s) (timeoutSeq s) (randomPos s).

Definition set_timerID (t : option nat) (s : State) : State :=
  mkState (ctx s) (isMuted s) (isPlaying s) (tempo s) (nextNoteTime s)
    (current16thNote s) t (intensity s) (masterGain s)
    (reverbNode s) (timeouts s) (timeoutSeq s) (randomPos s).

Definition set_intensity (i : Intensity) (s : State) : State :=
  mkState (ctx s) (isMuted s) (isPlaying s) (tempo s) (nextNoteTime s)
    (current16thNote s) (timerID s) i (masterGain s)
    (reverbNode s) (timeouts s) (timeoutSeq s) (randomPos s).

Definition set_masterGain (g : option GainNode) (s : State) : State :=
  mkState (ctx s) (isMuted s) (isPlaying s) (tempo s) (nextNoteTime s)
    (current16thNote s) (timerID s) (intensity s) g
    (reverbNode s) (timeouts s) (timeoutSeq s) (randomPos s).

Definition set_reverbNode (r : option ConvolverNode) (s : State) : State :=
  mkState (ctx s) (isMuted s) (isPlaying s) (tempo s) (nextNoteTime s)
    (current16thNote s) (timerID s) (intensity s) (masterGain s)
    r (timeouts s) (timeoutSeq s) (randomPos s).

Definition set_timeouts (l : list nat) (s : State) : State :=
  mkState (ctx s) (isMuted s) (isPlaying s) (tempo s) (nextNoteTime s)
    (current16thNote s) (timerID s) (intensity s) (masterGain s)
    (reverbNode s) l (timeoutSeq s) (randomPos s).

Definition set_timeoutSeq (n : nat) (s : State) : State :=
  mkState (ctx s) (isMuted s) (isPlaying s) (tempo s) (nextNoteTime s)
    (current16thNote s) (timerID s) (intensity s) (masterGain s)
    (reverbNode s) (timeouts s) n (randomPos s).

Definition set_randomPos (n : nat) (s : State) : State :=
  mkState (ctx s) (isMuted s) (isPlaying s) (tempo s) (nextNoteTime s)
    (current16thNote s) (timerID s) (intensity s) (masterGain s)
    (reverbNode s) (timeouts s) (timeoutSeq s) n.

(** ** Procedures

    A method either returns ([Done], with the state it leaves), throws
    ([Throw]: a [TypeError] raised by a null dereference or by the engine
    rejecting a value, with the state at that point), or has not finished
    within the fuel given to its loop ([OutOfFuel]). *)

Inductive Outcome :=
| Done (s : State)
| Throw (s : State)
| OutOfFuel.

Definition Proc := State -> Outcome.

Definition andThen (p q : Proc) : Proc :=
  fun s => match p s with
           | Done s' => q s'
           | o => o
           end.

Notation "p ;; q" := (andThen p q) (at level 61, right associativity).

Definition skip : Proc := Done.

Definition update (f : State -> State) : Proc := fun s => Done (f s).

(** [if (b) { p }] *)
Definition when (b : bool) (p : Proc) : Proc := if b then p else skip.

(** Dereferencing [this.ctx!]. *)
Definition withCtx (k : AudioContext -> Proc) : Proc :=
  fun s => match ctx s with
           | Some c => k c s
           | None => Throw s
           end.

(** Passing [this.masterGain!] / [this.reverbNode!] to [connect]. *)
Definition requireMaster : Proc :=
  fun s => match masterGain s with Some _ => Done s | None => Throw s end.

Definition requireReverb : Proc :=
  fun s => match reverbNode s with Some _ => Done s | None => Throw s end.

(** [n] iterations of a [for (let i = 0; i < bound; i++)] loop. *)
Definition loopCount (bound : Q) : nat := Z.to_nat (Qceiling bound).

(** Number of frames of [createBuffer(_, length, _)]. *)
Definition frames (length : Q) : nat := Z.to_nat (Qfloor length).

Definition Qltb (x y : Q) : bool := negb (Qle_bool y x).

(** [beatNumber % m], the remainder of JavaScript (sign of the dividend). *)
Definition jsmod (a m : Z) : Z := Z.rem a m.

(** [this.scale[i]]; [None] is [undefined]. *)
Definition scaleAt (i : Z) : option Q :=
  if (i <? 0)%Z then None else nth_error scale (Z.to_nat i).

(** [osc.start(time)]: the voice joins the graph of the context. *)
Definition addVoice (v : Voice) : Proc :=
  withCtx (fun c =>
    update (set_ctx (Some (mkContext (currentTime c) (sampleRate c)
                                     (state c) (v :: graph c))))).

(** Filling a fresh mono buffer of [size] samples with noise: one draw
    per iteration of the loop. *)
Definition drawNoise (size : Q) (s : State) : NoiseBuffer * State :=
  (mkNoise size (randomPos s),
   set_randomPos (randomPos s + loopCount size) s).

Section Service.

(** The platform: the stream of [Math.random()] draws, [Math.pow], and
    the context [new AudioContext()] returns ([None]: no constructor is
    available and the [new] expression throws). *)
Variable Math_random : nat -> Q.
Variable Math_pow : Q -> Q -> Q.
Variable newAudioContext : option AudioContext.

(** *** Impulse response *)

(** The value stored at index [i] of a channel from one draw. *)
Definition impulseSample (length decay : Q) (reverse : bool) (i : nat)
  (draw : Q) : Q :=
  let n := if reverse then length - inject_Z (Z.of_nat i)
           else inject_Z (Z.of_nat i) in
  (draw * 2 - 1) * Math_pow (1 - n / length) decay.

(** [k] iterations of the filling loop from index [i]: the pair written
    to [left[i]] and [right[i]], two draws per iteration. *)
Fixpoint impulseLoop (length decay : Q) (reverse : bool) (k i pos : nat)
  : list (Q * Q) :=
  match k with
  | O => []
  | S k' =>
      (impulseSample length decay reverse i (Math_random pos),
       impulseSample length decay reverse i (Math_random (S pos)))
      :: impulseLoop length decay reverse k' (S i) (S (S pos))
  end.

(** [createImpulseResponse(duration, decay, reverse)] on context [c],
    with the stream of draws at [pos]: the buffer and the new position.
    Writes past the last frame of a channel are dropped. *)
Definition createImpulseResponse (c : AudioContext) (duration decay : Q)
  (reverse : bool) (pos : nat) : AudioBuffer * nat :=
  let length := sampleRate c * duration in
  let written := impulseLoop length decay reverse (loopCount length) 0 pos in
  (mkBuffer (firstn (frames length) (map fst written))
            (firstn (frames length) (map snd written)),
   (pos + 2 * loopCount length)%nat).

Definition resume (c : AudioContext) : AudioContext :=
  mkContext (currentTime c) (sampleRate c) running (graph c).

Definition isSuspended (c : AudioContext) : bool :=
  match state c with suspended => true | running => false end.

Definition init : Proc :=
  (fun s =>
     match ctx s with
     | Some _ => Done s
     | None =>
         match newAudioContext with
         | None => Throw s
         | Some c =>
             let '(impulse, pos) :=
               createImpulseResponse c 2.0 2.0 false (randomPos s) in
             Done (set_randomPos pos
                    (set_reverbNode (Some (mkConvolver impulse))
                      (set_masterGain (Some (mkGain 0.4 []))
                        (set_ctx (Some c) s))))
         end
     end) ;;
  withCtx (fun c =>
    when (isSuspended c) (update (set_ctx (Some (resume c))))).

(** *** Sound effects *)

Definition sliceVoice (t : Q) : Voice :=
  mkVoice SliceSfx
    (Oscillator sawtooth
       [SetValueAtTime 1200 t; ExponentialRampToValueAtTime 100 (t + 0.15)])
    None
    [SetValueAtTime 0.3 t; ExponentialRampToValueAtTime 0.01 (t + 0.15)]
    false true t (Some (t + 0.15)).

Definition playSliceSfx : Proc :=
  fun s =>
    match ctx s with
    | None => Done s
    | Some c =>
        if isMuted s then Done s
        else (requireMaster ;; addVoice (sliceVoice (currentTime c))) s
    end.

Definition bombVoice (t : Q) (noise : NoiseBuffer) : Voice :=
  mkVoice BombSfx (BufferSource noise)
    (Some (mkFilter lowpass
       [SetValueAtTime 1000 t; ExponentialRampToValueAtTime 50 (t + 0.4)]))
    [SetValueAtTime 0.5 t; ExponentialRampToValueAtTime 0.01 (t + 0.4)]
    false true t None.

Definition playBombSfx : Proc :=
  fun s =>
    match ctx s with
    | None => Done s
    | Some c =>
        if isMuted s then Done s
        else
          let '(noise, s1) := drawNoise (sampleRate c * 0.5) s in
          (requireMaster ;; addVoice (bombVoice (currentTime c) noise)) s1
    end.

(** *** Synth instruments *)

Definition kickVoice (time : Q) : Voice :=
  mkVoice Kick
    (Oscillator sine
       [SetValueAtTime 150 time;
        ExponentialRampToValueAtTime 0.01 (time + 0.5)])
    None
    [SetValueAtTime 0.8 time; ExponentialRampToValueAtTime 0.01 (time + 0.5)]
    false true time (Some (time + 0.5)).

Definition playKick (time : Q) : Proc :=
  withCtx (fun _ => requireMaster ;; addVoice (kickVoice time)).

Definition snareVoice (time : Q) (noise : NoiseBuffer) : Voice :=
  mkVoice Snare (BufferSource noise)
    (Some (mkFilter highpass [SetValue 800]))
    [SetValueAtTime 0.3 time; ExponentialRampToValueAtTime 0.01 (time + 0.2)]
    true true time (Some (time + 0.2)).

Definition playSnare (time : Q) : Proc :=
  withCtx (fun c s =>
    let '(noise, s1) := drawNoise (sampleRate c * 0.2) s in
    (requireReverb ;; requireMaster ;; addVoice (snareVoice time noise)) s1).

Definition hiHatVoice (time duration : Q) (noise : NoiseBuffer) : Voice :=
  mkVoice HiHat (BufferSource noise)
    (Some (mkFilter highpass [SetValue 5000]))
    [SetValueAtTime 0.1 time;
     ExponentialRampToValueAtTime 0.01 (time + duration)]
    false true time None.

Definition playHiHat (time duration : Q) : Proc :=
  withCtx (fun c s =>
    let '(noise, s1) := drawNoise (sampleRate c * duration) s in
    (requireMaster ;; addVoice (hiHatVoice time duration noise)) s1).

Definition bassVoice (time freq duration : Q) : Voice :=
  mkVoice Bass (Oscillator sawtooth [SetValue freq])
    (Some (mkFilter lowpass
       [SetValueAtTime 400 time;
        ExponentialRampToValueAtTime 100 (time + duration)]))
    [SetValueAtTime 0.3 time; LinearRampToValueAtTime 0 (time + duration)]
    false true time (Some (time + duration)).

(** A frequency argument is [None] when the expression it comes from is
    not a number ([undefined] read past the scale); assigning it to
    [frequency.value] throws. *)
Definition playBass (time : Q) (freq : option Q) (duration : Q) : Proc :=
  withCtx (fun _ s =>
    match freq with
    | None => Throw s
    | Some f => (requireMaster ;; addVoice (bassVoice time f duration)) s
    end).

Definition synthVoice (time freq duration : Q) : Voice :=
  mkVoice Synth (Oscillator square [SetValue freq])
    None
    [SetValueAtTime 0.1 time; LinearRampToValueAtTime 0 (time + duration)]
    true true time (Some (time + duration)).

Definition playSynth (time : Q) (freq : option Q) (duration : Q) : Proc :=
  withCtx (fun _ s =>
    match freq with
    | None => Throw s
    | Some f =>
        (requireReverb ;; requireMaster ;;
         addVoice (synthVoice time f duration)) s
    end).

(** *** BGM engine *)

(** [Math.floor(Math.random() * n)], and the draw it uses. *)
Definition randomIndex (n : Q) (s : State) : Z * State :=
  (Qfloor (Math_random (randomPos s) * n),
   set_randomPos (S (randomPos s)) s).

Definition isHigh (i : Intensity) : bool :=
  match i with high => true | low => false end.

(** [if (this.intensity === 'high') { p } else { q }] *)
Definition ifHigh (p q : Proc) : Proc :=
  fun s => if isHigh (intensity s) then p s else q s.

Definition scheduleNote (beatNumber : Z) (time : Q) : Proc :=
  fun s0 =>
    if isMuted s0 then Done s0
    else
      ((* KICK *)
       ifHigh
         (when (jsmod beatNumber 4 =? 0)%Z (playKick time))
         (when ((beatNumber =? 0) || (beatNumber =? 10))%Z (playKick time)) ;;
       (* SNARE / CLAP *)
       when (jsmod beatNumber 8 =? 4)%Z (playSnare time) ;;
       (* HI-HAT *)
       (if (jsmod beatNumber 2 =? 0)%Z then playHiHat time 0.05
        else ifHigh (playHiHat time 0.03) skip) ;;
       (* BASS *)
       ifHigh
         (when (jsmod beatNumber 2 =? 0)%Z
            (let note := if (beatNumber <? 8)%Z then scaleAt 0 else scaleAt 1 in
             playBass time (option_map (fun n => n / 2) note) 0.2))
         (when (beatNumber =? 0)%Z
            (playBass time (option_map (fun n => n / 2) (scaleAt 0)) 2)) ;;
       (* MELODY / ARP *)
       ifHigh
         (when (existsb (Z.eqb beatNumber) [0; 3; 6; 9; 12; 14]%Z)
            (fun s =>
               let '(noteIdx, s1) := randomIndex 4 s in
               playSynth time (scaleAt noteIdx) 0.1 s1))
         (when ((beatNumber =? 0) || (beatNumber =? 6) || (beatNumber =? 12))%Z
            (fun s =>
               let '(noteIdx, s1) :=
                 randomIndex (inject_Z (Z.of_nat (length scale))) s in
               playSynth time (option_map (fun n => n * 2) (scaleAt noteIdx))
                 0.5 s1))) s0.

Definition nextNote : Proc :=
  fun s =>
    let secondsPerBeat := 60.0 / tempo s in
    let s1 := set_nextNoteTime (nextNoteTime s + 0.25 * secondsPerBeat) s in
    let s2 := set_current16thNote (current16thNote s1 + 1)%Z s1 in
    Done (if (current16thNote s2 =? 16)%Z then set_current16thNote 0%Z s2
          else s2).

(** The [while] loop of [scheduler]. *)
Fixpoint schedulerLoop (fuel : nat) : Proc :=
  fun s =>
    match fuel with
    | O => OutOfFuel
    | S fuel' =>
        match ctx s with
        | None => Throw s
        | Some c =>
            if Qltb (nextNoteTime s) (currentTime c + scheduleAheadTime)
            then (scheduleNote (current16thNote s) (nextNoteTime s) ;;
                  nextNote ;;
                  schedulerLoop fuel') s
            else Done s
        end
    end.

(** [this.timerID = window.setTimeout(() => this.scheduler(), lookahead)] *)
Definition setTimeout : Proc :=
  update (fun s =>
    set_timerID (Some (timeoutSeq s))
      (set_timeoutSeq (S (timeoutSeq s))
        (set_timeouts (timeoutSeq s :: timeouts s) s))).

Definition scheduler (fuel : nat) : Proc :=
  fun s =>
    if negb (isPlaying s) || (match ctx s with None => true | Some _ => false end)
    then Done s
    else (schedulerLoop fuel ;; setTimeout) s.

(** [window.clearTimeout(id)] *)
Definition clearTimeout (id : option nat) (pending : list nat) : list nat :=
  match id with
  | None => pending
  | Some i => remove Nat.eq_dec i pending
  end.

Definition stopBGM : Proc :=
  update (fun s =>
    let s1 := set_isPlaying false s in
    set_timeouts (clearTimeout (timerID s1) (timeouts s1)) s1).

Definition startBGM (fuel : nat) (i : Intensity) : Proc :=
  (fun s => when (isPlaying s) stopBGM s) ;;
  init ;;
  (fun s =>
     match ctx s with
     | None => Done s
     | Some c =>
         (update (fun s =>
            set_nextNoteTime (currentTime c + 0.1)
              (set_tempo (if isHigh i then 135 else 100)
                (set_current16thNote 0%Z
                  (set_isPlaying true
                    (set_intensity i s))))) ;;
          scheduler fuel) s
     end).

Definition toggleMute : Proc :=
  update (fun s => set_isMuted (negb (isMuted s)) s) ;;
  (fun s =>
     match masterGain s with
     | None => Done s
     | Some g =>
         withCtx (fun c =>
           update (set_masterGain (Some (mkGain (gain_value g)
             (SetTargetAtTime (if isMuted s then 0 else 0.4)
                              (currentTime c) 0.1
              :: gain_events g))))) s
     end).

(** *** The service in its environment *)

(** What can happen to the object: a call of a public method, a pending
    timeout that fires, the audio clock moving on. *)
Inductive Event :=
| CallInit
| CallStartBGM (i : Intensity)
| CallStopBGM
| CallToggleMute
| CallPlaySliceSfx
| CallPlayBombSfx
| TimeoutFires (id : nat)
| ClockAdvances (t : Q).

Definition setClock (t : Q) (c : AudioContext) : AudioContext :=
  mkContext t (sampleRate c) (state c) (graph c).

Definition handle (fuel : nat) (e : Event) : Proc :=
  match e with
  | CallInit => init
  | CallStartBGM i => startBGM fuel i
  | CallStopBGM => stopBGM
  | CallToggleMute => toggleMute
  | CallPlaySliceSfx => playSliceSfx
  | CallPlayBombSfx => playBombSfx
  | TimeoutFires id =>
      fun s =>
        if existsb (Nat.eqb id) (timeouts s)
        then scheduler fuel (set_timeouts (remove Nat.eq_dec id (timeouts s)) s)
        else Done s
  | ClockAdvances t =>
      fun s =>
        match ctx s with
        | Some c =>
            if Qle_bool (currentTime c) t
            then Done (set_ctx (Some (setClock t c)) s)
            else Done s
        | None => Done s
        end
  end.

End Service.

(** ** Vocabulary of the properties *)

(** [n] calls of a procedure in a row. *)
Fixpoint times (n : nat) (p : Proc) : Proc :=
  match n with
  | O => skip
  | S n' => p ;; times n' p
  end.

(** The voices scheduled so far, most recent first. *)
Definition voices (s : State) : list Voice :=
  match ctx s with
  | Some c => graph c
  | None => []
  end.

(** The mix graph is initialised: context, master gain and reverb exist. *)
Definition initialised (s : State) : bool :=
  match ctx s, masterGain s, reverbNode s with
  | Some _, Some _, Some _ => true
  | _, _, _ => false
  end.

(** The sixteenth-note period of a tempo. *)
Definition secondsPerSixteenth (bpm : Q) : Q := 0.25 * (60.0 / bpm).

(** The step counter is on the 16-step grid. *)
Definition onGrid (s : State) : Prop :=
  (0 <= current16thNote s < 16)%Z.

(** A draw of [Math.random()] lies in [0, 1). *)
Definition unitDraw (r : Q) : Prop := 0 <= r /\ r < 1.

(** The transport fields. *)
Definition transport (s : State) : bool * Q * Z * Q * Intensity :=
  (isPlaying s, tempo s, current16thNote s, nextNoteTime s, intensity s).

(** The target of the most recent automation event of the master gain. *)
Definition masterTarget (s : State) : option Q :=
  match masterGain s with
  | Some g =>
      match gain_events g with
      | SetTargetAtTime target _ _ :: _ => Some target
      | _ => None
      end
  | None => None
  end.

(** A small backend for examples: 8 frames per second, clock at 0. *)
Definition demoContext : AudioContext := mkContext 0 8 suspended [].

(** A stream of draws that always yields [r]. *)
Definition constantDraws (r : Q) : nat -> Q := fun _ => r.

(** [Math.pow] on the exponents the examples use (whole numbers). *)
Definition demoPow (x y : Q) : Q := Qpower x (Qfloor y).


(** The service after [init()] and one [toggleMute()] on the small
    backend: initialised and muted. *)
Definition mutedDemo : State :=
  Eval vm_compute in
    match (init (constantDraws 0.5) demoPow (Some demoContext) ;; toggleMute)
            initial with
    | Done s => s
    | _ => initial
    end.


(** Every draw of the stream lies in [0, 1). *)
Definition fairDraws (rand : nat -> Q) : Prop :=
  forall n : nat, unitDraw (rand n).

(** State [s] after the voices [new] (most recent first) joined the
    graph and the stream of draws moved to [pos]; nothing else differs. *)
Definition emitted (new : list Voice) (pos : nat) (s : State) : State :=
  match ctx s with
  | Some c =>
      set_randomPos pos
        (set_ctx (Some (mkContext (currentTime c) (sampleRate c) (state c)
                                  (new ++ graph c))) s)
  | None => s
  end.

(** On an initialised service of intensity [i], procedure [p] returns
    and does nothing but take draws and schedule voices, whose list (most
    recent first) satisfies [L]. *)
Definition emits (i : Intensity) (p : Proc) (L : list Voice -> Prop) : Prop :=
  forall s : State, initialised s = true -> intensity s = i ->
    exists new pos, p s = Done (emitted new pos s)
      /\ L new /\ (randomPos s <= pos)%nat.

(** The list a conditional call schedules. *)
Definition ifFires (b : bool) (L : list Voice -> Prop) : list Voice -> Prop :=
  fun l => if b then L l else l = [].

(** [f] is the note of the scale picked by some draw of the stream among
    the first [n] notes: [f = scale[floor(draw * n)]]. *)
Definition drawnNote (rand : nat -> Q) (n : Z) (f : Q) : Prop :=
  exists pos idx,
    idx = Qfloor (rand pos * inject_Z n)
    /\ (0 <= idx < n)%Z
    /\ scaleAt idx = Some f.


Definition Instrument_eqb (a b : Instrument) : bool :=
  match a, b with
  | Kick, Kick | Snare, Snare | HiHat, HiHat | Bass, Bass
  | Synth, Synth | SliceSfx, SliceSfx | BombSfx, BombSfx => true
  | _, _ => false
  end.

(** The voice was built by the recipe of instrument [k]. *)
Definition playedBy (k : Instrument) (v : Voice) : bool :=
  Instrument_eqb (v_instrument v) k.

(** An initialised, unmuted service on the small backend, per intensity. *)
Definition demoState (i : Intensity) : State :=
  mkState (Some (resume demoContext)) false true
    (if isHigh i then 135 else 100) 0.1 0%Z (Some 0%nat) i
    (Some (mkGain 0.4 [])) (Some (mkConvolver (mkBuffer [] []))) [0%nat] 1 0.


(** The state an outcome carries. *)
Definition stateOf (o : Outcome) (default : State) : State :=
  match o with
  | Done s => s
  | Throw s => s
  | OutOfFuel => default
  end.

(** The state after one step advance ([nextNote] always returns). *)
Definition advance (s : State) : State := stateOf (nextNote s) s.

(** Start times of a list of new voices, in the order they were handed
    to the engine (the graph lists the most recent first). *)
Definition startTimes (new : list Voice) : list Q :=
  map v_start (rev new).


(** The state after [setTimeout] armed the next tick. *)
Definition armed (s : State) : State := stateOf (setTimeout s) s.


(** At most one scheduling loop: the only timeout that can be pending is
    the one recorded in [timerID], and only while playing; timeout ids
    handed out so far are below [timeoutSeq]. *)
Definition singleLoop (s : State) : bool :=
  match timerID s with
  | Some id => (id <? timeoutSeq s)%nat
  | None => true
  end
  && match timeouts s with
     | [] => true
     | [id] =>
         isPlaying s
         && match timerID s with
            | Some id' => (id =? id')%nat
            | None => false
            end
     | _ => false
     end.

(** An audio context exists already or can be constructed. *)
Definition hasBackend (fresh : option AudioContext) (s : State) : bool :=
  match ctx s, fresh with
  | None, None => false
  | _, _ => true
  end.


(** The fields the single-loop discipline speaks of. *)
Definition timersOf (s : State) : option nat * list nat * nat * bool :=
  (timerID s, timeouts s, timeoutSeq s, isPlaying s).

(** Everything but the context and the position in the stream of draws:
    what scheduling a voice leaves alone. *)
Definition shellOf (s : State)
  : bool * bool * Q * Q * Z * option nat * Intensity
    * option GainNode * option ConvolverNode * list nat * nat :=
  (isMuted s, isPlaying s, tempo s, nextNoteTime s, current16thNote s,
   timerID s, intensity s, masterGain s, reverbNode s, timeouts s,
   timeoutSeq s).

(** A procedure that never changes the view [f] of the state, however
    it ends. *)
Definition keeps {A : Type} (f : State -> A) (p : Proc) : Prop :=
  forall s : State, f (stateOf (p s) s) = f s.

(** A procedure that keeps the property [I] of the state, however it
    ends. *)
Definition preserves (I : State -> Prop) (p : Proc) : Prop :=
  forall s : State, I s -> I (stateOf (p s) s).


(** The states the service can be in: the constructed object, and what
    any event leaves behind, however the call ends. *)
Inductive reachable (rand : nat -> Q) (pow : Q -> Q -> Q)
  (fresh : option AudioContext) : State -> Prop :=
| reach_initial : reachable rand pow fresh initial
| reach_event (fuel : nat) (e : Event) (s : State) :
    reachable rand pow fresh s ->
    reachable rand pow fresh (stateOf (handle rand pow fresh fuel e s) s).


(** How a voice built by [scheduleNote] is wired and timed: it feeds the
    master bus; it feeds the reverb exactly when it is a snare or a
    synth; it stops after it starts, or (hi-hat) is never stopped. *)
Definition wellRouted (time : Q) (v : Voice) : Prop :=
  v_toMaster v = true
  /\ v_start v = time
  /\ (v_toReverb v = true <->
      v_instrument v = Snare \/ v_instrument v = Synth)
  /\ match v_stop v with
     | Some t => v_start v < t /\ v_instrument v <> HiHat
     | None => v_instrument v = HiHat
     end.


(** The clock of the context, if there is one. *)
Definition clockOf (s : State) : option Q :=
  option_map currentTime (ctx s).


(** The mix graph is all there or not there at all: the context, the
    master gain and the reverb exist together. *)
Definition wired (s : State) : bool :=
  match ctx s, masterGain s, reverbNode s with
  | Some _, Some _, Some _ => true
  | None, None, None => true
  | _, _, _ => false
  end.

(** The mute flag and the master gain. *)
Definition muteView (s : State) : bool * option GainNode :=
  (isMuted s, masterGain s).

(** The master gain follows the mute flag: its own value is the 0.4 it
    was created with, and if it was ever automated, the target of its
    latest automation event is 0 when the service is muted and 0.4 when
    it is not. *)
Definition gainFollowsMute (s : State) : Prop :=
  (forall g, masterGain s = Some g -> gain_value g = 0.4)
  /\ (masterTarget s = None
      \/ masterTarget s = Some (if isMuted s then 0 else 0.4)).

(** The call ended in an exception. *)
Definition throws (o : Outcome) : bool :=
  match o with
  | Throw _ => true
  | _ => false
  end.


(** ** The step advance in double precision

    The service above carries times as exact rationals.  What the
    specification says about the exact value of [nextNoteTime] is
    settled on this second embedding of [nextNote], which keeps the
    IEEE-754 doubles of the code: [float] is the binary64 of the kernel,
    and [+], [*] and [/] round to nearest, ties to even, as the
    operators of JavaScript do.  The step counter holds small integers,
    which doubles represent exactly; it stays a [Z]. *)

Module Double.

Import PrimFloat FloatOps SpecFloat.

(** The fields [nextNote] reads and writes. *)
Record Transport := mkTransport {
  tempo : float;
  nextNoteTime : float;
  current16thNote : Z
}.

Definition nextNote (s : Transport) : Transport :=
  let secondsPerBeat := (60.0 / tempo s)%float in
  let s1 := mkTransport (tempo s)
              (nextNoteTime s + 0.25 * secondsPerBeat)%float
              (current16thNote s) in
  let s2 := mkTransport (tempo s1) (nextNoteTime s1)
              (current16thNote s1 + 1)%Z in
  if (current16thNote s2 =? 16)%Z
  then mkTransport (tempo s2) (nextNoteTime s2) 0%Z
  else s2.

(** The real number a finite double stands for: sign, mantissa and
    exponent read off its bits. *)
Definition valueOf (x : float) : Q :=
  match Prim2SF x with
  | S754_finite sgn m e =>
      inject_Z (if sgn then Z.neg m else Z.pos m) * 2 ^ e
  | _ => 0
  end.

(** The double [k * 0.125], for a whole number [k] of eighths of a
    second. *)
Definition eighths (k : Z) : float :=
  (of_uint63 (Uint63.of_Z k) * 0.125)%float.

(** From [k] eighths of a second, one addition of 0.125 and sixteen of
    them in a row are exact. *)
Definition barCheck (k : Z) : bool :=
  let x := eighths k in
  let r1 := (x + 0.125)%float in
  let r16 := Nat.iter 16 (fun t => (t + 0.125)%float) x in
  is_finite x && Qeq_bool (valueOf x) (k # 8)
  && is_finite r1 && Qeq_bool (valueOf r1) ((k # 8) + 0.125)
  && is_finite r16 && Qeq_bool (valueOf r16) ((k # 8) + 2).

(** [f] holds of every number from [p * 2^n] up to, and without,
    [(p + 1) * 2^n]. *)
Fixpoint allBelow (n : nat) (p : Z) (f : Z -> bool) : bool :=
  match n with
  | O => f p
  | S n' => allBelow n' (2 * p) f && allBelow n' (2 * p + 1) f
  end.

(** The [nextNoteTime] that [startBGM] sets when the clock of the
    context reads 640 / 44100 s (five render quanta at 44.1 kHz):
    0.11451247165532881. *)
Definition afterFiveQuanta : float := 0x1.d50b078be6755p-4%float.

End Double.


(** ** The game that drives the service (types, App.tsx, GameCanvas.tsx)

    The part of the game loop that decides hits, misses and the score
    and calls the service for its sound effects.  Rendering ([draw]),
    the camera and the gesture service are left out.  [Date.now()] is an
    argument; [Math.random] is the same stream of draws as the service
    uses, so its position lives in the state of the service. *)

Module Game.

Import String.
Local Open Scope Q_scope.

Inductive GameState := IDLE | CONNECTING | PLAYING | GAME_OVER.

Inductive Side := left | right.

Inductive TargetType := fruit | bomb.

(** [Particle]; its coordinates are [px], [py] here, [x], [y] in the
    source. *)
Record Particle := mkParticle {
  px : Q;
  py : Q;
  vx : Q;
  vy : Q;
  life : Q;
  color : string
}.

Record Target := mkTarget {
  id : string;
  side : Side;
  y : Q;
  hit : bool;
  missed : bool;
  type : TargetType;
  fruitIndex : Z
}.

Record GameScore := mkScore {
  score : Z;
  combo : Z;
  maxCombo : Z;
  hits : Z;
  misses : Z
}.

Inductive Difficulty := NOVICE | WARRIOR | LEGEND.

Record LevelConfig := mkLevel {
  difficulty : Difficulty;
  spawnInterval : Q;
  gravity : Q;
  bombChance : Q
}.

(** *** App.tsx *)

Definition DIFFICULTY_CONFIGS (d : Difficulty) : LevelConfig :=
  match d with
  | NOVICE => mkLevel NOVICE 1400 6 0
  | WARRIOR => mkLevel WARRIOR 1000 9 0.15
  | LEGEND => mkLevel LEGEND 750 12 0.30
  end.

(** The score the component starts with and [resetGame] restores. *)
Definition zeroScore : GameScore := mkScore 0 0 0 0 0.

(** The calls of the service at the head of [startGame]. *)
Definition startGameAudio (rand : nat -> Q) (pow : Q -> Q -> Q)
  (fresh : option AudioContext) (fuel : nat) (currentDifficulty : Difficulty)
  : Proc :=
  init rand pow fresh ;;
  startBGM rand pow fresh fuel
    (match currentDifficulty with LEGEND => high | _ => low end).

(** *** GameCanvas.tsx *)

(** A fruit of the table: the code point of its emoji and its colour. *)
Record Fruit := mkFruit { emoji : N; fruitColor : string }.

Definition firstFruit : Fruit := mkFruit 0x1F349 "#ef4444"%string.

Definition FRUITS : list Fruit :=
  [ firstFruit;
    mkFruit 0x1F34C "#facc15"%string;
    mkFruit 0x1F34D "#f59e0b"%string;
    mkFruit 0x1F965 "#f5f5f4"%string;
    mkFruit 0x1F95D "#84cc16"%string;
    mkFruit 0x1F34E "#dc2626"%string;
    mkFruit 0x1F347 "#9333ea"%string;
    mkFruit 0x1F34A "#f97316"%string ].

Definition STRIKE_WINDOW_MS : Z := 600.
Definition HIT_THRESHOLD_Y : Q := 220.

(** The refs of the component, the score state it updates and the
    service it calls. *)
Record Canvas := mkCanvas {
  targetsRef : list Target;
  particlesRef : list Particle;
  lastSpawnRef : Z;
  triggerRef : Side -> Z;
  scoreState : GameScore;
  audioService : State
}.

Definition set_targetsRef (l : list Target) (g : Canvas) : Canvas :=
  mkCanvas l (particlesRef g) (lastSpawnRef g) (triggerRef g) (scoreState g)
    (audioService g).

Definition set_particlesRef (l : list Particle) (g : Canvas) : Canvas :=
  mkCanvas (targetsRef g) l (lastSpawnRef g) (triggerRef g) (scoreState g)
    (audioService g).

Definition set_lastSpawnRef (t : Z) (g : Canvas) : Canvas :=
  mkCanvas (targetsRef g) (particlesRef g) t (triggerRef g) (scoreState g)
    (audioService g).

Definition set_triggerRef (f : Side -> Z) (g : Canvas) : Canvas :=
  mkCanvas (targetsRef g) (particlesRef g) (lastSpawnRef g) f (scoreState g)
    (audioService g).

Definition set_scoreState (sc : GameScore) (g : Canvas) : Canvas :=
  mkCanvas (targetsRef g) (particlesRef g) (lastSpawnRef g) (triggerRef g) sc
    (audioService g).

Definition set_audioService (a : State) (g : Canvas) : Canvas :=
  mkCanvas (targetsRef g) (particlesRef g) (lastSpawnRef g) (triggerRef g)
    (scoreState g) a.

(** A frame either completes or is cut short by an exception of the
    service. *)
Inductive Result :=
| Completed (g : Canvas)
| Raised (g : Canvas).

Definition andNext (r : Result) (k : Canvas -> Result) : Result :=
  match r with
  | Completed g => k g
  | Raised g => Raised g
  end.

(** A call of a method of the service (the effects have no loop, so
    they never run out of fuel). *)
Definition callService (p : Proc) (g : Canvas) : Result :=
  match p (audioService g) with
  | Done a => Completed (set_audioService a g)
  | Throw a => Raised (set_audioService a g)
  | OutOfFuel => Raised g
  end.

Definition Side_eqb (a b : Side) : bool :=
  match a, b with
  | left, left | right, right => true
  | _, _ => false
  end.

(** The argument of [updateScore]: ['hit'], ['miss'] or ['bomb']. *)
Inductive ScoreEvent := onHit | onMiss | onBomb.

(** The updater [updateScore] passes to [setScore]. *)
Definition updateScore (event : ScoreEvent) (prev : GameScore) : GameScore :=
  match event with
  | onHit =>
      let newCombo := (combo prev + 1)%Z in
      mkScore (score prev + (100 + combo prev * 10))%Z
              newCombo
              (if (maxCombo prev <? newCombo)%Z then newCombo
               else maxCombo prev)
              (hits prev + 1)%Z
              (misses prev)
  | onBomb =>
      mkScore (Z.max 0 (score prev - 500)) 0 (maxCombo prev) (hits prev)
              (misses prev + 1)%Z
  | onMiss =>
      mkScore (score prev) 0 (maxCombo prev) (hits prev) (misses prev + 1)%Z
  end.

Definition setScore (f : GameScore -> GameScore) (g : Canvas) : Canvas :=
  set_scoreState (f (scoreState g)) g.

(** [array.findIndex(f)]; [None] is -1. *)
Fixpoint findIndex {A : Type} (f : A -> bool) (l : list A) : option nat :=
  match l with
  | [] => None
  | a :: l' => if f a then Some O else option_map S (findIndex f l')
  end.

(** The array after [array[i].hit = true]. *)
Fixpoint markHit (i : nat) (l : list Target) : list Target :=
  match l, i with
  | [], _ => []
  | t :: l', O =>
      mkTarget (id t) (side t) (y t) true (missed t) (type t) (fruitIndex t)
      :: l'
  | t :: l', S i' => t :: markHit i' l'
  end.

(** [FRUITS[i] || FRUITS[0]] *)
Definition fruitAt (i : Z) : Fruit :=
  match (if (i <? 0)%Z then None else nth_error FRUITS (Z.to_nat i)) with
  | Some f => f
  | None => firstFruit
  end.

Definition moveParticle (p : Particle) : Particle :=
  mkParticle (px p + vx p) (py p + vy p) (vx p) (vy p) (life p - 0.03)
    (color p).

(** The particles after one frame: each moves and fades, the faded ones
    are dropped. *)
Definition stepParticles (ps : list Particle) : list Particle :=
  filter (fun p => Qltb 0 (life p)) (map moveParticle ps).

Section Loop.

(** The platform and the props of the component. *)
Variable Math_random : nat -> Q.
Variable Math_cos : Q -> Q.
Variable Math_sin : Q -> Q.
Variable Math_PI : Q.
(** [r.toString(36).substr(2, 9)] *)
Variable idString : Q -> string.
Variable gameState : GameState.
Variable levelConfig : LevelConfig.

(** One call of [Math.random()]. *)
Definition nextRandom (g : Canvas) : Q * Canvas :=
  (Math_random (randomPos (audioService g)),
   set_audioService
     (set_randomPos (S (randomPos (audioService g))) (audioService g)) g).

Definition spawnTarget (width : Q) (g : Canvas) : Canvas :=
  let '(r1, g1) := nextRandom g in
  let side := if Qltb 0.5 r1 then left else right in
  let '(r2, g2) := nextRandom g1 in
  let isBomb := Qltb r2 (bombChance levelConfig) in
  let '(r3, g3) := nextRandom g2 in
  let fruitIndex := Qfloor (r3 * inject_Z (Z.of_nat (List.length FRUITS))) in
  let '(r4, g4) := nextRandom g3 in
  set_targetsRef
    (targetsRef g4
     ++ [mkTarget (idString r4) side (-100) false false
                  (if isBomb then bomb else fruit) fruitIndex]) g4.

(** [k] iterations of the loop of [createExplosion]. *)
Fixpoint explosionLoop (k : nat) (x y : Q) (color : string) (g : Canvas)
  : Canvas :=
  match k with
  | O => g
  | S k' =>
      let '(r1, g1) := nextRandom g in
      let angle := r1 * Math_PI * 2 in
      let '(r2, g2) := nextRandom g1 in
      let speed := r2 * 15 + 5 in
      explosionLoop k' x y color
        (set_particlesRef
           (particlesRef g2
            ++ [mkParticle x y (Math_cos angle * speed)
                           (Math_sin angle * speed) 1.0 color]) g2)
  end.

Definition createExplosion (x y : Q) (color : string) : Canvas -> Canvas :=
  explosionLoop 30 x y color.

(** The predicate of [findIndex] in [checkHit]. *)
Definition inReach (s : Side) (hitY threshold : Q) (t : Target) : bool :=
  Side_eqb (side t) s && negb (hit t) && Qltb (Qabs (y t - hitY)) threshold.

Definition checkHit (s : Side) (hitY threshold width : Q) (g : Canvas)
  : Result :=
  match findIndex (inReach s hitY threshold) (targetsRef g) with
  | None => Completed g
  | Some targetIndex =>
      match nth_error (targetsRef g) targetIndex with
      | None => Completed g
      | Some t =>
          let g1 := set_targetsRef (markHit targetIndex (targetsRef g)) g in
          let xPos := match s with
                      | left => width * 0.20
                      | right => width * 0.80
                      end in
          match type t with
          | bomb =>
              andNext
                (callService playBombSfx
                   (createExplosion xPos (y t) "#000000"%string g1))
                (fun g2 => Completed (setScore (updateScore onBomb) g2))
          | fruit =>
              let fruitConfig := fruitAt (fruitIndex t) in
              andNext
                (callService playSliceSfx
                   (createExplosion xPos (y t) (fruitColor fruitConfig) g1))
                (fun g2 => Completed (setScore (updateScore onHit) g2))
          end
      end
  end.

(** The test of the miss detection, on the target before it moves:
    after the move it is below the bottom line, and it is neither hit
    nor flagged yet. *)
Definition passesLine (height : Q) (t : Target) : bool :=
  Qltb (height + 100) (y t + gravity levelConfig)
  && negb (hit t) && negb (missed t).

(** The [forEach] over the targets in [update]: each falls by the
    gravity of the level; a fruit that passes the bottom line unhit is
    flagged and counted as a miss. *)
Fixpoint fallTargets (height : Q) (ts : list Target) (sc : GameScore)
  : list Target * GameScore :=
  match ts with
  | [] => ([], sc)
  | t :: rest =>
      let y1 := y t + gravity levelConfig in
      let passed := passesLine height t in
      let t1 := mkTarget (id t) (side t) y1 (hit t)
                  (if passed then true else missed t) (type t) (fruitIndex t) in
      let sc1 := if passed
                 then match type t with
                      | fruit => updateScore onMiss sc
                      | bomb => sc
                      end
                 else sc in
      let '(rest', sc') := fallTargets height rest sc1 in
      (t1 :: rest', sc')
  end.

Definition update (now : Z) (width height : Q) (g : Canvas) : Result :=
  match gameState with
  | PLAYING =>
      let hitY := height - 160 in
      (* spawning *)
      let g1 := if Qltb (spawnInterval levelConfig)
                        (inject_Z (now - lastSpawnRef g))
                then set_lastSpawnRef now (spawnTarget width g)
                else g in
      (* hits *)
      andNext
        (if (now - triggerRef g1 left <? STRIKE_WINDOW_MS)%Z
         then checkHit left hitY HIT_THRESHOLD_Y width g1
         else Completed g1)
        (fun g2 =>
      andNext
        (if (now - triggerRef g2 right <? STRIKE_WINDOW_MS)%Z
         then checkHit right hitY HIT_THRESHOLD_Y width g2
         else Completed g2)
        (fun g3 =>
      (* targets fall; misses *)
      let '(fallen, sc) := fallTargets height (targetsRef g3) (scoreState g3) in
      let g4 := set_scoreState sc (set_targetsRef fallen g3) in
      (* cleanup *)
      let g5 := set_targetsRef
                  (filter (fun t => Qltb (y t) (height + 150) && negb (hit t))
                          (targetsRef g4)) g4 in
      (* particles *)
      Completed (set_particlesRef (stepParticles (particlesRef g5)) g5)))
  | _ => Completed g
  end.

End Loop.

(** *** Vocabulary of the properties of the game *)

(** The canvas a frame leaves, and whether it completed. *)
Definition canvasOf (r : Result) : Canvas :=
  match r with
  | Completed g => g
  | Raised g => g
  end.

Definition completed (r : Result) : bool :=
  match r with
  | Completed _ => true
  | Raised _ => false
  end.

(** A score the game can show: nothing negative, the best combo at
    least the current one. *)
Definition wellScored (sc : GameScore) : Prop :=
  (0 <= score sc /\ 0 <= combo sc <= maxCombo sc
   /\ 0 <= hits sc /\ 0 <= misses sc)%Z.

(** The score after a list of events, oldest first. *)
Definition scoreAfter (events : list ScoreEvent) (sc : GameScore)
  : GameScore :=
  fold_left (fun acc e => updateScore e acc) events sc.

Definition isFruit (t : Target) : bool :=
  match type t with
  | fruit => true
  | bomb => false
  end.

(** A service whose sound effects cannot throw: it is initialised, or
    muted, or has no context yet. *)
Definition soundSafe (a : State) : Prop :=
  initialised a = true \/ isMuted a = true \/ ctx a = None.

(** [t'] is the target [t], possibly struck meanwhile. *)
Definition struck (t t' : Target) : Prop :=
  id t' = id t /\ side t' = side t /\ y t' = y t /\ missed t' = missed t
  /\ type t' = type t /\ fruitIndex t' = fruitIndex t
  /\ (hit t = true -> hit t' = true).

(** [t'] is the target [t] one frame later: fallen by [dy], possibly
    struck or flagged as missed meanwhile. *)
Definition fallen (dy : Q) (t t' : Target) : Prop :=
  id t' = id t /\ side t' = side t /\ y t' = y t + dy
  /\ type t' = type t /\ fruitIndex t' = fruitIndex t.

(** A canvas for examples: one melon on the left at height 500, no
    particle, the zero score, strike timestamps at 0 and the service of
    the small backend; a platform whose cosine is 1 and sine 0, and
    whose identifiers are all empty. *)
Definition demoTarget : Target :=
  mkTarget EmptyString left 500 false false fruit 0.

Definition demoCanvas : Canvas :=
  mkCanvas [demoTarget] [] 0 (fun _ => 0%Z) zeroScore (demoState low).

Definition demoId (r : Q) : string := EmptyString.

Definition demoCos (x : Q) : Q := 1.

Definition demoSin (x : Q) : Q := 0.

End Game.


Section Properties.

Variable Math_random : nat -> Q.
Variable Math_pow : Q -> Q -> Q.
Variable newAudioContext : option AudioContext.

Lemma Qltb_lt (x y : Q) : Qltb x y = true <-> x < y.
Proof.
  unfold Qltb. rewrite negb_true_iff, <- not_true_iff_false, Qle_bool_iff.
  split; [apply Qnot_le_lt | apply Qlt_not_le].
Qed.

Lemma Qltb_ge (x y : Q) : Qltb x y = false <-> y <= x.
Proof.
  unfold Qltb. rewrite negb_false_iff. apply Qle_bool_iff.
Qed.

(** *** The step advance *)

Lemma nextNote_done (s : State) :
  exists s', nextNote s = Done s'
    /\ nextNoteTime s' = nextNoteTime s + secondsPerSixteenth (tempo s)
    /\ current16thNote s' =
         (if (current16thNote s + 1 =? 16)%Z then 0 else current16thNote s + 1)%Z
    /\ tempo s' = tempo s /\ isPlaying s' = isPlaying s
    /\ intensity s' = intensity s /\ isMuted s' = isMuted s
    /\ ctx s' = ctx s /\ masterGain s' = masterGain s
    /\ reverbNode s' = reverbNode s /\ timerID s' = timerID s
    /\ timeouts s' = timeouts s /\ timeoutSeq s' = timeoutSeq s
    /\ randomPos s' = randomPos s.
Proof.
  unfold nextNote. simpl.
  destruct (current16thNote s + 1 =? 16)%Z; eexists; split;
    try reflexivity; simpl; repeat split; reflexivity.
Qed.

Lemma nextNote_grid (s s' : State) :
  onGrid s -> nextNote s = Done s' ->
  onGrid s' /\ current16thNote s' = ((current16thNote s + 1) mod 16)%Z.
Proof.
  unfold onGrid. intros Hg Hn.
  destruct (nextNote_done s) as (s1 & E & _ & Hc & _).
  rewrite E in Hn. injection Hn as <-. rewrite Hc.
  destruct (Z.eqb_spec (current16thNote s + 1) 16) as [e | ne].
  - rewrite e. split; [lia | reflexivity].
  - rewrite Z.mod_small by lia. split; lia.
Qed.

(** [k] step advances in a row: the time moves by [k] periods, the step
    by [k] modulo 16, nothing else changes. *)
Lemma nextNote_times (k : nat) : forall s : State,
  exists s', times k nextNote s = Done s'
    /\ nextNoteTime s' ==
         nextNoteTime s + inject_Z (Z.of_nat k) * secondsPerSixteenth (tempo s)
    /\ (onGrid s -> onGrid s' /\
          current16thNote s' = ((current16thNote s + Z.of_nat k) mod 16)%Z)
    /\ tempo s' = tempo s /\ isPlaying s' = isPlaying s
    /\ intensity s' = intensity s /\ isMuted s' = isMuted s
    /\ ctx s' = ctx s /\ masterGain s' = masterGain s
    /\ reverbNode s' = reverbNode s /\ timerID s' = timerID s
    /\ timeouts s' = timeouts s /\ timeoutSeq s' = timeoutSeq s
    /\ randomPos s' = randomPos s.
Proof.
  induction k as [| k IH]; intros s.
  - exists s. simpl. split; [reflexivity |]. split; [ring |].
    split; [| repeat split; reflexivity].
    intros Hg. split; [exact Hg |]. unfold onGrid in Hg.
    rewrite Z.add_0_r, Z.mod_small by lia. reflexivity.
  - destruct (nextNote_done s)
      as (s1 & E1 & Ht & Hc & Htempo & Hp & Hi & Hm & Hx & Hg1 & Hr & Htid
          & Hto & Hseq & Hrp).
    destruct (IH s1)
      as (s' & E' & Ht' & Hc' & Htempo' & Hp' & Hi' & Hm' & Hx' & Hg' & Hr'
          & Htid' & Hto' & Hseq' & Hrp').
    exists s'. split.
    { cbn [times]. unfold andThen. rewrite E1. exact E'. }
    split.
    { rewrite Ht', Ht, Htempo. rewrite Nat2Z.inj_succ.
      unfold Z.succ. rewrite inject_Z_plus. ring. }
    split.
    { intros Hg. destruct (nextNote_grid s s1 Hg E1) as [G1 C1].
      destruct (Hc' G1) as [G' C']. split; [exact G' |].
      rewrite C', C1, Nat2Z.inj_succ. unfold Z.succ.
      rewrite Zplus_mod_idemp_l. f_equal. lia. }
    repeat split; congruence.
Qed.

(** *** Sound effects and mute *)

(** C6. Muted, or without an audio context, [playSliceSfx] and
    [playBombSfx] return normally and leave the whole state as it was:
    no voice is scheduled, no draw is taken, nothing is thrown. *)
Theorem sfx_silent (s : State) :
  isMuted s = true \/ ctx s = None ->
  playSliceSfx s = Done s /\ playBombSfx s = Done s
  /\ forall s', playSliceSfx s = Done s' \/ playBombSfx s = Done s' ->
       voices s' = voices s.
Proof.
  intros H. assert (E : playSliceSfx s = Done s /\ playBombSfx s = Done s).
  { unfold playSliceSfx, playBombSfx.
    destruct (ctx s) as [c |]; [| split; reflexivity].
    destruct H as [H | H]; [| discriminate].
    rewrite H. split; reflexivity. }
  destruct E as [E1 E2]. split; [exact E1 |]. split; [exact E2 |].
  intros s' [H' | H']; rewrite ?E1, ?E2 in H'; injection H' as <-; reflexivity.
Qed.

Lemma sfx_silent_witness :
  playSliceSfx initial = Done initial /\ playBombSfx initial = Done initial
  /\ forall s', playSliceSfx initial = Done s' \/ playBombSfx initial = Done s' ->
       voices s' = voices initial.
Proof.
  apply (sfx_silent initial). right. reflexivity.
Defined.

(** What one call of [toggleMute] does, on every state. *)
Lemma toggleMute_cases (s : State) :
  match masterGain s, ctx s with
  | None, _ => toggleMute s = Done (set_isMuted (negb (isMuted s)) s)
  | Some g, Some c =>
      toggleMute s =
      Done (set_masterGain
              (Some (mkGain (gain_value g)
                 (SetTargetAtTime (if negb (isMuted s) then 0 else 0.4)
                                  (currentTime c) 0.1 :: gain_events g)))
              (set_isMuted (negb (isMuted s)) s))
  | Some _, None => toggleMute s = Throw (set_isMuted (negb (isMuted s)) s)
  end.
Proof.
  destruct s as [c m p t n k tid i g r to sq rp].
  destruct g as [g |], c as [c |]; reflexivity.
Qed.

(** C10. [toggleMute] writes the muted flag and the automation of the
    master gain and nothing else: on every state the transport fields
    and the reverb node (with its impulse) are as before, whether the
    call returns or, on a state with a gain node but no context, throws. *)
Theorem toggleMute_frame (s : State) :
  exists s',
    (toggleMute s = Done s'
     \/ (toggleMute s = Throw s' /\ initialised s = false))
    /\ transport s' = transport s
    /\ reverbNode s' = reverbNode s
    /\ isMuted s' = negb (isMuted s)
    /\ ctx s' = ctx s /\ timerID s' = timerID s
    /\ timeouts s' = timeouts s /\ timeoutSeq s' = timeoutSeq s
    /\ randomPos s' = randomPos s.
Proof.
  pose proof (toggleMute_cases s) as H. unfold initialised.
  destruct (masterGain s) as [g |]; [destruct (ctx s) as [c |] eqn:Hc |];
    eexists; (split; [first [left; exact H | right; split; [exact H | reflexivity]] |]);
    simpl; rewrite ?Hc; repeat split; reflexivity.
Qed.

(** C7, as stated, fails on a muted state: after [init()] and one
    [toggleMute()] the mix graph is initialised and the service muted;
    two more calls leave the master gain aiming at 0, not at 0.4. *)
Lemma toggleMute_twice_from_muted :
  (init (constantDraws 0.5) demoPow (Some demoContext) ;; toggleMute) initial
    = Done mutedDemo
  /\ initialised mutedDemo = true
  /\ isMuted mutedDemo = true
  /\ exists s2, (toggleMute ;; toggleMute) mutedDemo = Done s2
       /\ masterTarget s2 = Some 0
       /\ ~ 0 == 0.4.
Proof.
  split; [vm_compute; reflexivity |].
  split; [reflexivity |]. split; [reflexivity |].
  eexists. split; [vm_compute; reflexivity |].
  split; [reflexivity |]. intros H. discriminate H.
Qed.

(** C7, amended. On every state with an initialised mix graph two calls
    of [toggleMute] return, restore the muted flag and leave every other
    field as it was, except that the master gain has two more automation
    events, both [setTargetAtTime] with time constant 0.1 at the current
    time: the first aims at the level of the flipped flag, the second at
    the level of the original one (0.4 when the state was unmuted, 0 when
    it was muted).  The value of the gain itself is never assigned. *)
Theorem toggleMute_twice (s : State) :
  initialised s = true ->
  exists c g s2,
    ctx s = Some c /\ masterGain s = Some g
    /\ (toggleMute ;; toggleMute) s = Done s2
    /\ isMuted s2 = isMuted s
    /\ s2 = set_masterGain
              (Some (mkGain (gain_value g)
                 (SetTargetAtTime (if isMuted s then 0 else 0.4)
                                  (currentTime c) 0.1
                  :: SetTargetAtTime (if isMuted s then 0.4 else 0)
                                     (currentTime c) 0.1
                  :: gain_events g))) s
    /\ masterTarget s2 = Some (if isMuted s then 0 else 0.4)
    /\ (isMuted s = false -> masterTarget s2 = Some 0.4).
Proof.
  destruct s as [c m p t n k tid i g r to sq rp]. unfold initialised. simpl.
  destruct c as [c |]; [| discriminate].
  destruct g as [g |]; [| discriminate]. intros _.
  exists c, g. eexists. split; [reflexivity |]. split; [reflexivity |].
  split; [reflexivity |].
  destruct m; simpl; repeat split; intros; try discriminate; reflexivity.
Qed.

Lemma toggleMute_twice_witness :
  exists c g s2,
    ctx mutedDemo = Some c /\ masterGain mutedDemo = Some g
    /\ (toggleMute ;; toggleMute) mutedDemo = Done s2
    /\ isMuted s2 = isMuted mutedDemo
    /\ s2 = set_masterGain
              (Some (mkGain (gain_value g)
                 (SetTargetAtTime (if isMuted mutedDemo then 0 else 0.4)
                                  (currentTime c) 0.1
                  :: SetTargetAtTime (if isMuted mutedDemo then 0.4 else 0)
                                     (currentTime c) 0.1
                  :: gain_events g))) mutedDemo
    /\ masterTarget s2 = Some (if isMuted mutedDemo then 0 else 0.4)
    /\ (isMuted mutedDemo = false -> masterTarget s2 = Some 0.4).
Proof.
  apply (toggleMute_twice mutedDemo). reflexivity.
Defined.

(** *** Procedures that only schedule voices *)

Lemma emitted_initialised new pos s :
  initialised (emitted new pos s) = initialised s.
Proof.
  destruct s as [c m p t n k tid i g r to sq rp].
  destruct c as [c |]; reflexivity.
Qed.

Lemma emitted_emitted new1 pos1 new2 pos2 s :
  emitted new2 pos2 (emitted new1 pos1 s) = emitted (new2 ++ new1) pos2 s.
Proof.
  destruct s as [c m p t n k tid i g r to sq rp].
  destruct c as [c |]; [| reflexivity].
  unfold emitted. simpl. rewrite app_assoc. reflexivity.
Qed.

Lemma emitted_randomPos new pos s :
  initialised s = true -> randomPos (emitted new pos s) = pos.
Proof.
  destruct s as [c m p t n k tid i g r to sq rp].
  destruct c as [c |]; [reflexivity | discriminate].
Qed.

Lemma emitted_voices new pos s :
  initialised s = true -> voices (emitted new pos s) = new ++ voices s.
Proof.
  destruct s as [c m p t n k tid i g r to sq rp].
  destruct c as [c |]; [reflexivity | discriminate].
Qed.

(** What [emitted] keeps. *)
Lemma emitted_frame new pos s :
  isMuted (emitted new pos s) = isMuted s
  /\ transport (emitted new pos s) = transport s
  /\ masterGain (emitted new pos s) = masterGain s
  /\ reverbNode (emitted new pos s) = reverbNode s
  /\ timerID (emitted new pos s) = timerID s
  /\ timeouts (emitted new pos s) = timeouts s
  /\ timeoutSeq (emitted new pos s) = timeoutSeq s
  /\ option_map currentTime (ctx (emitted new pos s))
       = option_map currentTime (ctx s)
  /\ option_map sampleRate (ctx (emitted new pos s))
       = option_map sampleRate (ctx s).
Proof.
  destruct s as [c m p t n k tid i g r to sq rp].
  destruct c as [c |]; repeat split; reflexivity.
Qed.

Lemma emitted_intensity new pos s :
  intensity (emitted new pos s) = intensity s.
Proof.
  destruct s as [c m p t n k tid i g r to sq rp].
  destruct c as [c |]; reflexivity.
Qed.

Lemma emitted_set_randomPos new pos q s :
  initialised s = true ->
  emitted new pos (set_randomPos q s) = emitted new pos s.
Proof.
  destruct s as [c m p t n k tid i g r to sq rp].
  destruct c as [c |]; [reflexivity | discriminate].
Qed.

Lemma emits_skip i : emits i skip (fun l => l = []).
Proof.
  intros s Hs _. exists [], (randomPos s).
  split; [| split; [reflexivity | lia]].
  destruct s as [c m p t n k tid i' g r to sq rp].
  destruct c as [[ct sr st gr] |]; [reflexivity | discriminate].
Qed.

Lemma emits_weaken i p (L R : list Voice -> Prop) :
  (forall l, L l -> R l) -> emits i p L -> emits i p R.
Proof.
  intros HLR Hp s Hs Hi. destruct (Hp s Hs Hi) as (new & pos & E & F & Le).
  exists new, pos. split; [exact E |]. split; [apply HLR; exact F | exact Le].
Qed.

Lemma emits_seq i p q (L1 L2 : list Voice -> Prop) :
  emits i p L1 -> emits i q L2 ->
  emits i (p ;; q) (fun l => exists l2 l1, l = l2 ++ l1 /\ L1 l1 /\ L2 l2).
Proof.
  intros Hp Hq s Hs Hi. destruct (Hp s Hs Hi) as (n1 & p1 & E1 & F1 & Le1).
  assert (Hs1 : initialised (emitted n1 p1 s) = true)
    by (rewrite emitted_initialised; exact Hs).
  assert (Hi1 : intensity (emitted n1 p1 s) = i)
    by (rewrite emitted_intensity; exact Hi).
  destruct (Hq _ Hs1 Hi1) as (n2 & p2 & E2 & F2 & Le2).
  exists (n2 ++ n1), p2. unfold andThen. rewrite E1, E2, emitted_emitted.
  split; [reflexivity |]. split; [exists n2, n1; auto |].
  rewrite (emitted_randomPos n1 p1 s Hs) in Le2. lia.
Qed.

Lemma emits_when i (b : bool) p L :
  emits i p L -> emits i (when b p) (ifFires b L).
Proof.
  intros Hp. destruct b; [exact Hp | apply emits_skip].
Qed.

Lemma emits_ifHigh i p q (L1 L2 : list Voice -> Prop) :
  emits i p L1 -> emits i q L2 ->
  emits i (ifHigh p q) (if isHigh i then L1 else L2).
Proof.
  intros Hp Hq s Hs Hi. unfold ifHigh. rewrite Hi.
  destruct (isHigh i); [apply Hp | apply Hq]; assumption.
Qed.

Ltac ready_state s Hs :=
  destruct s as [c m p t n k tid ity g r to sq rp];
  unfold initialised in Hs; simpl in Hs;
  destruct c as [[ct sr st gr] |]; [| discriminate Hs];
  destruct g as [g |]; [| discriminate Hs];
  destruct r as [r |]; [| discriminate Hs].

Lemma emits_playKick i time :
  emits i (playKick time) (fun l => l = [kickVoice time]).
Proof.
  intros s Hs _. ready_state s Hs.
  exists [kickVoice time], rp. split; [reflexivity |].
  split; [reflexivity | simpl; lia].
Qed.

Lemma emits_playSnare i time :
  emits i (playSnare time) (fun l => exists noise, l = [snareVoice time noise]).
Proof.
  intros s Hs _. ready_state s Hs.
  eexists [snareVoice time _], _. split; [reflexivity |].
  split; [eexists; reflexivity | simpl; lia].
Qed.

Lemma emits_playHiHat i time duration :
  emits i (playHiHat time duration)
        (fun l => exists noise, l = [hiHatVoice time duration noise]).
Proof.
  intros s Hs _. ready_state s Hs.
  eexists [hiHatVoice time duration _], _. split; [reflexivity |].
  split; [eexists; reflexivity | simpl; lia].
Qed.

Lemma emits_playBass i time freq duration :
  emits i (playBass time (Some freq) duration)
        (fun l => l = [bassVoice time freq duration]).
Proof.
  intros s Hs _. ready_state s Hs.
  exists [bassVoice time freq duration], rp. split; [reflexivity |].
  split; [reflexivity | simpl; lia].
Qed.

Lemma emits_playSynth i time freq duration :
  emits i (playSynth time (Some freq) duration)
        (fun l => l = [synthVoice time freq duration]).
Proof.
  intros s Hs _. ready_state s Hs.
  exists [synthVoice time freq duration], rp. split; [reflexivity |].
  split; [reflexivity | simpl; lia].
Qed.

(** *** Random notes *)

Lemma draw_index (r : Q) (n : Z) :
  unitDraw r -> (0 < n)%Z -> (0 <= Qfloor (r * inject_Z n) < n)%Z.
Proof.
  intros [H0 H1] Hn.
  assert (Hq : 0 < inject_Z n) by (rewrite Zlt_Qlt in Hn; exact Hn).
  split.
  - change 0%Z with (Qfloor 0). apply Qfloor_resp_le.
    apply Qmult_le_0_compat; [exact H0 | apply Qlt_le_weak; exact Hq].
  - rewrite Zlt_Qlt. apply Qle_lt_trans with (r * inject_Z n).
    + apply Qfloor_le.
    + rewrite <- (Qmult_1_l (inject_Z n)) at 2.
      apply Qmult_lt_compat_r; assumption.
Qed.

Lemma scaleAt_some (idx : Z) :
  (0 <= idx < 6)%Z -> exists f, scaleAt idx = Some f /\ In f scale.
Proof.
  intros H.
  assert (C : (idx = 0 \/ idx = 1 \/ idx = 2 \/ idx = 3 \/ idx = 4 \/ idx = 5)%Z)
    by lia.
  destruct C as [-> | [-> | [-> | [-> | [-> | ->]]]]];
    eexists; (split; [reflexivity | simpl; tauto]).
Qed.

Lemma emits_if i (b : bool) p q (L1 L2 : list Voice -> Prop) :
  emits i p L1 -> emits i q L2 ->
  emits i (if b then p else q) (fun l => if b then L1 l else L2 l).
Proof.
  intros Hp Hq. destruct b; assumption.
Qed.

(** The arpeggio of high intensity: a note among the first four. *)
Lemma emits_arp_high i time :
  fairDraws Math_random ->
  emits i (fun s => let '(noteIdx, s1) := randomIndex Math_random 4 s in
                    playSynth time (scaleAt noteIdx) 0.1 s1)
        (fun l => exists f, drawnNote Math_random 4 f
                            /\ l = [synthVoice time f 0.1]).
Proof.
  intros Hfair s Hs Hi. unfold randomIndex.
  pose proof (draw_index _ 4 (Hfair (randomPos s)) eq_refl) as Hidx.
  destruct (scaleAt_some (Qfloor (Math_random (randomPos s) * 4)))
    as (f & Hf & _); [change (inject_Z 4) with 4 in Hidx; lia |].
  rewrite Hf.
  assert (Hs1 : initialised (set_randomPos (S (randomPos s)) s) = true)
    by (destruct s; exact Hs).
  destruct (emits_playSynth i time f 0.1 _ Hs1)
    as (new & pos & E & -> & Le); [destruct s; exact Hi |].
  rewrite emitted_set_randomPos in E by exact Hs.
  eexists _, pos. split; [exact E |]. split.
  - exists f. split; [| reflexivity].
    exists (randomPos s), (Qfloor (Math_random (randomPos s) * 4)).
    split; [reflexivity |]. split; [exact Hidx | exact Hf].
  - destruct s; simpl in *; lia.
Qed.

(** The melody of low intensity: a note of the whole scale, doubled. *)
Lemma emits_arp_low i time :
  fairDraws Math_random ->
  emits i (fun s =>
             let '(noteIdx, s1) :=
               randomIndex Math_random (inject_Z (Z.of_nat (length scale))) s in
             playSynth time (option_map (fun n => n * 2) (scaleAt noteIdx))
               0.5 s1)
        (fun l => exists f, drawnNote Math_random 6 f
                            /\ l = [synthVoice time (f * 2) 0.5]).
Proof.
  intros Hfair s Hs Hi. unfold randomIndex.
  change (inject_Z (Z.of_nat (length scale))) with (inject_Z 6).
  pose proof (draw_index _ 6 (Hfair (randomPos s)) eq_refl) as Hidx.
  destruct (scaleAt_some (Qfloor (Math_random (randomPos s) * inject_Z 6)))
    as (f & Hf & _); [exact Hidx |].
  rewrite Hf. cbn [option_map].
  assert (Hs1 : initialised (set_randomPos (S (randomPos s)) s) = true)
    by (destruct s; exact Hs).
  destruct (emits_playSynth i time (f * 2) 0.5 _ Hs1)
    as (new & pos & E & -> & Le); [destruct s; exact Hi |].
  rewrite emitted_set_randomPos in E by exact Hs.
  eexists _, pos. split; [exact E |]. split.
  - exists f. split; [| reflexivity].
    exists (randomPos s), (Qfloor (Math_random (randomPos s) * inject_Z 6)).
    split; [reflexivity |]. split; [exact Hidx | exact Hf].
  - destruct s; simpl in *; lia.
Qed.

(** The driving bass of high intensity: C below step 8, E flat from it. *)
Lemma emits_bass_high i (b : Z) time :
  emits i (let note := if (b <? 8)%Z then scaleAt 0 else scaleAt 1 in
           playBass time (option_map (fun n => n / 2) note) 0.2)
        (fun l => l = [bassVoice time
                         ((if (b <? 8)%Z then 130.81 else 155.56) / 2) 0.2]).
Proof.
  destruct (b <? 8)%Z; apply emits_playBass.
Qed.

(** *** The pattern of one step *)

(** What [scheduleNote] schedules on an unmuted, initialised service,
    block by block in the order of the source (the list in the graph is
    most recent first). *)
Lemma scheduleNote_parts (b : Z) (time : Q) (s : State) :
  fairDraws Math_random -> initialised s = true -> isMuted s = false ->
  exists kick snare hat bass arp pos,
    scheduleNote Math_random b time s
      = Done (emitted (arp ++ bass ++ hat ++ snare ++ kick) pos s)
    /\ (randomPos s <= pos)%nat
    /\ (if isHigh (intensity s)
        then ifFires (jsmod b 4 =? 0)%Z (fun l => l = [kickVoice time]) kick
        else ifFires ((b =? 0) || (b =? 10))%Z
               (fun l => l = [kickVoice time]) kick)
    /\ ifFires (jsmod b 8 =? 4)%Z
         (fun l => exists noise, l = [snareVoice time noise]) snare
    /\ (if (jsmod b 2 =? 0)%Z
        then exists noise, hat = [hiHatVoice time 0.05 noise]
        else if isHigh (intensity s)
             then exists noise, hat = [hiHatVoice time 0.03 noise]
             else hat = [])
    /\ (if isHigh (intensity s)
        then ifFires (jsmod b 2 =? 0)%Z
               (fun l => l = [bassVoice time
                    ((if (b <? 8)%Z then 130.81 else 155.56) / 2) 0.2]) bass
        else ifFires (b =? 0)%Z
               (fun l => l = [bassVoice time (130.81 / 2) 2]) bass)
    /\ (if isHigh (intensity s)
        then ifFires (existsb (Z.eqb b) [0; 3; 6; 9; 12; 14]%Z)
               (fun l => exists f, drawnNote Math_random 4 f
                                   /\ l = [synthVoice time f 0.1]) arp
        else ifFires ((b =? 0) || (b =? 6) || (b =? 12))%Z
               (fun l => exists f, drawnNote Math_random 6 f
                                   /\ l = [synthVoice time (f * 2) 0.5]) arp).
Proof.
  intros Hfair Hs Hm. unfold scheduleNote. rewrite Hm.
  set (i := intensity s).
  pose proof (emits_ifHigh i _ _ _ _
    (emits_when i (jsmod b 4 =? 0)%Z _ _ (emits_playKick i time))
    (emits_when i ((b =? 0) || (b =? 10))%Z _ _ (emits_playKick i time)))
    as HK.
  pose proof (emits_when i (jsmod b 8 =? 4)%Z _ _ (emits_playSnare i time))
    as HS.
  pose proof (emits_if i (jsmod b 2 =? 0)%Z _ _ _ _
    (emits_playHiHat i time 0.05)
    (emits_ifHigh i _ _ _ _ (emits_playHiHat i time 0.03) (emits_skip i)))
    as HH.
  pose proof (emits_ifHigh i _ _ _ _
    (emits_when i (jsmod b 2 =? 0)%Z _ _ (emits_bass_high i b time))
    (emits_when i (b =? 0)%Z _ _ (emits_playBass i time (130.81 / 2) 2)))
    as HB.
  pose proof (emits_ifHigh i _ _ _ _
    (emits_when i (existsb (Z.eqb b) [0; 3; 6; 9; 12; 14]%Z) _ _
       (emits_arp_high i time Hfair))
    (emits_when i ((b =? 0) || (b =? 6) || (b =? 12))%Z _ _
       (emits_arp_low i time Hfair)))
    as HA.
  pose proof (emits_seq i _ _ _ _ HK
               (emits_seq i _ _ _ _ HS
                 (emits_seq i _ _ _ _ HH
                   (emits_seq i _ _ _ _ HB HA)))) as E.
  destruct (E s Hs eq_refl)
    as (new & pos & Eq & (l1 & kick & -> & Lk & l2 & snare & -> & Lsn
                          & l3 & hat & -> & Lh & arp & bass & -> & Lb & La)
        & Le).
  exists kick, snare, hat, bass, arp, pos.
  split.
  { rewrite <- !app_assoc in Eq. exact Eq. }
  split; [exact Le |].
  destruct (isHigh i);
    (split; [exact Lk |]; split; [exact Lsn |];
     split; [destruct (jsmod b 2 =? 0)%Z; exact Lh |];
     split; [exact Lb | exact La]).
Qed.

Ltac split_parts :=
  repeat match goal with
    | H : ifFires ?b _ _ |- _ => unfold ifFires in H
    | H : (if ?b then _ else _) |- _ => destruct b eqn:?
    | H : exists _, _ |- _ => destruct H
    | H : _ /\ _ |- _ => destruct H
    end; subst.

(** C4. With mute off, a step of the 16-step cycle schedules at most one
    Kick voice; under high intensity it schedules one exactly when
    [step % 4 == 0], that is at steps 0, 4, 8 and 12, and under low
    intensity exactly at steps 0 and 10. *)
Theorem kick_pattern (step : Z) (time : Q) (s : State) :
  fairDraws Math_random -> initialised s = true -> isMuted s = false ->
  (0 <= step <= 15)%Z ->
  exists s' new,
    scheduleNote Math_random step time s = Done s'
    /\ voices s' = new ++ voices s
    /\ (filter (playedBy Kick) new = [kickVoice time]
        \/ filter (playedBy Kick) new = [])
    /\ (filter (playedBy Kick) new = [kickVoice time] <->
        match intensity s with
        | high => (step mod 4 = 0)%Z
        | low => (step = 0 \/ step = 10)%Z
        end)
    /\ ((step mod 4 = 0)%Z <-> In step [0; 4; 8; 12]%Z).
Proof.
  clear Math_pow newAudioContext.
  intros Hfair Hs Hm Hstep.
  destruct (scheduleNote_parts step time s Hfair Hs Hm)
    as (kick & snare & hat & bass & arp & pos & E & Le & Lk & Lsn & Lh & Lb
        & La).
  exists (emitted (arp ++ bass ++ hat ++ snare ++ kick) pos s),
    (arp ++ bass ++ hat ++ snare ++ kick).
  split; [exact E |]. split; [apply emitted_voices; exact Hs |].
  assert (Hrem : jsmod step 4 = (step mod 4)%Z)
    by (unfold jsmod; apply Z.rem_mod_nonneg; lia).
  rewrite Hrem in Lk.
  assert (Hothers : filter (playedBy Kick) (arp ++ bass ++ hat ++ snare ++ kick)
                    = filter (playedBy Kick) kick).
  { rewrite !filter_app. clear Lk. destruct (intensity s); simpl in *;
      split_parts; reflexivity. }
  rewrite Hothers. clear Hothers Lsn Lh Lb La E.
  split; [| split].
  - destruct (intensity s); simpl in Lk; split_parts; simpl; auto.
  - destruct (intensity s); simpl in Lk; split_parts; simpl;
      rewrite ?Z.eqb_eq, ?Z.eqb_neq, ?orb_true_iff, ?orb_false_iff in *;
      rewrite ?Z.eqb_eq, ?Z.eqb_neq in *;
      (split; intros K; [try tauto; try discriminate K | try reflexivity]);
      try lia; try tauto.
  - simpl. split; intros K;
      [| destruct K as [K | [K | [K | [K | []]]]]; subst; reflexivity].
    assert (C : (step = 0 \/ step = 4 \/ step = 8 \/ step = 12)%Z)
      by (Z.div_mod_to_equations; lia).
    lia.
Qed.

Lemma drawnNote_in (rand : nat -> Q) (n : Z) (f : Q) :
  (0 <= n <= 6)%Z -> drawnNote rand n f -> In f (firstn (Z.to_nat n) scale).
Proof.
  clear Math_random Math_pow newAudioContext.
  intros Hn (pos & idx & _ & Hidx & Hf).
  assert (C : (idx = 0 \/ idx = 1 \/ idx = 2 \/ idx = 3 \/ idx = 4 \/ idx = 5)%Z)
    by lia.
  assert (N : (n = 0 \/ n = 1 \/ n = 2 \/ n = 3 \/ n = 4 \/ n = 5 \/ n = 6)%Z)
    by lia.
  destruct N as [-> | [-> | [-> | [-> | [-> | [-> | ->]]]]]];
    destruct C as [-> | [-> | [-> | [-> | [-> | ->]]]]]; try lia;
    injection Hf as <-; simpl; tauto.
Qed.

(** The index [Math.floor(Math.random() * n)] is [k] exactly when the
    draw falls in the [k]-th of [n] intervals of equal length. *)
Lemma randomIndex_interval (n k : Z) (s : State) :
  (0 < n)%Z ->
  fst (randomIndex Math_random (inject_Z n) s) = k <->
  inject_Z k / inject_Z n <= Math_random (randomPos s)
  /\ Math_random (randomPos s) < inject_Z (k + 1) / inject_Z n.
Proof.
  intros Hn. unfold randomIndex. cbn [fst].
  set (r := Math_random (randomPos s)).
  assert (Hq : 0 < inject_Z n) by (rewrite Zlt_Qlt in Hn; exact Hn).
  split.
  - intros <-. split.
    + apply Qle_shift_div_r; [exact Hq | apply Qfloor_le].
    + apply Qlt_shift_div_l; [exact Hq | apply Qlt_floor].
  - intros [Hlo Hhi].
    assert (Hn0 : ~ inject_Z n == 0)
      by (intros Z0; rewrite Z0 in Hq; discriminate Hq).
    assert (Hlo' : inject_Z k <= r * inject_Z n).
    { setoid_replace (inject_Z k) with (inject_Z k / inject_Z n * inject_Z n)
        by (field; exact Hn0).
      apply Qmult_le_compat_r; [exact Hlo | apply Qlt_le_weak; exact Hq]. }
    assert (Hhi' : r * inject_Z n < inject_Z (k + 1)).
    { setoid_replace (inject_Z (k + 1))
        with (inject_Z (k + 1) / inject_Z n * inject_Z n)
        by (field; exact Hn0).
      apply Qmult_lt_compat_r; [exact Hq | exact Hhi]. }
    pose proof (Qfloor_le (r * inject_Z n)) as F1.
    pose proof (Qlt_floor (r * inject_Z n)) as F2.
    assert (A : (Qfloor (r * inject_Z n) < k + 1)%Z).
    { rewrite Zlt_Qlt. eapply Qle_lt_trans; [exact F1 | exact Hhi']. }
    assert (B : (k < Qfloor (r * inject_Z n) + 1)%Z).
    { rewrite Zlt_Qlt. eapply Qle_lt_trans; [exact Hlo' | exact F2]. }
    lia.
Qed.

(** C5, as stated, fails: under high intensity the arpeggio reaches the
    fourth note of the scale, which is not in its lower half.  With
    every draw equal to 0.8, step 0 schedules a synth voice at
    [scale[3]] = 196.00 Hz. *)
Lemma arp_high_reaches_fourth_note :
  fairDraws (constantDraws 0.8)
  /\ In 0%Z [0; 3; 6; 9; 12; 14]%Z
  /\ initialised (demoState high) = true
  /\ isMuted (demoState high) = false
  /\ (exists s',
        scheduleNote (constantDraws 0.8) 0 0.1 (demoState high) = Done s'
        /\ hd_error (voices s') = Some (synthVoice 0.1 196.00 0.1))
  /\ scaleAt 3 = Some 196.00
  /\ Forall (fun f => ~ f == 196.00) (firstn (length scale / 2) scale).
Proof.
  split.
  { intros n. split; [discriminate | reflexivity]. }
  split; [simpl; tauto |].
  split; [reflexivity |]. split; [reflexivity |].
  split.
  { eexists. split; vm_compute; reflexivity. }
  split; [reflexivity |].
  repeat constructor; intros H; discriminate H.
Qed.

(** C5, amended. With mute off, under high intensity the steps 0, 3, 6,
    9, 12 and 14 (and no other) schedule one synth voice; its pitch is
    [scale[floor(draw * 4)]], one of the first four of the six notes, and
    its duration 0.1 s.  Under low intensity the steps 0, 6 and 12 (and
    no other) schedule one synth voice; its pitch is twice
    [scale[floor(draw * 6)]], any note of the scale, and its duration
    0.5 s.  In both cases the index is [k] exactly for the draws of the
    [k]-th of the equal intervals of [0, 1), so a uniform draw gives a
    uniform note. *)
Theorem arp_notes (step : Z) (time : Q) (s : State) :
  fairDraws Math_random -> initialised s = true -> isMuted s = false ->
  exists s' new,
    scheduleNote Math_random step time s = Done s'
    /\ voices s' = new ++ voices s
    /\ match intensity s with
       | high =>
           (In step [0; 3; 6; 9; 12; 14]%Z
            /\ exists f, drawnNote Math_random 4 f
                 /\ In f (firstn 4 scale)
                 /\ filter (playedBy Synth) new = [synthVoice time f 0.1])
           \/ (~ In step [0; 3; 6; 9; 12; 14]%Z
               /\ filter (playedBy Synth) new = [])
       | low =>
           (In step [0; 6; 12]%Z
            /\ exists f, drawnNote Math_random 6 f
                 /\ In f scale
                 /\ filter (playedBy Synth) new = [synthVoice time (f * 2) 0.5])
           \/ (~ In step [0; 6; 12]%Z
               /\ filter (playedBy Synth) new = [])
       end
    /\ (forall (n k : Z) (u : State), (0 < n)%Z ->
          fst (randomIndex Math_random (inject_Z n) u) = k <->
          inject_Z k / inject_Z n <= Math_random (randomPos u)
          /\ Math_random (randomPos u) < inject_Z (k + 1) / inject_Z n).
Proof.
  clear Math_pow newAudioContext.
  intros Hfair Hs Hm.
  destruct (scheduleNote_parts step time s Hfair Hs Hm)
    as (kick & snare & hat & bass & arp & pos & E & Le & Lk & Lsn & Lh & Lb
        & La).
  exists (emitted (arp ++ bass ++ hat ++ snare ++ kick) pos s),
    (arp ++ bass ++ hat ++ snare ++ kick).
  split; [exact E |]. split; [apply emitted_voices; exact Hs |].
  split; [| intros n k u; apply randomIndex_interval].
  assert (Hothers :
            filter (playedBy Synth) (arp ++ bass ++ hat ++ snare ++ kick)
            = filter (playedBy Synth) arp).
  { rewrite !filter_app.
    assert (T : filter (playedBy Synth) bass = []
                /\ filter (playedBy Synth) hat = []
                /\ filter (playedBy Synth) snare = []
                /\ filter (playedBy Synth) kick = []).
    { clear La. destruct (intensity s); simpl in *; split_parts;
        repeat split; reflexivity. }
    destruct T as (-> & -> & -> & ->). rewrite !app_nil_r. reflexivity. }
  rewrite Hothers. clear Hothers Lk Lsn Lh Lb E.
  destruct (intensity s); simpl isHigh in La; cbv iota in La;
    unfold ifFires in La.
  - destruct ((step =? 0) || (step =? 6) || (step =? 12))%Z eqn:C.
    + destruct La as (f & Hd & ->). left. split.
      * rewrite !orb_true_iff, !Z.eqb_eq in C. simpl. lia.
      * exists f. split; [exact Hd |]. split; [| reflexivity].
        apply (drawnNote_in Math_random 6 f); [lia | exact Hd].
    + subst arp. right. split; [| reflexivity].
      rewrite !orb_false_iff, !Z.eqb_neq in C. simpl. lia.
  - destruct (existsb (Z.eqb step) [0; 3; 6; 9; 12; 14]%Z) eqn:C.
    + destruct La as (f & Hd & ->). left. split.
      * apply existsb_exists in C. destruct C as (x & Hin & Hx).
        apply Z.eqb_eq in Hx. subst x. exact Hin.
      * exists f. split; [exact Hd |]. split; [| reflexivity].
        apply (drawnNote_in Math_random 4 f); [lia | exact Hd].
    + subst arp. right. split; [| reflexivity].
      intros Hin. apply Bool.not_true_iff_false in C. apply C.
      apply existsb_exists. exists step. split; [exact Hin | apply Z.eqb_refl].
Qed.

(** *** One tick of the scheduler *)

Lemma emitted_nil (s : State) :
  initialised s = true -> emitted [] (randomPos s) s = s.
Proof.
  destruct s as [c m p t n k tid i g r to sq rp].
  destruct c as [[ct sr st gr] |]; [reflexivity | discriminate].
Qed.

Lemma scheduleNote_emits (b : Z) (time : Q) (s : State) :
  initialised s = true -> isMuted s = true \/ fairDraws Math_random ->
  exists new pos,
    scheduleNote Math_random b time s = Done (emitted new pos s)
    /\ Forall (fun v => v_start v = time) new
    /\ (isMuted s = true -> new = [] /\ pos = randomPos s)
    /\ (randomPos s <= pos)%nat.
Proof.
  intros Hs Hor. destruct (isMuted s) eqn:Hm.
  - exists [], (randomPos s). unfold scheduleNote. rewrite Hm, emitted_nil by exact Hs.
    repeat split; auto.
  - destruct Hor as [Hor | Hfair]; [discriminate |].
    destruct (scheduleNote_parts b time s Hfair Hs Hm)
      as (kick & snare & hat & bass & arp & pos & E & Le & Lk & Lsn & Lh & Lb
          & La).
    exists (arp ++ bass ++ hat ++ snare ++ kick), pos.
    split; [exact E |]. split; [| split; [discriminate | exact Le]].
    clear E. rewrite !Forall_app.
    destruct (intensity s); simpl in *; split_parts;
      repeat split; repeat constructor.
Qed.

Lemma nextNote_advance (s : State) : nextNote s = Done (advance s).
Proof.
  unfold advance. destruct (nextNote_done s) as (s1 & E & _).
  rewrite E. reflexivity.
Qed.

Lemma advance_emitted new pos s :
  advance (emitted new pos s) = emitted new pos (advance s).
Proof.
  destruct s as [c m p t n k tid i g r to sq rp].
  destruct c as [[ct sr st gr] |]; unfold advance, nextNote, emitted; simpl;
    destruct (k + 1 =? 16)%Z; reflexivity.
Qed.

Lemma advance_fields (s : State) :
  nextNoteTime (advance s) = nextNoteTime s + secondsPerSixteenth (tempo s)
  /\ tempo (advance s) = tempo s
  /\ initialised (advance s) = initialised s
  /\ isMuted (advance s) = isMuted s
  /\ ctx (advance s) = ctx s
  /\ randomPos (advance s) = randomPos s.
Proof.
  unfold advance.
  destruct (nextNote_done s)
    as (s1 & E & Ht & _ & Htempo & _ & _ & Hm & Hx & Hg & Hr & _ & _ & _ & Hrp).
  rewrite E. simpl. unfold initialised. rewrite Hx, Hg, Hr.
  repeat split; assumption.
Qed.

Lemma times_nextNote (k : nat) : forall s : State,
  times k nextNote s = Done (Nat.iter k advance s).
Proof.
  induction k as [| k IH]; intros s; [reflexivity |].
  cbn [times]. unfold andThen. rewrite nextNote_advance, IH.
  rewrite Nat.iter_succ_r. reflexivity.
Qed.

Lemma iter_advance_emitted (k : nat) new pos : forall s : State,
  Nat.iter k advance (emitted new pos s) = emitted new pos (Nat.iter k advance s).
Proof.
  induction k as [| k IH]; intros s; [reflexivity |].
  simpl. rewrite IH, advance_emitted. reflexivity.
Qed.

Lemma secondsPerSixteenth_pos (bpm : Q) : 0 < bpm -> 0 < secondsPerSixteenth bpm.
Proof.
  intros H. unfold secondsPerSixteenth.
  apply Qmult_lt_0_compat; [reflexivity |].
  apply Qlt_shift_div_l; [exact H |]. reflexivity.
Qed.

Lemma StronglySorted_app {A} (R : A -> A -> Prop) (l1 l2 : list A) :
  StronglySorted R l1 -> StronglySorted R l2 ->
  (forall a b, In a l1 -> In b l2 -> R a b) ->
  StronglySorted R (l1 ++ l2).
Proof.
  induction l1 as [| x l1 IH]; intros S1 S2 H; [exact S2 |].
  simpl. inversion S1 as [| ? ? S1' F1]; subst. constructor.
  - apply IH; [exact S1' | exact S2 |].
    intros a b Ha Hb. apply H; [right; exact Ha | exact Hb].
  - apply Forall_app. split; [exact F1 |].
    apply Forall_forall. intros b Hb. apply H; [left; reflexivity | exact Hb].
Qed.

Lemma StronglySorted_constant (t : Q) (l : list Q) :
  Forall (fun x => x = t) l -> StronglySorted Qle l.
Proof.
  induction l as [| x l IH]; intros F; [constructor |].
  inversion F as [| ? ? Hx F']; subst. constructor; [apply IH; exact F' |].
  eapply Forall_impl; [| exact F']. intros a ->. apply Qle_refl.
Qed.

Lemma emitted_ctx new pos s c :
  ctx s = Some c ->
  exists c', ctx (emitted new pos s) = Some c'
             /\ currentTime c' = currentTime c.
Proof.
  intros H. unfold emitted. rewrite H. simpl. eexists. split; reflexivity.
Qed.

(** The [while] loop of a tick.  The number [k] of grid steps it covers
    depends on the transport and the clock alone; on every initialised
    state with that transport the loop returns (given enough fuel) after
    [k] step advances, and the voices it scheduled are in time order,
    from [next] on and before the look-ahead limit. *)
Lemma schedulerLoop_runs (n : nat) : forall next bpm limit : Q,
  0 < bpm ->
  limit - next <= inject_Z (Z.of_nat n) * secondsPerSixteenth bpm ->
  exists k : nat,
    (k <= n)%nat
    /\ limit <= next + inject_Z (Z.of_nat k) * secondsPerSixteenth bpm
    /\ (next < limit -> (0 < k)%nat)
    /\ forall (s : State) (c : AudioContext) (fuel : nat),
         initialised s = true -> ctx s = Some c ->
         currentTime c + scheduleAheadTime = limit ->
         nextNoteTime s = next -> tempo s = bpm ->
         isMuted s = true \/ fairDraws Math_random ->
         (n < fuel)%nat ->
         exists new pos,
           schedulerLoop Math_random fuel s
             = Done (emitted new pos (Nat.iter k advance s))
           /\ Forall (fun v => next <= v_start v /\ v_start v < limit) new
           /\ StronglySorted Qle (startTimes new)
           /\ (isMuted s = true -> new = [] /\ pos = randomPos s)
           /\ (randomPos s <= pos)%nat.
Proof.
  assert (Stop : forall next bpm limit : Q, limit <= next ->
    forall (s : State) (c : AudioContext) (fuel : nat),
      initialised s = true -> ctx s = Some c ->
      currentTime c + scheduleAheadTime = limit ->
      nextNoteTime s = next -> (0 < fuel)%nat ->
      exists new pos,
        schedulerLoop Math_random fuel s
          = Done (emitted new pos (Nat.iter 0 advance s))
        /\ Forall (fun v => next <= v_start v /\ v_start v < limit) new
        /\ StronglySorted Qle (startTimes new)
        /\ (isMuted s = true -> new = [] /\ pos = randomPos s)
        /\ (randomPos s <= pos)%nat).
  { intros next bpm limit Hle s c fuel Hs Hc Hlim Hnext Hfuel.
    destruct fuel as [| fuel]; [lia |].
    exists [], (randomPos s). cbn [schedulerLoop Nat.iter nat_rect].
    rewrite Hc, Hlim, Hnext.
    assert (Q0 : Qltb next limit = false) by (apply Qltb_ge; exact Hle).
    rewrite Q0, emitted_nil by exact Hs.
    repeat split; auto; constructor. }
  induction n as [| n IH]; intros next bpm limit Hbpm Hbound.
  - assert (Hle : limit <= next).
    { change (inject_Z (Z.of_nat 0)) with 0 in Hbound.
      rewrite Qmult_0_l in Hbound. lra. }
    exists 0%nat. split; [lia |]. split; [change (inject_Z (Z.of_nat 0)) with 0; lra |].
    split; [intros Hlt; lra |].
    intros s c fuel Hs Hc Hlim Hnext _ _ Hfuel.
    apply (Stop next bpm limit Hle s c fuel Hs Hc Hlim Hnext). lia.
  - pose proof (secondsPerSixteenth_pos bpm Hbpm) as Hinc.
    destruct (Qlt_le_dec next limit) as [Hlt | Hle].
    2:{ exists 0%nat. split; [lia |]. split; [change (inject_Z (Z.of_nat 0)) with 0; lra |].
        split; [intros Hlt; lra |].
        intros s c fuel Hs Hc Hlim Hnext _ _ Hfuel.
        apply (Stop next bpm limit Hle s c fuel Hs Hc Hlim Hnext). lia. }
    assert (Hbound' : limit - (next + secondsPerSixteenth bpm)
                      <= inject_Z (Z.of_nat n) * secondsPerSixteenth bpm).
    { rewrite Nat2Z.inj_succ in Hbound. unfold Z.succ in Hbound.
      rewrite inject_Z_plus in Hbound. change (inject_Z 1) with 1 in Hbound.
      lra. }
    destruct (IH (next + secondsPerSixteenth bpm) bpm limit Hbpm Hbound')
      as (k & Hk & Hreach & _ & Hrun).
    exists (S k). split; [lia |]. split.
    { rewrite Nat2Z.inj_succ. unfold Z.succ. rewrite inject_Z_plus.
      change (inject_Z 1) with 1. lra. }
    split; [intros _; lia |].
    intros s c fuel Hs Hc Hlim Hnext Htempo Hor Hfuel.
    destruct fuel as [| fuel]; [lia |].
    cbn [schedulerLoop]. rewrite Hc, Hlim, Hnext.
    assert (Q1 : Qltb next limit = true) by (apply Qltb_lt; exact Hlt).
    rewrite Q1. unfold andThen.
    destruct (scheduleNote_emits (current16thNote s) next s Hs Hor)
      as (new1 & pos1 & E1 & F1 & M1 & Le1).
    rewrite E1, nextNote_advance, advance_emitted.
    set (s1 := emitted new1 pos1 (advance s)).
    destruct (advance_fields s) as (At & Atempo & Ainit & Am & Actx & Arp).
    assert (Hs1 : initialised s1 = true).
    { unfold s1. rewrite emitted_initialised, Ainit. exact Hs. }
    destruct (emitted_ctx new1 pos1 (advance s) c) as (c1 & Hc1 & Hclock);
      [rewrite Actx; exact Hc |].
    destruct (emitted_frame new1 pos1 (advance s)) as (Fm & Ftr & _).
    assert (Hnext1 : nextNoteTime s1 = next + secondsPerSixteenth bpm).
    { unfold s1. injection Ftr as _ _ _ Hn _. rewrite Hn, At, Hnext, Htempo.
      reflexivity. }
    assert (Htempo1 : tempo s1 = bpm).
    { unfold s1. injection Ftr as _ Hb _ _ _. rewrite Hb, Atempo. exact Htempo. }
    assert (Hm1 : isMuted s1 = isMuted s).
    { unfold s1. rewrite Fm, Am. reflexivity. }
    assert (Hor1 : isMuted s1 = true \/ fairDraws Math_random).
    { rewrite Hm1. exact Hor. }
    assert (Hlim1 : currentTime c1 + scheduleAheadTime = limit).
    { rewrite Hclock. exact Hlim. }
    destruct (Hrun s1 c1 fuel Hs1 Hc1 Hlim1 Hnext1 Htempo1 Hor1)
      as (new2 & pos2 & E2 & F2 & S2 & M2 & Le2); [lia |].
    exists (new2 ++ new1), pos2. split.
    { rewrite E2. unfold s1.
      rewrite iter_advance_emitted, emitted_emitted, <- Nat.iter_succ_r.
      reflexivity. }
    split.
    { apply Forall_app. split.
      - eapply Forall_impl; [| exact F2]. intros v [A B]. split; lra.
      - eapply Forall_impl; [| exact F1]. intros v ->. split; lra. }
    split.
    { unfold startTimes. rewrite rev_app_distr, map_app.
      apply StronglySorted_app.
      - apply StronglySorted_constant with (t := next).
        apply Forall_map, Forall_rev. exact F1.
      - exact S2.
      - intros a b Ha Hb. apply in_map_iff in Ha, Hb.
        destruct Ha as (va & <- & Hva), Hb as (vb & <- & Hvb).
        apply in_rev in Hva, Hvb.
        rewrite Forall_forall in F1, F2.
        rewrite (F1 va Hva). destruct (F2 vb Hvb) as [A _]. lra. }
    split.
    { intros Hm. destruct (M1 Hm) as [-> ->].
      rewrite Hm1 in M2. destruct (M2 Hm) as [-> ->]. split; [reflexivity |].
      unfold s1. rewrite emitted_randomPos by (rewrite Ainit; exact Hs).
      reflexivity. }
    unfold s1 in Le2.
    rewrite emitted_randomPos in Le2 by (rewrite Ainit; exact Hs). lia.
Qed.

Lemma enough_steps (x inc : Q) :
  0 < inc -> exists n : nat, x <= inject_Z (Z.of_nat n) * inc.
Proof.
  intros Hinc. exists (Z.to_nat (Qceiling (x / inc))).
  assert (H1 : x / inc <= inject_Z (Z.of_nat (Z.to_nat (Qceiling (x / inc))))).
  { eapply Qle_trans; [apply Qle_ceiling |].
    rewrite <- Zle_Qle. lia. }
  assert (H2 : x == x / inc * inc)
    by (field; intros Z0; rewrite Z0 in Hinc; discriminate Hinc).
  rewrite H2 at 1.
  apply Qmult_le_compat_r; [exact H1 | apply Qlt_le_weak; exact Hinc].
Qed.

Lemma set_isMuted_same (s : State) : set_isMuted (isMuted s) s = s.
Proof. destruct s; reflexivity. Qed.


Lemma armed_frame (s : State) :
  voices (armed s) = voices s /\ transport (armed s) = transport s
  /\ isMuted (armed s) = isMuted s /\ randomPos (armed s) = randomPos s
  /\ ctx (armed s) = ctx s /\ masterGain (armed s) = masterGain s
  /\ reverbNode (armed s) = reverbNode s
  /\ timerID (armed s) = Some (timeoutSeq s)
  /\ timeouts (armed s) = timeoutSeq s :: timeouts s
  /\ timeoutSeq (armed s) = S (timeoutSeq s).
Proof.
  destruct s; repeat split; reflexivity.
Qed.

(** One tick on a playing, initialised service, whatever the muted
    flag: the same number [k] of step advances, then the next tick armed. *)
Lemma scheduler_tick (s : State) (c : AudioContext) :
  initialised s = true -> ctx s = Some c -> isPlaying s = true ->
  0 < tempo s ->
  exists (N k : nat),
    currentTime c + scheduleAheadTime
      <= nextNoteTime s + inject_Z (Z.of_nat k) * secondsPerSixteenth (tempo s)
    /\ (nextNoteTime s < currentTime c + scheduleAheadTime -> (0 < k)%nat)
    /\ forall (m : bool) (fuel : nat),
         m = true \/ fairDraws Math_random -> (N <= fuel)%nat ->
         exists new pos,
           scheduler Math_random fuel (set_isMuted m s)
             = Done (armed (emitted new pos
                              (Nat.iter k advance (set_isMuted m s))))
           /\ Forall (fun v => nextNoteTime s <= v_start v
                               /\ v_start v < currentTime c + scheduleAheadTime)
                     new
           /\ StronglySorted Qle (startTimes new)
           /\ (m = true -> new = [] /\ pos = randomPos s)
           /\ (randomPos s <= pos)%nat.
Proof.
  intros Hs Hc Hp Htempo.
  pose proof (secondsPerSixteenth_pos (tempo s) Htempo) as Hinc.
  destruct (enough_steps (currentTime c + scheduleAheadTime - nextNoteTime s)
              (secondsPerSixteenth (tempo s)) Hinc) as (n & Hn).
  destruct (schedulerLoop_runs n (nextNoteTime s) (tempo s)
              (currentTime c + scheduleAheadTime) Htempo Hn)
    as (k & _ & Hreach & Hpos & Hrun).
  exists (S n), k. split; [exact Hreach |]. split; [exact Hpos |].
  intros m fuel Hor Hfuel.
  assert (Hsm : initialised (set_isMuted m s) = true) by (destruct s; exact Hs).
  assert (Hcm : ctx (set_isMuted m s) = Some c) by (destruct s; exact Hc).
  destruct (Hrun (set_isMuted m s) c fuel Hsm Hcm eq_refl)
    as (new & pos & E & F & S & M & Le);
    [destruct s; reflexivity | destruct s; reflexivity
     | destruct s; exact Hor | lia |].
  exists new, pos. split.
  { unfold scheduler.
    replace (isPlaying (set_isMuted m s)) with true
      by (destruct s; simpl in *; congruence).
    rewrite Hcm. cbn [negb orb]. unfold andThen. rewrite E. reflexivity. }
  split; [exact F |]. split; [exact S |].
  split; [| destruct s; exact Le].
  intros Hm. destruct M as [-> ->]; [destruct s; exact Hm |].
  split; [reflexivity | destruct s; reflexivity].
Qed.

Lemma iter_advance_fields (k : nat) (s : State) :
  nextNoteTime (Nat.iter k advance s) ==
    nextNoteTime s + inject_Z (Z.of_nat k) * secondsPerSixteenth (tempo s)
  /\ (onGrid s -> onGrid (Nat.iter k advance s) /\
        current16thNote (Nat.iter k advance s)
        = ((current16thNote s + Z.of_nat k) mod 16)%Z)
  /\ tempo (Nat.iter k advance s) = tempo s
  /\ isPlaying (Nat.iter k advance s) = isPlaying s
  /\ intensity (Nat.iter k advance s) = intensity s
  /\ isMuted (Nat.iter k advance s) = isMuted s
  /\ ctx (Nat.iter k advance s) = ctx s
  /\ masterGain (Nat.iter k advance s) = masterGain s
  /\ reverbNode (Nat.iter k advance s) = reverbNode s
  /\ randomPos (Nat.iter k advance s) = randomPos s.
Proof.
  destruct (nextNote_times k s)
    as (sk & E & Ht & Hg & Htempo & Hp & Hi & Hm & Hx & Hmg & Hr & _ & _ & _
        & Hrp).
  rewrite times_nextNote in E. injection E as <-.
  repeat split; try assumption; apply Hg; assumption.
Qed.





(** *** Starting and stopping *)

(** [init] with a backend at hand: the context exists afterwards and is
    running; an existing context is kept (only resumed), a new one comes
    with the master gain at 0.4 and the impulse response of 2 s, decay 2,
    forward; the transport, the muted flag and the timeouts are as before. *)
Lemma init_done (s : State) :
  hasBackend newAudioContext s = true ->
  exists s1 c,
    init Math_random Math_pow newAudioContext s = Done s1
    /\ ctx s1 = Some c /\ state c = running
    /\ match ctx s with
       | Some c0 =>
           c = resume c0 /\ masterGain s1 = masterGain s
           /\ reverbNode s1 = reverbNode s /\ randomPos s1 = randomPos s
       | None =>
           exists c0,
             newAudioContext = Some c0 /\ c = resume c0
             /\ masterGain s1 = Some (mkGain 0.4 [])
             /\ reverbNode s1
                = Some (mkConvolver
                          (fst (createImpulseResponse Math_random Math_pow c0
                                  2.0 2.0 false (randomPos s))))
       end
    /\ transport s1 = transport s /\ isMuted s1 = isMuted s
    /\ timerID s1 = timerID s /\ timeouts s1 = timeouts s
    /\ timeoutSeq s1 = timeoutSeq s.
Proof.
  destruct s as [x m p t n k tid i g r to sq rp].
  unfold hasBackend, init, andThen, withCtx. simpl.
  destruct x as [[ct sr st gr] |].
  - intros _. destruct st; simpl; eexists _, _; repeat split; reflexivity.
  - destruct newAudioContext as [[ct sr st gr] |]; [| discriminate].
    intros _. destruct st; simpl; eexists _, _;
      (split; [reflexivity |]); (split; [reflexivity |]);
      (split; [reflexivity |]);
      (split; [eexists; repeat split; reflexivity |]);
      repeat split; reflexivity.
Qed.

(** The first statement of [startBGM]: a playing session is stopped and
    its pending tick cancelled; afterwards nothing is pending. *)
Lemma stop_first (s : State) :
  singleLoop s = true ->
  exists s0,
    when (isPlaying s) stopBGM s = Done s0
    /\ isPlaying s0 = false /\ timeouts s0 = []
    /\ timeoutSeq s0 = timeoutSeq s /\ timerID s0 = timerID s
    /\ ctx s0 = ctx s /\ isMuted s0 = isMuted s
    /\ masterGain s0 = masterGain s /\ reverbNode s0 = reverbNode s
    /\ randomPos s0 = randomPos s.
Proof.
  destruct s as [x m p t n k tid i g r to sq rp].
  unfold singleLoop. simpl. intros H.
  apply andb_true_iff in H. destruct H as [_ H].
  destruct to as [| id [| id' to]]; [| | discriminate H].
  - destruct p; eexists; (split; [reflexivity |]); simpl;
      destruct tid; repeat split; reflexivity.
  - apply andb_true_iff in H. destruct H as [Hp H]. subst p.
    destruct tid as [id' |]; [| discriminate H].
    apply Nat.eqb_eq in H. subst id'.
    eexists. split; [reflexivity |]. simpl.
    destruct (Nat.eq_dec id id) as [_ | ne]; [| contradiction].
    repeat split; reflexivity.
Qed.

(** The first tick of a session: [nextNoteTime] is exactly at the
    look-ahead limit, so the loop body does not run and the tick only
    arms the next one. *)
Lemma first_tick (u : State) (c : AudioContext) (fuel : nat) :
  ctx u = Some c -> isPlaying u = true ->
  nextNoteTime u = currentTime c + 0.1 ->
  scheduler Math_random (S fuel) u = Done (armed u).
Proof.
  intros Hc Hp Hn. unfold scheduler. rewrite Hp, Hc. cbn [negb orb].
  unfold andThen. cbn [schedulerLoop]. rewrite Hc, Hn.
  assert (Hq : Qltb (currentTime c + 0.1) (currentTime c + scheduleAheadTime)
               = false) by (apply Qltb_ge, Qle_refl).
  rewrite Hq. reflexivity.
Qed.

(** C3. On every state that respects the single-loop discipline and has
    an audio backend, [startBGM(intensity)] returns: it first stops a
    playing session, which leaves no tick pending, runs [init], then sets
    [current16thNote] to 0, the tempo to 135 (high) or 100 (low),
    [nextNoteTime] to [currentTime + 0.1], and runs the first tick, which
    schedules nothing yet and arms the one pending timeout of the new
    session; a timeout of the previous session is no longer pending. *)
Theorem startBGM_restart (s : State) (i : Intensity) (fuel : nat) :
  singleLoop s = true -> hasBackend newAudioContext s = true ->
  (0 < fuel)%nat ->
  exists s0 s1 c s',
    when (isPlaying s) stopBGM s = Done s0
    /\ isPlaying s0 = false /\ timeouts s0 = []
    /\ init Math_random Math_pow newAudioContext s0 = Done s1
    /\ ctx s1 = Some c
    /\ startBGM Math_random Math_pow newAudioContext fuel i s = Done s'
    /\ current16thNote s' = 0%Z
    /\ tempo s' = match i with high => 135 | low => 100 end
    /\ nextNoteTime s' = currentTime c + 0.1
    /\ isPlaying s' = true /\ intensity s' = i
    /\ timerID s' = Some (timeoutSeq s)
    /\ timeouts s' = [timeoutSeq s]
    /\ (forall id, timerID s = Some id -> ~ In id (timeouts s'))
    /\ voices s' = voices s1
    /\ isMuted s' = isMuted s
    /\ singleLoop s' = true.
Proof.
  intros Hinv Hback Hfuel.
  destruct (stop_first s Hinv)
    as (s0 & E0 & Hp0 & Hto0 & Hsq0 & Htid0 & Hx0 & Hm0 & _).
  assert (Hback0 : hasBackend newAudioContext s0 = true)
    by (unfold hasBackend in *; rewrite Hx0; exact Hback).
  destruct (init_done s0 Hback0)
    as (s1 & c & E1 & Hc1 & _ & _ & Htr1 & Hm1 & Htid1 & Hto1 & Hsq1).
  destruct fuel as [| fuel]; [lia |].
  assert (Hold : forall id, timerID s = Some id -> (id < timeoutSeq s)%nat).
  { intros id Hid. unfold singleLoop in Hinv. rewrite Hid in Hinv.
    apply andb_true_iff in Hinv. destruct Hinv as [H _].
    apply Nat.ltb_lt in H. exact H. }
  set (u := set_nextNoteTime (currentTime c + 0.1)
              (set_tempo (if isHigh i then 135 else 100)
                (set_current16thNote 0%Z
                  (set_isPlaying true (set_intensity i s1))))).
  assert (Eu : startBGM Math_random Math_pow newAudioContext (S fuel) i s
               = Done (armed u)).
  { unfold startBGM. unfold andThen at 1. cbv beta. rewrite E0.
    unfold andThen at 1. rewrite E1. cbv beta. rewrite Hc1.
    unfold andThen, update. cbv beta.
    apply (first_tick u c fuel); [exact Hc1 | reflexivity | reflexivity]. }
  destruct (armed_frame u) as (Av & _ & Am & _ & _ & _ & _ & Atid & Ato & Asq).
  assert (Uto : timeouts u = []) by (rewrite <- Hto0, <- Hto1; reflexivity).
  assert (Usq : timeoutSeq u = timeoutSeq s)
    by (rewrite <- Hsq0, <- Hsq1; reflexivity).
  exists s0, s1, c, (armed u).
  split; [exact E0 |]. split; [exact Hp0 |]. split; [exact Hto0 |].
  split; [exact E1 |]. split; [exact Hc1 |]. split; [exact Eu |].
  split; [reflexivity |]. split; [destruct i; reflexivity |].
  split; [reflexivity |]. split; [reflexivity |]. split; [reflexivity |].
  split; [rewrite Atid, Usq; reflexivity |].
  split; [rewrite Ato, Uto, Usq; reflexivity |].
  split.
  { intros id Hid. rewrite Ato, Uto, Usq. intros [K | []].
    specialize (Hold id Hid). lia. }
  split; [rewrite Av; unfold voices; reflexivity |].
  split; [rewrite Am, <- Hm0, <- Hm1; reflexivity |].
  unfold singleLoop. rewrite Atid, Ato, Asq, Uto, Usq.
  change (isPlaying (armed u)) with true.
  rewrite Nat.eqb_refl.
  replace (timeoutSeq s <? S (timeoutSeq s))%nat with true
    by (symmetry; apply Nat.ltb_lt; lia).
  reflexivity.
Qed.

(** [startBGM] with a backend and fuel for the first tick: the state it
    returns, in terms of the state [init] left. *)
Lemma startBGM_runs (s : State) (i : Intensity) (fuel : nat) :
  singleLoop s = true -> hasBackend newAudioContext s = true ->
  exists s0 s1 c,
    when (isPlaying s) stopBGM s = Done s0
    /\ init Math_random Math_pow newAudioContext s0 = Done s1
    /\ ctx s1 = Some c
    /\ timeouts s1 = [] /\ timeoutSeq s1 = timeoutSeq s
    /\ startBGM Math_random Math_pow newAudioContext (S fuel) i s
       = Done (armed (set_nextNoteTime (currentTime c + 0.1)
                       (set_tempo (if isHigh i then 135 else 100)
                         (set_current16thNote 0%Z
                           (set_isPlaying true (set_intensity i s1)))))).
Proof.
  intros Hinv Hback.
  destruct (stop_first s Hinv)
    as (s0 & E0 & Hp0 & Hto0 & Hsq0 & Htid0 & Hx0 & Hm0 & _).
  assert (Hback0 : hasBackend newAudioContext s0 = true)
    by (unfold hasBackend in *; rewrite Hx0; exact Hback).
  destruct (init_done s0 Hback0)
    as (s1 & c & E1 & Hc1 & _ & _ & Htr1 & Hm1 & Htid1 & Hto1 & Hsq1).
  exists s0, s1, c. split; [exact E0 |]. split; [exact E1 |].
  split; [exact Hc1 |]. split; [congruence |]. split; [congruence |].
  unfold startBGM. unfold andThen at 1. cbv beta. rewrite E0.
  unfold andThen at 1. rewrite E1. cbv beta. rewrite Hc1.
  unfold andThen, update. cbv beta.
  apply (first_tick _ c fuel); [exact Hc1 | reflexivity | reflexivity].
Qed.

(** *** The single-loop discipline is an invariant *)

Lemma keeps_seq {A} (f : State -> A) p q :
  keeps f p -> keeps f q -> keeps f (p ;; q).
Proof.
  intros Hp Hq s. unfold andThen. specialize (Hp s).
  destruct (p s) as [s1 | s1 |]; simpl in *; [| exact Hp | reflexivity].
  specialize (Hq s1). destruct (q s1) as [s2 | s2 |]; simpl in *;
    congruence.
Qed.

Lemma keeps_skip {A} (f : State -> A) : keeps f skip.
Proof. intros s. reflexivity. Qed.

Lemma keeps_when {A} (f : State -> A) (b : bool) p :
  keeps f p -> keeps f (when b p).
Proof. intros Hp. destruct b; [exact Hp | apply keeps_skip]. Qed.

Lemma keeps_if {A} (f : State -> A) (b : bool) p q :
  keeps f p -> keeps f q -> keeps f (if b then p else q).
Proof. intros Hp Hq. destruct b; assumption. Qed.

Lemma keeps_ifHigh {A} (f : State -> A) p q :
  keeps f p -> keeps f q -> keeps f (ifHigh p q).
Proof.
  intros Hp Hq s. unfold ifHigh.
  destruct (isHigh (intensity s)); [apply Hp | apply Hq].
Qed.

(** A view that is kept gives a kept coarser view. *)
Lemma keeps_coarser {A B} (f : State -> A) (g : A -> B) p :
  keeps f p -> keeps (fun s => g (f s)) p.
Proof.
  intros Hp s. simpl. rewrite (Hp s). reflexivity.
Qed.

Lemma keeps_preserves {A} (f : State -> A) (I : State -> Prop) p :
  (forall s s', f s' = f s -> I s -> I s') -> keeps f p -> preserves I p.
Proof.
  intros HI Hp s Hs. apply (HI s); [apply Hp | exact Hs].
Qed.

Lemma preserves_seq (I : State -> Prop) p q :
  preserves I p -> preserves I q -> preserves I (p ;; q).
Proof.
  intros Hp Hq s Hs. unfold andThen. specialize (Hp s Hs).
  destruct (p s) as [s1 | s1 |]; simpl in *; [| exact Hp | exact Hs].
  specialize (Hq s1 Hp). destruct (q s1) as [s2 | s2 |]; simpl in *;
    [exact Hq | exact Hq | exact Hs].
Qed.

Ltac keeps_brute s :=
  destruct s as [x m p t n k tid ity g r to sq rp];
  destruct x as [[ct sr st gr] |], g, r; reflexivity.

Lemma keeps_playKick time : keeps shellOf (playKick time).
Proof. intros s. keeps_brute s. Qed.

Lemma keeps_playSnare time : keeps shellOf (playSnare time).
Proof. intros s. keeps_brute s. Qed.

Lemma keeps_playHiHat time duration :
  keeps shellOf (playHiHat time duration).
Proof. intros s. keeps_brute s. Qed.

Lemma keeps_playBass time freq duration :
  keeps shellOf (playBass time freq duration).
Proof. intros s. destruct freq; keeps_brute s. Qed.

Lemma keeps_playSynth time freq duration :
  keeps shellOf (playSynth time freq duration).
Proof. intros s. destruct freq; keeps_brute s. Qed.

Lemma keeps_randomIndex (n : Q) (k : Z -> Proc) :
  (forall idx, keeps shellOf (k idx)) ->
  keeps shellOf (fun s => let '(idx, s1) := randomIndex Math_random n s in
                          k idx s1).
Proof.
  intros Hk s. unfold randomIndex.
  specialize (Hk (Qfloor (Math_random (randomPos s) * n))
                 (set_randomPos (S (randomPos s)) s)).
  destruct (k _ _) as [s1 | s1 |]; simpl in *; [| | reflexivity];
    rewrite Hk; destruct s; reflexivity.
Qed.

(** [scheduleNote] touches the graph and the stream of draws only. *)
Lemma keeps_scheduleNote b time :
  keeps shellOf (scheduleNote Math_random b time).
Proof.
  intros s. unfold scheduleNote. destruct (isMuted s); [reflexivity |].
  revert s. change (keeps shellOf
    (ifHigh (when (jsmod b 4 =? 0)%Z (playKick time))
            (when ((b =? 0) || (b =? 10))%Z (playKick time)) ;;
     when (jsmod b 8 =? 4)%Z (playSnare time) ;;
     (if (jsmod b 2 =? 0)%Z then playHiHat time 0.05
      else ifHigh (playHiHat time 0.03) skip) ;;
     ifHigh
       (when (jsmod b 2 =? 0)%Z
          (let note := if (b <? 8)%Z then scaleAt 0 else scaleAt 1 in
           playBass time (option_map (fun n => n / 2) note) 0.2))
       (when (b =? 0)%Z
          (playBass time (option_map (fun n => n / 2) (scaleAt 0)) 2)) ;;
     ifHigh
       (when (existsb (Z.eqb b) [0; 3; 6; 9; 12; 14]%Z)
          (fun s =>
             let '(noteIdx, s1) := randomIndex Math_random 4 s in
             playSynth time (scaleAt noteIdx) 0.1 s1))
       (when ((b =? 0) || (b =? 6) || (b =? 12))%Z
          (fun s =>
             let '(noteIdx, s1) :=
               randomIndex Math_random (inject_Z (Z.of_nat (length scale))) s in
             playSynth time (option_map (fun n => n * 2) (scaleAt noteIdx))
               0.5 s1)))).
  repeat first
    [ apply keeps_seq | apply keeps_ifHigh | apply keeps_when
    | apply keeps_if | apply keeps_skip | apply keeps_playKick
    | apply keeps_playSnare | apply keeps_playHiHat | apply keeps_playBass
    | apply keeps_playSynth
    | apply (keeps_randomIndex _ (fun idx => playSynth time (scaleAt idx) 0.1));
      intros idx
    | apply (keeps_randomIndex _
               (fun idx => playSynth time
                             (option_map (fun n => n * 2) (scaleAt idx)) 0.5));
      intros idx ].
Qed.

Lemma shell_timers (s s' : State) :
  shellOf s' = shellOf s -> timersOf s' = timersOf s.
Proof.
  unfold shellOf, timersOf. intros H.
  injection H as _ Hp _ _ _ Htid _ _ _ Hto Hsq. congruence.
Qed.

Lemma shell_grid (s s' : State) :
  shellOf s' = shellOf s -> onGrid s -> onGrid s'.
Proof.
  unfold shellOf, onGrid. intros H.
  injection H as _ _ _ _ Hc _ _ _ _ _ _. rewrite Hc. tauto.
Qed.

Lemma keeps_nextNote : keeps timersOf nextNote.
Proof.
  intros s. destruct s as [x m p t n k tid ity g r to sq rp].
  unfold nextNote. simpl. destruct (k + 1 =? 16)%Z; reflexivity.
Qed.

Lemma preserves_nextNote : preserves onGrid nextNote.
Proof.
  intros s Hs. rewrite nextNote_advance. simpl.
  apply (nextNote_grid s (advance s) Hs (nextNote_advance s)).
Qed.

Lemma keeps_schedulerLoop (fuel : nat) :
  keeps timersOf (schedulerLoop Math_random fuel).
Proof.
  induction fuel as [| fuel IH]; intros s; [reflexivity |].
  cbn [schedulerLoop]. destruct (ctx s) as [c |]; [| reflexivity].
  destruct (Qltb _ _); [| reflexivity].
  apply (keeps_seq timersOf _ _
           (fun u => shell_timers _ _ (keeps_scheduleNote _ _ u))
           (keeps_seq timersOf _ _ keeps_nextNote IH)).
Qed.

Lemma preserves_schedulerLoop (fuel : nat) :
  preserves onGrid (schedulerLoop Math_random fuel).
Proof.
  induction fuel as [| fuel IH]; intros s Hs; [exact Hs |].
  cbn [schedulerLoop]. destruct (ctx s) as [c |]; [| exact Hs].
  destruct (Qltb _ _); [| exact Hs].
  apply (preserves_seq onGrid _ _
           (keeps_preserves shellOf onGrid _ shell_grid
              (keeps_scheduleNote _ _))
           (preserves_seq onGrid _ _ preserves_nextNote IH));
    exact Hs.
Qed.

Lemma keeps_init : keeps timersOf (init Math_random Math_pow newAudioContext).
Proof.
  intros s. destruct s as [x m p t n k tid ity g r to sq rp].
  unfold init, andThen, withCtx. simpl.
  destruct x as [[ct sr [] gr] |]; try reflexivity.
  destruct newAudioContext as [[ct sr [] gr] |]; reflexivity.
Qed.

Lemma keeps_toggleMute : keeps timersOf toggleMute.
Proof.
  intros s. pose proof (toggleMute_cases s) as H.
  destruct (masterGain s); [destruct (ctx s) |]; rewrite H;
    destruct s; reflexivity.
Qed.

Lemma keeps_playSliceSfx : keeps shellOf playSliceSfx.
Proof.
  intros s. destruct s as [x m p t n k tid ity g r to sq rp].
  destruct x as [[ct sr st gr] |], m, g; reflexivity.
Qed.

Lemma keeps_playBombSfx : keeps shellOf playBombSfx.
Proof.
  intros s. destruct s as [x m p t n k tid ity g r to sq rp].
  destruct x as [[ct sr st gr] |], m, g; reflexivity.
Qed.

Lemma singleLoop_timers (s s' : State) :
  timersOf s' = timersOf s -> singleLoop s' = singleLoop s.
Proof.
  unfold timersOf, singleLoop. intros H. injection H as -> -> -> ->.
  reflexivity.
Qed.

Lemma singleLoop_initial : singleLoop initial = true.
Proof. reflexivity. Qed.

(** Every event keeps the discipline, however the call ends: the states
    the service can reach all satisfy [singleLoop]. *)
Lemma singleLoop_invariant (fuel : nat) (e : Event) (s : State) :
  singleLoop s = true ->
  singleLoop
    (stateOf (handle Math_random Math_pow newAudioContext fuel e s) s) = true.
Proof.
  intros Hinv. destruct e as [| i | | | | | id | t]; cbn [handle].
  - rewrite (singleLoop_timers _ _ (keeps_init s)). exact Hinv.
  - destruct fuel as [| fuel].
    + (* no fuel: either the call threw before the loop or ran out *)
      destruct (stop_first s Hinv)
        as (s0 & E0 & Hp0 & Hto0 & Hsq0 & Htid0 & _).
      assert (H0 : singleLoop s0 = true).
      { unfold singleLoop in *. rewrite Hto0, Htid0, Hsq0.
        apply andb_true_iff in Hinv. destruct Hinv as [-> _]. reflexivity. }
      unfold startBGM, andThen. fold (when (isPlaying s) stopBGM s).
      rewrite E0. pose proof (keeps_init s0) as K.
      destruct (init Math_random Math_pow newAudioContext s0)
        as [s1 | s1 |]; simpl in K |- *; [| | exact Hinv].
      * destruct (ctx s1) as [c |] eqn:Hc1; simpl.
        -- unfold update, scheduler, andThen. cbv beta.
           set (u := set_nextNoteTime _ _).
           change (isPlaying u) with true. change (ctx u) with (ctx s1).
           rewrite Hc1. exact Hinv.
        -- rewrite (singleLoop_timers _ _ K). exact H0.
      * rewrite (singleLoop_timers _ _ K). exact H0.
    + destruct (hasBackend newAudioContext s) eqn:Hb.
      * destruct (startBGM_runs s i fuel Hinv Hb)
          as (s0 & s1 & c & _ & _ & _ & Hto1 & Hsq1 & E).
        rewrite E. cbn [stateOf]. set (u := set_nextNoteTime _ _).
        destruct (armed_frame u)
          as (_ & _ & _ & _ & _ & _ & _ & Atid & Ato & Asq).
        unfold singleLoop. rewrite Atid, Ato, Asq.
        change (timeouts u) with (timeouts s1). rewrite Hto1.
        change (isPlaying (armed u)) with true.
        rewrite Nat.eqb_refl.
        replace (timeoutSeq u <? S (timeoutSeq u))%nat with true
          by (symmetry; apply Nat.ltb_lt; lia).
        reflexivity.
      * destruct (stop_first s Hinv)
          as (s0 & E0 & Hp0 & Hto0 & Hsq0 & Htid0 & Hx0 & _).
        unfold startBGM, andThen. fold (when (isPlaying s) stopBGM s).
        rewrite E0. unfold hasBackend in Hb. rewrite <- Hx0 in Hb.
        unfold init, andThen.
        destruct (ctx s0); [discriminate Hb |].
        destruct newAudioContext; [discriminate Hb |]. simpl.
        unfold singleLoop in *. rewrite Hto0, Htid0, Hsq0.
        apply andb_true_iff in Hinv. destruct Hinv as [-> _]. reflexivity.
  - destruct s as [x m p tm n k tid ity g r to sq rp].
    unfold singleLoop in *. simpl in *.
    apply andb_true_iff in Hinv. destruct Hinv as [-> H]. simpl.
    destruct to as [| id [| id' to]]; [| | discriminate H].
    + destruct tid; reflexivity.
    + apply andb_true_iff in H. destruct H as [_ H].
      destruct tid as [id' |]; [| discriminate H].
      apply Nat.eqb_eq in H. subst id'. simpl.
      destruct (Nat.eq_dec id id) as [_ | ne]; [reflexivity | contradiction].
  - rewrite (singleLoop_timers _ _ (keeps_toggleMute s)). exact Hinv.
  - rewrite (singleLoop_timers _ _ (shell_timers _ _ (keeps_playSliceSfx s))).
    exact Hinv.
  - rewrite (singleLoop_timers _ _ (shell_timers _ _ (keeps_playBombSfx s))).
    exact Hinv.
  - destruct (existsb (Nat.eqb id) (timeouts s)) eqn:Hin; [| exact Hinv].
    unfold singleLoop in Hinv.
    apply andb_true_iff in Hinv. destruct Hinv as [Hid H].
    destruct (timeouts s) as [| id1 [| id2 to]] eqn:Hto;
      [discriminate Hin | | discriminate H].
    apply andb_true_iff in H. destruct H as [Hp H].
    simpl in Hin. rewrite orb_false_r in Hin. apply Nat.eqb_eq in Hin.
    subst id1. simpl.
    destruct (Nat.eq_dec id id) as [_ | ne]; [| contradiction].
    set (s0 := set_timeouts [] s).
    assert (Tp : isPlaying s0 = true) by exact Hp.
    assert (Hstop : singleLoop s0 = true).
    { unfold singleLoop, s0. cbn [timerID timeouts timeoutSeq set_timeouts].
      rewrite Hid. reflexivity. }
    unfold scheduler. rewrite Tp. cbn [negb orb].
    destruct (ctx s0) as [c |]; [| exact Hstop].
    unfold andThen. pose proof (keeps_schedulerLoop fuel s0) as K.
    destruct (schedulerLoop Math_random fuel s0) as [s1 | s1 |];
      cbn [stateOf] in K.
    + change (singleLoop (armed s1) = true).
      unfold timersOf in K. injection K as K1 K2 K3 K4.
      destruct (armed_frame s1) as (_ & _ & _ & _ & _ & _ & _ & Atid & Ato & Asq).
      unfold singleLoop. rewrite Atid, Ato, Asq, K2.
      change (timeouts s0) with (@nil nat).
      change (isPlaying (armed s1)) with (isPlaying s1).
      rewrite K4. first [rewrite Tp | rewrite Hp]. rewrite Nat.eqb_refl.
      replace (timeoutSeq s1 <? S (timeoutSeq s1))%nat with true
        by (symmetry; apply Nat.ltb_lt; lia).
      reflexivity.
    + cbn [stateOf]. rewrite (singleLoop_timers _ _ K). exact Hstop.
    + cbn [stateOf]. unfold singleLoop. rewrite Hto, Hid, Hp, H. reflexivity.
  - destruct (ctx s) as [c |] eqn:Hc; [| exact Hinv].
    destruct (Qle_bool (currentTime c) t); [| exact Hinv].
    destruct s; exact Hinv.
Qed.

(** *** The step counter stays on the grid *)

Lemma preserves_update (I : State -> Prop) (f : State -> State) :
  (forall s, I s -> I (f s)) -> preserves I (update f).
Proof. intros Hf s Hs. apply Hf. exact Hs. Qed.

Lemma preserves_scheduler (fuel : nat) :
  preserves onGrid (scheduler Math_random fuel).
Proof.
  intros s Hs. unfold scheduler.
  destruct (negb (isPlaying s) || _); [exact Hs |].
  assert (Harm : preserves onGrid setTimeout) by (intros u Hu; exact Hu).
  apply (preserves_seq onGrid _ _ (preserves_schedulerLoop fuel) Harm s Hs).
Qed.

Lemma preserves_init :
  preserves onGrid (init Math_random Math_pow newAudioContext).
Proof.
  intros s Hs. destruct s as [x m p t n k tid ity g r to sq rp].
  unfold init, andThen, withCtx. simpl.
  destruct x as [[ct sr [] gr] |]; try exact Hs.
  destruct newAudioContext as [[ct sr [] gr] |]; exact Hs.
Qed.

Lemma preserves_startBGM (fuel : nat) (i : Intensity) :
  preserves onGrid (startBGM Math_random Math_pow newAudioContext fuel i).
Proof.
  unfold startBGM. apply preserves_seq; [| apply preserves_seq].
  - intros s Hs. destruct (isPlaying s); exact Hs.
  - apply preserves_init.
  - intros s Hs. destruct (ctx s) as [c |]; [| exact Hs].
    apply (preserves_seq onGrid); [| apply preserves_scheduler | exact Hs].
    apply preserves_update. intros u _. unfold onGrid. simpl. lia.
Qed.

Lemma onGrid_initial : onGrid initial.
Proof. unfold onGrid. simpl. lia. Qed.

(** Every event leaves [current16thNote] in 0..15, however the call
    ends: the states the service can reach are all on the grid. *)
Lemma onGrid_invariant (fuel : nat) (e : Event) (s : State) :
  onGrid s ->
  onGrid (stateOf (handle Math_random Math_pow newAudioContext fuel e s) s).
Proof.
  intros Hs. destruct e as [| i | | | | | id | t]; cbn [handle].
  - apply preserves_init. exact Hs.
  - apply preserves_startBGM. exact Hs.
  - exact Hs.
  - pose proof (toggleMute_cases s) as H.
    destruct (masterGain s); [destruct (ctx s) |]; rewrite H; exact Hs.
  - apply (shell_grid s _ (keeps_playSliceSfx s) Hs).
  - apply (shell_grid s _ (keeps_playBombSfx s) Hs).
  - destruct (existsb (Nat.eqb id) (timeouts s)); [| exact Hs].
    pose proof (preserves_scheduler fuel
                  (set_timeouts (remove Nat.eq_dec id (timeouts s)) s) Hs) as H.
    destruct (scheduler Math_random fuel _); exact H || exact Hs.
  - destruct (ctx s) as [c |]; [| exact Hs].
    destruct (Qle_bool (currentTime c) t); exact Hs.
Qed.

(** Both disciplines hold in every reachable state. *)
Lemma reachable_disciplined (s : State) :
  reachable Math_random Math_pow newAudioContext s ->
  singleLoop s = true /\ onGrid s.
Proof.
  induction 1 as [| fuel e s _ [IH1 IH2]].
  - split; [exact singleLoop_initial | exact onGrid_initial].
  - split; [apply singleLoop_invariant; exact IH1
           | apply onGrid_invariant; exact IH2].
Qed.

(** *** The impulse response *)

Lemma impulseLoop_length (L decay : Q) (reverse : bool) (k : nat) :
  forall i pos : nat,
    length (impulseLoop Math_random Math_pow L decay reverse k i pos) = k.
Proof.
  induction k as [| k IH]; intros i pos; [reflexivity |].
  simpl. rewrite IH. reflexivity.
Qed.

Lemma impulseLoop_nth (L decay : Q) (reverse : bool) (k : nat) :
  forall (i pos j : nat) (d : Q * Q), (j < k)%nat ->
    nth j (impulseLoop Math_random Math_pow L decay reverse k i pos) d
    = (impulseSample Math_pow L decay reverse (i + j)
         (Math_random (pos + 2 * j)),
       impulseSample Math_pow L decay reverse (i + j)
         (Math_random (pos + 2 * j + 1))).
Proof.
  induction k as [| k IH]; intros i pos j d Hj; [lia |].
  destruct j as [| j]; cbn [impulseLoop nth].
  - replace (i + 0)%nat with i by lia.
    replace (pos + 2 * 0)%nat with pos by lia.
    replace (pos + 1)%nat with (S pos) by lia. reflexivity.
  - rewrite IH by lia.
    replace (S i + j)%nat with (i + S j)%nat by lia.
    replace (S (S pos) + 2 * j)%nat with (pos + 2 * S j)%nat by lia.
    reflexivity.
Qed.

(** C8. [createImpulseResponse(duration, decay, reverse)] reads nothing
    but the sample rate of the context and the stream of draws, and
    writes no field of the service.  When [sampleRate * duration] is a
    whole number [len] of frames it returns a stereo buffer of [len]
    samples per channel and takes [2 * len] draws; sample [i] of each
    channel is [(draw * 2 - 1) * pow(1 - n / length, decay)] with
    [n = length - i] when [reverse] and [n = i] otherwise, the left
    channel from draw [2 i] and the right one from draw [2 i + 1] of the
    call, so no draw is used twice; a fair draw gives a factor in
    [-1, 1). *)
Theorem impulse_response (c : AudioContext) (duration decay : Q)
  (reverse : bool) (pos len : nat) :
  sampleRate c * duration == inject_Z (Z.of_nat len) ->
  exists buf,
    createImpulseResponse Math_random Math_pow c duration decay reverse pos
      = (buf, (pos + 2 * len)%nat)
    /\ length (left buf) = len /\ length (right buf) = len
    /\ (forall i : nat, (i < len)%nat ->
          let L := sampleRate c * duration in
          let n := if reverse then L - inject_Z (Z.of_nat i)
                   else inject_Z (Z.of_nat i) in
          nth i (left buf) 0
            = (Math_random (pos + 2 * i) * 2 - 1) * Math_pow (1 - n / L) decay
          /\ nth i (right buf) 0
             = (Math_random (pos + 2 * i + 1) * 2 - 1)
               * Math_pow (1 - n / L) decay)
    /\ (fairDraws Math_random ->
        forall p : nat, -1 <= Math_random p * 2 - 1 /\ Math_random p * 2 - 1 < 1)
    /\ (forall c' : AudioContext, sampleRate c' = sampleRate c ->
          createImpulseResponse Math_random Math_pow c' duration decay reverse pos
          = createImpulseResponse Math_random Math_pow c duration decay reverse pos).
Proof.
  intros Hlen. unfold createImpulseResponse.
  set (L := sampleRate c * duration) in *.
  assert (Hloop : loopCount L = len).
  { unfold loopCount. rewrite (Qceiling_comp _ _ Hlen), Qceiling_Z.
    apply Nat2Z.id. }
  assert (Hframes : frames L = len).
  { unfold frames. rewrite (Qfloor_comp _ _ Hlen), Qfloor_Z.
    apply Nat2Z.id. }
  rewrite Hloop, Hframes.
  set (written := impulseLoop Math_random Math_pow L decay reverse len 0 pos).
  assert (Hw : length written = len) by apply impulseLoop_length.
  assert (Hl : firstn len (map fst written) = map fst written)
    by (rewrite <- Hw at 1; rewrite <- (length_map fst); apply firstn_all).
  assert (Hr : firstn len (map snd written) = map snd written)
    by (rewrite <- Hw at 1; rewrite <- (length_map snd); apply firstn_all).
  rewrite Hl, Hr. eexists. split; [reflexivity |]. cbn [left right].
  split; [rewrite length_map; exact Hw |].
  split; [rewrite length_map; exact Hw |].
  split; [| split].
  - intros i Hi. cbv zeta.
    change 0 with (fst (0, 0)) at 1. change 0 with (snd (0, 0)) at 3.
    rewrite !map_nth. unfold written.
    rewrite impulseLoop_nth by exact Hi. cbn [fst snd].
    unfold impulseSample. split; reflexivity.
  - intros Hfair p. destruct (Hfair p) as [H0 H1]. split; lra.
  - intros c' Hsr. rewrite Hsr. fold L. rewrite Hloop, Hframes. fold written.
    rewrite Hl, Hr. reflexivity.
Qed.

(** *** The other rules of the pattern *)

(** The voices of one step, sorted by the recipe that built them. *)
Lemma scheduleNote_by_instrument (b : Z) (time : Q) (s : State) :
  fairDraws Math_random -> initialised s = true -> isMuted s = false ->
  exists kick snare hat bass arp pos,
    scheduleNote Math_random b time s
      = Done (emitted (arp ++ bass ++ hat ++ snare ++ kick) pos s)
    /\ filter (playedBy Kick) (arp ++ bass ++ hat ++ snare ++ kick) = kick
    /\ filter (playedBy Snare) (arp ++ bass ++ hat ++ snare ++ kick) = snare
    /\ filter (playedBy HiHat) (arp ++ bass ++ hat ++ snare ++ kick) = hat
    /\ filter (playedBy Bass) (arp ++ bass ++ hat ++ snare ++ kick) = bass
    /\ filter (playedBy Synth) (arp ++ bass ++ hat ++ snare ++ kick) = arp
    /\ ifFires (jsmod b 8 =? 4)%Z
         (fun l => exists noise, l = [snareVoice time noise]) snare
    /\ (if (jsmod b 2 =? 0)%Z
        then exists noise, hat = [hiHatVoice time 0.05 noise]
        else if isHigh (intensity s)
             then exists noise, hat = [hiHatVoice time 0.03 noise]
             else hat = [])
    /\ (if isHigh (intensity s)
        then ifFires (jsmod b 2 =? 0)%Z
               (fun l => l = [bassVoice time
                    ((if (b <? 8)%Z then 130.81 else 155.56) / 2) 0.2]) bass
        else ifFires (b =? 0)%Z
               (fun l => l = [bassVoice time (130.81 / 2) 2]) bass)
    /\ (length (arp ++ bass ++ hat ++ snare ++ kick) <= 5)%nat.
Proof.
  clear Math_pow newAudioContext.
  intros Hfair Hs Hm.
  destruct (scheduleNote_parts b time s Hfair Hs Hm)
    as (kick & snare & hat & bass & arp & pos & E & Le & Lk & Lsn & Lh & Lb
        & La).
  exists kick, snare, hat, bass, arp, pos.
  split; [exact E |].
  assert (F : forall k,
             filter (playedBy k) (arp ++ bass ++ hat ++ snare ++ kick)
             = filter (playedBy k) arp ++ filter (playedBy k) bass
               ++ filter (playedBy k) hat ++ filter (playedBy k) snare
               ++ filter (playedBy k) kick)
    by (intros k; rewrite !filter_app; reflexivity).
  rewrite !F, !length_app. clear F E Le.
  split; [| split; [| split; [| split; [| split]]]];
    try (destruct (intensity s); simpl in *; split_parts; reflexivity).
  split; [exact Lsn |]. split; [exact Lh |]. split; [exact Lb |].
  destruct (intensity s); simpl in *; split_parts; simpl; lia.
Qed.

Lemma jsmod_grid (step m : Z) :
  (0 <= step <= 15)%Z -> (0 < m)%Z -> jsmod step m = (step mod m)%Z.
Proof.
  intros Hs Hm. unfold jsmod. apply Z.rem_mod_nonneg; lia.
Qed.

(** X1. With mute off, a step of the cycle schedules a snare exactly at
    steps 4 and 12, under either intensity, and never more than one. *)
Theorem snare_pattern (step : Z) (time : Q) (s : State) :
  fairDraws Math_random -> initialised s = true -> isMuted s = false ->
  (0 <= step <= 15)%Z ->
  exists s' new,
    scheduleNote Math_random step time s = Done s'
    /\ voices s' = new ++ voices s
    /\ (((step = 4 \/ step = 12)%Z
         /\ exists noise,
              filter (playedBy Snare) new = [snareVoice time noise])
        \/ (step <> 4%Z /\ step <> 12%Z
            /\ filter (playedBy Snare) new = [])).
Proof.
  clear Math_pow newAudioContext.
  intros Hfair Hs Hm Hstep.
  destruct (scheduleNote_by_instrument step time s Hfair Hs Hm)
    as (kick & snare & hat & bass & arp & pos & E & _ & Fs & _ & _ & _ & Lsn
        & _).
  eexists _, _. split; [exact E |].
  split; [apply emitted_voices; exact Hs |].
  rewrite Fs. rewrite (jsmod_grid step 8 Hstep) in Lsn by lia.
  unfold ifFires in Lsn.
  destruct (Z.eqb_spec (step mod 8) 4) as [e | ne].
  - left. split; [| exact Lsn]. Z.div_mod_to_equations. lia.
  - right. split; [| split; [| exact Lsn]]; intros ->; apply ne; reflexivity.
Qed.

(** X2. With mute off, every even step schedules one closed hi-hat
    (0.05 s); an odd step schedules one short hi-hat (0.03 s) under
    high intensity and none under low intensity. *)
Theorem hihat_pattern (step : Z) (time : Q) (s : State) :
  fairDraws Math_random -> initialised s = true -> isMuted s = false ->
  (0 <= step <= 15)%Z ->
  exists s' new,
    scheduleNote Math_random step time s = Done s'
    /\ voices s' = new ++ voices s
    /\ (((step mod 2 = 0)%Z
         /\ exists noise,
              filter (playedBy HiHat) new = [hiHatVoice time 0.05 noise])
        \/ ((step mod 2 = 1)%Z /\ intensity s = high
            /\ exists noise,
                 filter (playedBy HiHat) new = [hiHatVoice time 0.03 noise])
        \/ ((step mod 2 = 1)%Z /\ intensity s = low
            /\ filter (playedBy HiHat) new = [])).
Proof.
  clear Math_pow newAudioContext.
  intros Hfair Hs Hm Hstep.
  destruct (scheduleNote_by_instrument step time s Hfair Hs Hm)
    as (kick & snare & hat & bass & arp & pos & E & _ & _ & Fh & _ & _ & _
        & Lh & _).
  eexists _, _. split; [exact E |].
  split; [apply emitted_voices; exact Hs |].
  rewrite Fh. rewrite (jsmod_grid step 2 Hstep) in Lh by lia.
  destruct (Z.eqb_spec (step mod 2) 0) as [e | ne].
  - left. split; [exact e | exact Lh].
  - right. assert (O : (step mod 2 = 1)%Z)
      by (pose proof (Z.mod_pos_bound step 2); lia).
    destruct (intensity s); simpl in Lh.
    + right. repeat split; [exact O | exact Lh].
    + left. repeat split; [exact O | exact Lh].
Qed.

(** X3. With mute off, under high intensity the bass plays on every even
    step, [scale[0] / 2] below step 8 and [scale[1] / 2] from step 8 on,
    for 0.2 s, and is silent on odd steps; under low intensity it plays
    at step 0 only, [scale[0] / 2] for 2 s. *)
Theorem bass_pattern (step : Z) (time : Q) (s : State) :
  fairDraws Math_random -> initialised s = true -> isMuted s = false ->
  (0 <= step <= 15)%Z ->
  exists s' new,
    scheduleNote Math_random step time s = Done s'
    /\ voices s' = new ++ voices s
    /\ scaleAt 0 = Some 130.81 /\ scaleAt 1 = Some 155.56
    /\ match intensity s with
       | high =>
           ((step mod 2 = 0)%Z /\ (step < 8)%Z
            /\ filter (playedBy Bass) new = [bassVoice time (130.81 / 2) 0.2])
           \/ ((step mod 2 = 0)%Z /\ (8 <= step)%Z
               /\ filter (playedBy Bass) new
                  = [bassVoice time (155.56 / 2) 0.2])
           \/ ((step mod 2 = 1)%Z /\ filter (playedBy Bass) new = [])
       | low =>
           (step = 0%Z
            /\ filter (playedBy Bass) new = [bassVoice time (130.81 / 2) 2])
           \/ (step <> 0%Z /\ filter (playedBy Bass) new = [])
       end.
Proof.
  clear Math_pow newAudioContext.
  intros Hfair Hs Hm Hstep.
  destruct (scheduleNote_by_instrument step time s Hfair Hs Hm)
    as (kick & snare & hat & bass & arp & pos & E & _ & _ & _ & Fb & _ & _
        & _ & Lb & _).
  eexists _, _. split; [exact E |].
  split; [apply emitted_voices; exact Hs |].
  split; [reflexivity |]. split; [reflexivity |].
  rewrite Fb. rewrite (jsmod_grid step 2 Hstep) in Lb by lia.
  unfold ifFires in Lb.
  destruct (intensity s); simpl in Lb.
  - destruct (Z.eqb_spec step 0) as [e | ne]; [left | right];
      split; assumption.
  - destruct (Z.eqb_spec (step mod 2) 0) as [e | ne].
    + destruct (Z.ltb_spec step 8) as [lt | ge].
      * left. repeat split; assumption.
      * right. left. repeat split; assumption.
    + right. right. split; [| exact Lb].
      pose proof (Z.mod_pos_bound step 2). lia.
Qed.

(** X4. With mute off, one call of [scheduleNote], at any step, hands at
    most five voices to the engine; each starts at the time passed in,
    feeds the master bus, feeds the reverb exactly when it is a snare or
    a synth, and has a stop time after its start unless it is a hi-hat,
    which is never stopped. *)
Theorem voice_routing (step : Z) (time : Q) (s : State) :
  fairDraws Math_random -> initialised s = true -> isMuted s = false ->
  exists s' new,
    scheduleNote Math_random step time s = Done s'
    /\ voices s' = new ++ voices s
    /\ (length new <= 5)%nat
    /\ Forall (wellRouted time) new.
Proof.
  clear Math_pow newAudioContext.
  intros Hfair Hs Hm.
  destruct (scheduleNote_by_instrument step time s Hfair Hs Hm)
    as (kick & snare & hat & bass & arp & pos & E & _ & _ & _ & _ & _ & _
        & _ & _ & Hlen).
  destruct (scheduleNote_parts step time s Hfair Hs Hm)
    as (kick' & snare' & hat' & bass' & arp' & pos' & E' & _ & Lk & Lsn & Lh
        & Lb & La).
  rewrite E in E'. injection E' as E'.
  assert (Hnew : arp ++ bass ++ hat ++ snare ++ kick
                 = arp' ++ bass' ++ hat' ++ snare' ++ kick').
  { apply (f_equal voices) in E'.
    rewrite !emitted_voices in E' by exact Hs.
    apply app_inv_tail in E'. exact E'. }
  eexists _, _. split; [exact E |].
  split; [apply emitted_voices; exact Hs |].
  split; [exact Hlen |]. rewrite Hnew. clear E E' Hnew Hlen.
  assert (W : forall v, In v (arp' ++ bass' ++ hat' ++ snare' ++ kick') ->
                        wellRouted time v).
  { intros v Hv. rewrite !in_app_iff in Hv.
    destruct (intensity s); simpl in *; split_parts;
      repeat match goal with
        | H : _ \/ _ |- _ => destruct H
        | H : In _ [] |- _ => destruct H
        | H : In _ [_] |- _ => destruct H as [<- | []]
        end;
      (split; [reflexivity |]); (split; [reflexivity |]);
      (split; [simpl; split;
                 [intros K; first [right; reflexivity | left; reflexivity
                                   | discriminate K]
                 | intros [K | K]; first [reflexivity | discriminate K]]
              | simpl; first [reflexivity | split; [lra | discriminate]]]). }
  apply Forall_forall. exact W.
Qed.

(** *** Initialisation, effects and stopping *)

Lemma init_running (u : State) (c : AudioContext) :
  ctx u = Some c -> state c = running ->
  init Math_random Math_pow newAudioContext u = Done u.
Proof.
  intros Hc Hst. unfold init, andThen. rewrite Hc.
  unfold withCtx. rewrite Hc. unfold isSuspended. rewrite Hst. reflexivity.
Qed.

(** X5. [init] is idempotent: with a backend at hand it returns, and a
    second call changes nothing.  A context that exists is kept: its
    voices, the master gain, the reverb and the stream of draws are as
    before; only a missing context brings a new mix graph.  The
    transport, the muted flag and the timeouts are never touched. *)
Theorem init_idempotent (s : State) :
  hasBackend newAudioContext s = true ->
  exists s1,
    init Math_random Math_pow newAudioContext s = Done s1
    /\ init Math_random Math_pow newAudioContext s1 = Done s1
    /\ (init Math_random Math_pow newAudioContext ;;
        init Math_random Math_pow newAudioContext) s = Done s1
    /\ match ctx s with
       | Some _ =>
           masterGain s1 = masterGain s /\ reverbNode s1 = reverbNode s
           /\ randomPos s1 = randomPos s /\ voices s1 = voices s
       | None =>
           initialised s1 = true /\ masterGain s1 = Some (mkGain 0.4 [])
       end
    /\ transport s1 = transport s /\ isMuted s1 = isMuted s
    /\ timersOf s1 = timersOf s.
Proof.
  intros Hb.
  destruct (init_done s Hb)
    as (s1 & c & E1 & Hc1 & Hst & Hcase & Htr & Hm & Htid & Hto & Hsq).
  pose proof (init_running s1 c Hc1 Hst) as E2.
  exists s1. split; [exact E1 |]. split; [exact E2 |].
  split; [unfold andThen at 1; rewrite E1; exact E2 |].
  split.
  - destruct (ctx s) as [c0 |] eqn:Hc0.
    + destruct Hcase as (Hc & Hg & Hr & Hrp).
      repeat split; try assumption.
      unfold voices. rewrite Hc1, Hc0, Hc. reflexivity.
    + destruct Hcase as (c0 & _ & _ & Hg & Hr). split; [| exact Hg].
      unfold initialised. rewrite Hc1, Hg, Hr. reflexivity.
  - split; [exact Htr |]. split; [exact Hm |].
    unfold timersOf. unfold transport in Htr.
    injection Htr as Hp _ _ _ _. congruence.
Qed.

(** X6. Without a backend ([new AudioContext] not available and no
    context yet) [init] throws and leaves the state as it was, and
    [startBGM] throws as well: a playing session has been stopped by
    then, nothing is pending, the rest of the transport is as before. *)
Theorem start_without_backend (s : State) (i : Intensity) (fuel : nat) :
  hasBackend newAudioContext s = false -> singleLoop s = true ->
  init Math_random Math_pow newAudioContext s = Throw s
  /\ exists s0,
       startBGM Math_random Math_pow newAudioContext fuel i s = Throw s0
       /\ isPlaying s0 = false /\ timeouts s0 = [] /\ ctx s0 = None
       /\ tempo s0 = tempo s /\ current16thNote s0 = current16thNote s
       /\ nextNoteTime s0 = nextNoteTime s /\ intensity s0 = intensity s
       /\ isMuted s0 = isMuted s.
Proof.
  intros Hb Hinv. unfold hasBackend in Hb.
  destruct (ctx s) as [c |] eqn:Hc; [discriminate Hb |].
  destruct newAudioContext as [c0 |] eqn:Hn; [discriminate Hb |].
  split.
  { unfold init, andThen. rewrite Hc. reflexivity. }
  destruct (stop_first s Hinv)
    as (s0 & E0 & Hp0 & Hto0 & Hsq0 & Htid0 & Hx0 & Hm0 & _).
  exists s0. split.
  { unfold startBGM. unfold andThen at 1. cbv beta. rewrite E0.
    unfold andThen at 1. unfold init, andThen. rewrite Hx0, Hc.
    reflexivity. }
  split; [exact Hp0 |]. split; [exact Hto0 |].
  split; [rewrite Hx0; exact Hc |].
  clear - E0. destruct s as [x m p t n k tid ity g r to sq rp].
  destruct p; simpl in E0; injection E0 as <-; repeat split; reflexivity.
Qed.

(** X7. The sound effects are independent of the transport: in every
    state and however the call ends, [playSliceSfx] and [playBombSfx]
    leave the transport, the muted flag, the timeouts and the mix nodes
    as they were, and add at most one voice, which starts at the current
    time of the context and feeds the master bus only. *)
Theorem sfx_frame (s : State) :
  forall p : Proc, p = playSliceSfx \/ p = playBombSfx ->
    shellOf (stateOf (p s) s) = shellOf s
    /\ (voices (stateOf (p s) s) = voices s
        \/ exists v c,
             ctx s = Some c /\ isMuted s = false
             /\ voices (stateOf (p s) s) = v :: voices s
             /\ v_start v = currentTime c
             /\ v_toMaster v = true /\ v_toReverb v = false).
Proof.
  intros p [-> | ->]; (split; [first [apply keeps_playSliceSfx
                                      | apply keeps_playBombSfx] |]);
    destruct s as [x m q t n k tid ity g r to sq rp];
    destruct x as [[ct sr st gr] |]; try (left; reflexivity);
    destruct m; try (left; reflexivity);
    destruct g; try (left; reflexivity);
    right; eexists _, _; repeat split; reflexivity.
Qed.

(** *** The look-ahead window *)

Lemma keeps_clock_randomIndex (n : Q) (k : Z -> Proc) :
  (forall idx, keeps clockOf (k idx)) ->
  keeps clockOf (fun s => let '(idx, s1) := randomIndex Math_random n s in
                          k idx s1).
Proof.
  intros Hk s. unfold randomIndex.
  specialize (Hk (Qfloor (Math_random (randomPos s) * n))
                 (set_randomPos (S (randomPos s)) s)).
  destruct (k _ _) as [s1 | s1 |]; simpl in *; [| | reflexivity];
    rewrite Hk; destruct s; reflexivity.
Qed.

(** Scheduling voices never moves the clock. *)
Lemma keeps_clock_scheduleNote b time :
  keeps clockOf (scheduleNote Math_random b time).
Proof.
  intros s. unfold scheduleNote. destruct (isMuted s); [reflexivity |].
  revert s.
  repeat first
    [ apply (keeps_seq clockOf) | apply (keeps_ifHigh clockOf)
    | apply (keeps_when clockOf) | apply (keeps_if clockOf)
    | apply (keeps_skip clockOf)
    | apply (keeps_clock_randomIndex _
               (fun idx => playSynth time (scaleAt idx) 0.1));
      intros idx
    | apply (keeps_clock_randomIndex _
               (fun idx => playSynth time
                             (option_map (fun n => n * 2) (scaleAt idx)) 0.5));
      intros idx
    | match goal with
      | |- keeps clockOf (playBass _ ?f _) =>
          intros s; destruct f; keeps_brute s
      | |- keeps clockOf (playSynth _ ?f _) =>
          intros s; destruct f; keeps_brute s
      | |- keeps clockOf _ => intros s; keeps_brute s
      end ].
Qed.

(** Where the [while] loop leaves [nextNoteTime], whenever it returns:
    at or past the look-ahead limit, and less than one sixteenth past it
    if the loop ran at all. *)
Lemma schedulerLoop_window (fuel : nat) : forall (s s' : State) (c : AudioContext),
  0 < tempo s -> ctx s = Some c ->
  schedulerLoop Math_random fuel s = Done s' ->
  currentTime c + scheduleAheadTime <= nextNoteTime s'
  /\ tempo s' = tempo s /\ clockOf s' = clockOf s
  /\ ((currentTime c + scheduleAheadTime <= nextNoteTime s /\ s' = s)
      \/ (nextNoteTime s < currentTime c + scheduleAheadTime
          /\ nextNoteTime s' - secondsPerSixteenth (tempo s)
             < currentTime c + scheduleAheadTime)).
Proof.
  induction fuel as [| fuel IH]; intros s s' c Htempo Hc E; [discriminate E |].
  cbn [schedulerLoop] in E. rewrite Hc in E.
  destruct (Qltb (nextNoteTime s) (currentTime c + scheduleAheadTime)) eqn:Hq.
  2:{ injection E as <-. apply Qltb_ge in Hq.
      split; [exact Hq |]. split; [reflexivity |]. split; [reflexivity |].
      left. split; [exact Hq | reflexivity]. }
  apply Qltb_lt in Hq. unfold andThen in E.
  pose proof (keeps_scheduleNote (current16thNote s) (nextNoteTime s) s) as Ksh.
  pose proof (keeps_clock_scheduleNote (current16thNote s) (nextNoteTime s) s)
    as Kcl.
  destruct (scheduleNote Math_random (current16thNote s) (nextNoteTime s) s)
    as [s1 | s1 |]; try discriminate E.
  cbn [stateOf] in Ksh, Kcl. rewrite nextNote_advance in E.
  unfold shellOf in Ksh. injection Ksh as _ _ Ht1 Hn1 _ _ _ _ _ _ _.
  destruct (advance_fields s1) as (At & Atempo & _ & _ & Actx & _).
  assert (Hc1 : exists c1, ctx s1 = Some c1 /\ currentTime c1 = currentTime c).
  { unfold clockOf in Kcl. rewrite Hc in Kcl.
    destruct (ctx s1) as [c1 |]; [| discriminate Kcl].
    exists c1. split; [reflexivity |]. simpl in Kcl. congruence. }
  destruct Hc1 as (c1 & Hc1 & Hclock).
  assert (Htempo' : 0 < tempo (advance s1)) by (rewrite Atempo, Ht1; exact Htempo).
  destruct (IH (advance s1) s' c1 Htempo' (eq_trans Actx Hc1) E)
    as (Hreach & Htp & Hck & Hcase).
  rewrite Hclock in Hreach, Hcase.
  split; [exact Hreach |].
  split; [rewrite Htp, Atempo; exact Ht1 |].
  split.
  { rewrite Hck. unfold clockOf. rewrite Actx. exact Kcl. }
  right. split; [exact Hq |].
  destruct Hcase as [[_ ->] | [_ Hlt]].
  - rewrite At, Hn1, Ht1. lra.
  - rewrite Atempo, Ht1 in Hlt. exact Hlt.
Qed.

(** A tick that finds [nextNoteTime] at or past the limit only arms the
    next tick. *)
Lemma idle_tick (u : State) (c : AudioContext) (fuel : nat) :
  ctx u = Some c -> isPlaying u = true ->
  currentTime c + scheduleAheadTime <= nextNoteTime u ->
  scheduler Math_random (S fuel) u = Done (armed u).
Proof.
  intros Hc Hp Hn. unfold scheduler. rewrite Hp, Hc. cbn [negb orb].
  unfold andThen. cbn [schedulerLoop]. rewrite Hc.
  apply Qltb_ge in Hn. rewrite Hn. reflexivity.
Qed.

(** X8. A tick of a playing, initialised service with a positive tempo
    leaves [nextNoteTime] at or past [currentTime + 0.1]; if it was below
    that limit before, it ends less than one sixteenth note past it (the
    tick catches up with the clock, however late it runs, and schedules
    no step beyond the window); if it was at or past the limit the tick
    schedules nothing.  A second tick at the same clock therefore
    schedules no voice and leaves the transport as it is. *)
Theorem tick_window (s : State) (c : AudioContext) :
  fairDraws Math_random -> initialised s = true -> ctx s = Some c ->
  isPlaying s = true -> 0 < tempo s ->
  exists N : nat, forall fuel : nat, (N <= fuel)%nat ->
    exists s',
      scheduler Math_random fuel s = Done s'
      /\ currentTime c + 0.1 <= nextNoteTime s'
      /\ (nextNoteTime s < currentTime c + 0.1 ->
          nextNoteTime s' < currentTime c + 0.1 + secondsPerSixteenth (tempo s))
      /\ (currentTime c + 0.1 <= nextNoteTime s ->
          nextNoteTime s' = nextNoteTime s /\ voices s' = voices s)
      /\ exists s'',
           scheduler Math_random fuel s' = Done s''
           /\ voices s'' = voices s' /\ transport s'' = transport s'.
Proof.
  intros Hfair Hs Hc Hp Htempo.
  destruct (scheduler_tick s c Hs Hc Hp Htempo) as (N & k & _ & _ & Hrun).
  exists (S N). intros fuel Hfuel.
  destruct (Hrun (isMuted s) fuel (or_intror Hfair)) as (new & pos & E & _);
    [lia |].
  rewrite set_isMuted_same in E. clear Hrun.
  pose proof E as E'. unfold scheduler in E'. rewrite Hp, Hc in E'.
  cbn [negb orb] in E'. unfold andThen in E'.
  pose proof (keeps_schedulerLoop fuel s) as Kt.
  destruct (schedulerLoop Math_random fuel s) as [sl | sl |] eqn:El;
    try discriminate E'.
  cbn [stateOf] in Kt. unfold timersOf in Kt. injection Kt as _ _ _ Kp.
  destruct (schedulerLoop_window fuel s sl c Htempo Hc El)
    as (Hreach & Htp & Hck & Hcase).
  change scheduleAheadTime with 0.1 in Hreach, Hcase.
  exists (armed sl). split.
  { rewrite E, <- E'. reflexivity. }
  change (nextNoteTime (armed sl)) with (nextNoteTime sl).
  destruct (armed_frame sl) as (Av & _).
  split; [exact Hreach |].
  split.
  { intros Hlt. destruct Hcase as [[Hge _] | [_ Hlt']]; lra. }
  split.
  { intros Hge. destruct Hcase as [[_ ->] | [Hlt _]]; [| lra].
    split; [reflexivity | apply armed_frame]. }
  assert (Hcl : exists cl, ctx sl = Some cl /\ currentTime cl = currentTime c).
  { unfold clockOf in Hck. rewrite Hc in Hck.
    destruct (ctx sl) as [cl |]; [| discriminate Hck].
    exists cl. split; [reflexivity |]. simpl in Hck. congruence. }
  destruct Hcl as (cl & Hcl & Hclock).
  destruct fuel as [| fuel]; [lia |].
  exists (armed (armed sl)). split.
  { apply (idle_tick (armed sl) cl fuel).
    - exact Hcl.
    - change (isPlaying (armed sl)) with (isPlaying sl). congruence.
    - change (nextNoteTime (armed sl)) with (nextNoteTime sl).
      rewrite Hclock. exact Hreach. }
  destruct (armed_frame (armed sl)) as (Av2 & At2 & _).
  split; [exact Av2 | exact At2].
Qed.

(** X9. [stopBGM] halts the session without touching what was handed to
    the engine: on a state that respects the single-loop discipline it
    clears the playing flag and leaves no timeout pending, the voices,
    [current16thNote] and [nextNoteTime] stay as they are, and from then
    on neither a timeout that fires nor a direct tick does anything. *)
Theorem stop_halts (s : State) (fuel : nat) :
  singleLoop s = true ->
  exists s0,
    stopBGM s = Done s0
    /\ isPlaying s0 = false /\ timeouts s0 = []
    /\ voices s0 = voices s
    /\ current16thNote s0 = current16thNote s
    /\ nextNoteTime s0 = nextNoteTime s
    /\ scheduler Math_random fuel s0 = Done s0
    /\ (forall id : nat,
          handle Math_random Math_pow newAudioContext fuel (TimeoutFires id) s0
          = Done s0)
    /\ stopBGM s0 = Done s0.
Proof.
  intros Hinv.
  destruct s as [x m p t n k tid ity g r to sq rp].
  unfold singleLoop in Hinv. simpl in Hinv.
  apply andb_true_iff in Hinv. destruct Hinv as [_ H].
  assert (Hclear : clearTimeout tid to = []).
  { destruct to as [| id [| id' to]]; [destruct tid; reflexivity | |
                                       discriminate H].
    apply andb_true_iff in H. destruct H as [_ H].
    destruct tid as [id' |]; [| discriminate H].
    apply Nat.eqb_eq in H. subst id'. simpl.
    destruct (Nat.eq_dec id id) as [_ | ne]; [reflexivity | contradiction]. }
  eexists. split; [reflexivity |]. simpl. rewrite Hclear.
  repeat split.
  unfold stopBGM, update. simpl. destruct tid; reflexivity.
Qed.

(** X10. Muting before the mix graph exists only flips the flag, and
    doing it twice is a round trip on the whole state.  [init] does not
    look at the flag: called on a muted service it creates the master
    gain at 0.4 with no automation scheduled, and leaves the flag set. *)
Theorem mute_before_init (s : State) (c0 : AudioContext) :
  ctx s = None -> masterGain s = None -> newAudioContext = Some c0 ->
  (toggleMute ;; toggleMute) s = Done s
  /\ exists s1 s2,
       toggleMute s = Done s1
       /\ s1 = set_isMuted (negb (isMuted s)) s
       /\ init Math_random Math_pow newAudioContext s1 = Done s2
       /\ isMuted s2 = negb (isMuted s)
       /\ masterGain s2 = Some (mkGain 0.4 [])
       /\ masterTarget s2 = None.
Proof.
  intros Hc Hg Hn.
  pose proof (toggleMute_cases s) as T. rewrite Hg in T.
  split.
  { unfold andThen. rewrite T.
    pose proof (toggleMute_cases (set_isMuted (negb (isMuted s)) s)) as T2.
    replace (masterGain (set_isMuted (negb (isMuted s)) s)) with (@None GainNode)
      in T2 by (destruct s; simpl in *; congruence).
    rewrite T2. destruct s as [x m p t n k tid ity g r to sq rp].
    simpl. rewrite negb_involutive. reflexivity. }
  set (s1 := set_isMuted (negb (isMuted s)) s) in *.
  assert (Hb : hasBackend newAudioContext s1 = true)
    by (unfold hasBackend; rewrite Hn; destruct (ctx s1); reflexivity).
  destruct (init_done s1 Hb)
    as (s2 & c & E & Hc2 & _ & Hcase & _ & Hm & _).
  exists s1, s2. split; [exact T |]. split; [reflexivity |].
  split; [exact E |].
  replace (ctx s1) with (@None AudioContext) in Hcase
    by (destruct s; simpl in *; congruence).
  destruct Hcase as (c1 & _ & _ & Hg2 & _).
  split; [rewrite Hm; destruct s; reflexivity |].
  split; [exact Hg2 |]. unfold masterTarget. rewrite Hg2. reflexivity.
Qed.

(** *** The service as the game starts it *)

(** [init] and the stop of a running session commute. *)
Lemma init_after_stop (s s1 s0 : State) :
  init Math_random Math_pow newAudioContext s = Done s1 ->
  when (isPlaying s) stopBGM s = Done s0 ->
  exists t0,
    when (isPlaying s1) stopBGM s1 = Done t0
    /\ init Math_random Math_pow newAudioContext s0 = Done t0.
Proof.
  destruct s as [x m p t n k tid i g r to sq rp].
  unfold init, andThen, withCtx, when, stopBGM, update, skip.
  cbn [ctx randomPos isPlaying].
  destruct x as [[ct sr st gr] |].
  - destruct st, p; cbn; intros H1 H0; injection H1 as <-;
      injection H0 as <-; eexists; split; reflexivity.
  - destruct newAudioContext as [[ct sr st gr] |]; [| discriminate].
    destruct st, p; cbn; intros H1 H0; injection H1 as <-;
      injection H0 as <-; eexists; split; reflexivity.
Qed.

(** X20. The service as [startGame] starts it.  With a backend at hand
    and the single-loop discipline respected, [init()] followed by
    [startBGM(...)] returns, and leaves exactly what [startBGM] alone
    would leave: the explicit [init()] adds nothing.  The session runs
    at 135 bpm and high intensity on LEGEND, at 100 bpm and low
    intensity on the other levels; it starts at step 0 with its one
    timeout pending, and keeps the mute flag; the mix graph is built
    if there was no context, and complete if it was complete before. *)
Theorem startGame_audio (d : Game.Difficulty) (s : State) (fuel : nat) :
  singleLoop s = true -> hasBackend newAudioContext s = true ->
  exists s',
    Game.startGameAudio Math_random Math_pow newAudioContext (S fuel) d s
    = Done s'
    /\ startBGM Math_random Math_pow newAudioContext (S fuel)
         (match d with Game.LEGEND => high | _ => low end) s = Done s'
    /\ isPlaying s' = true
    /\ tempo s' = match d with Game.LEGEND => 135 | _ => 100 end
    /\ intensity s' = match d with Game.LEGEND => high | _ => low end
    /\ current16thNote s' = 0%Z
    /\ timeouts s' = [timeoutSeq s]
    /\ timerID s' = Some (timeoutSeq s)
    /\ isMuted s' = isMuted s
    /\ (ctx s = None \/ initialised s = true -> initialised s' = true).
Proof.
  intros Hinv Hback.
  set (i := match d with Game.LEGEND => high | _ => low end).
  destruct (init_done s Hback)
    as (s1 & c & E1 & Hc1 & Hrun & Hgr & Htr1 & Hm1 & Htid1 & Hto1 & Hsq1).
  assert (Hp1 : isPlaying s1 = isPlaying s)
    by (unfold transport in Htr1; congruence).
  assert (Hinv1 : singleLoop s1 = true).
  { rewrite <- Hinv. apply singleLoop_timers. unfold timersOf. congruence. }
  destruct (stop_first s Hinv)
    as (u0 & G0 & _ & Gto & Gsq & _ & Gx & Gm & _).
  destruct (init_after_stop s s1 u0 E1 G0) as (t0 & F0 & G1).
  destruct (stop_first s1 Hinv1)
    as (t0' & F0' & _ & Fto & Fsq & _ & Fx & Fm & Fg & Fr & _).
  assert (t0' = t0) by congruence. subst t0'.
  assert (Hct : ctx t0 = Some c) by congruence.
  assert (F1 : init Math_random Math_pow newAudioContext t0 = Done t0)
    by (apply (init_running t0 c Hct Hrun)).
  set (u := set_nextNoteTime (currentTime c + 0.1)
              (set_tempo (if isHigh i then 135 else 100)
                (set_current16thNote 0%Z
                  (set_isPlaying true (set_intensity i t0))))).
  assert (Run : forall v v0,
            when (isPlaying v) stopBGM v = Done v0 ->
            init Math_random Math_pow newAudioContext v0 = Done t0 ->
            startBGM Math_random Math_pow newAudioContext (S fuel) i v
            = Done (armed u)).
  { intros v v0 H0 H1. unfold startBGM. unfold andThen at 1. cbv beta.
    rewrite H0. unfold andThen at 1. rewrite H1. cbv beta. rewrite Hct.
    unfold andThen, update. cbv beta.
    apply (first_tick u c fuel); [exact Hct | reflexivity | reflexivity]. }
  exists (armed u).
  split.
  { unfold Game.startGameAudio. unfold andThen at 1. rewrite E1.
    apply (Run s1 t0 F0 F1). }
  split; [apply (Run s u0 G0 G1) |].
  destruct (armed_frame u) as (_ & _ & Am & _ & Ax & Ag & Ar & Atid & Ato & Asq).
  split; [reflexivity |].
  split; [unfold i; destruct d; reflexivity |].
  split; [reflexivity |]. split; [reflexivity |].
  assert (Uto : timeouts u = []) by exact Fto.
  assert (Usq : timeoutSeq u = timeoutSeq s)
    by (change (timeoutSeq t0 = timeoutSeq s); congruence).
  split; [rewrite Ato, Uto, Usq; reflexivity |].
  split; [rewrite Atid, Usq; reflexivity |].
  split; [rewrite Am; change (isMuted t0 = isMuted s); congruence |].
  intros Hs. unfold initialised in *. rewrite Ax, Ag, Ar.
  change (match ctx t0, masterGain t0, reverbNode t0 with
          | Some _, Some _, Some _ => true
          | _, _, _ => false
          end = true).
  rewrite Hct, Fg, Fr.
  destruct (ctx s) as [c0 |] eqn:Hcs.
  - destruct Hgr as (_ & Hg & Hr & _). rewrite Hg, Hr.
    destruct Hs as [Hs | Hs]; [discriminate Hs | exact Hs].
  - destruct Hgr as (c0 & _ & _ & Hg & Hr). rewrite Hg, Hr. reflexivity.
Qed.


(** *** The mix graph is never half built, and no call throws *)

Lemma wired_view (s s' : State) :
  shellOf s' = shellOf s -> clockOf s' = clockOf s -> wired s' = wired s.
Proof.
  clear. unfold shellOf, clockOf, wired. intros H C.
  injection H as _ _ _ _ _ _ _ Hg Hr _ _. rewrite Hg, Hr.
  destruct (ctx s), (ctx s'); try discriminate C; reflexivity.
Qed.

Lemma wired_fields (s s' : State) :
  ctx s' = ctx s -> masterGain s' = masterGain s ->
  reverbNode s' = reverbNode s -> wired s' = wired s.
Proof. clear. unfold wired. intros -> -> ->. reflexivity. Qed.

Lemma wired_initialised (s : State) (c : AudioContext) :
  wired s = true -> ctx s = Some c -> initialised s = true.
Proof.
  clear. unfold wired, initialised. intros H Hc. rewrite Hc in *.
  destruct (masterGain s), (reverbNode s); try discriminate H; reflexivity.
Qed.

Lemma initialised_wired (s : State) : initialised s = true -> wired s = true.
Proof.
  clear. unfold wired, initialised.
  destruct (ctx s), (masterGain s), (reverbNode s); intros H;
    try discriminate H; reflexivity.
Qed.

Lemma preserves_wired_view (p : Proc) :
  keeps shellOf p -> keeps clockOf p ->
  preserves (fun s => wired s = true) p.
Proof.
  intros K1 K2 s Hs. rewrite (wired_view _ _ (K1 s) (K2 s)). exact Hs.
Qed.

Lemma preserves_wired_nextNote : preserves (fun s => wired s = true) nextNote.
Proof.
  intros s Hs.
  destruct (nextNote_done s)
    as (s1 & E & _ & _ & _ & _ & _ & _ & Hx & Hg & Hr & _).
  rewrite E. cbn [stateOf]. rewrite (wired_fields _ _ Hx Hg Hr). exact Hs.
Qed.

Lemma preserves_wired_schedulerLoop (fuel : nat) :
  preserves (fun s => wired s = true) (schedulerLoop Math_random fuel).
Proof.
  induction fuel as [| fuel IH]; intros s Hs; [exact Hs |].
  cbn [schedulerLoop]. destruct (ctx s) as [c |]; [| exact Hs].
  destruct (Qltb _ _); [| exact Hs].
  apply (preserves_seq (fun s => wired s = true) _ _
           (preserves_wired_view _ (keeps_scheduleNote _ _)
              (keeps_clock_scheduleNote _ _))
           (preserves_seq (fun s => wired s = true) _ _
              preserves_wired_nextNote IH));
    exact Hs.
Qed.

Lemma preserves_wired_scheduler (fuel : nat) :
  preserves (fun s => wired s = true) (scheduler Math_random fuel).
Proof.
  intros s Hs. unfold scheduler.
  destruct (negb (isPlaying s) || _); [exact Hs |].
  assert (Harm : preserves (fun s => wired s = true) setTimeout)
    by (intros u Hu; destruct u; exact Hu).
  apply (preserves_seq (fun s => wired s = true) _ _
           (preserves_wired_schedulerLoop fuel) Harm s Hs).
Qed.

Lemma preserves_wired_init :
  preserves (fun s => wired s = true)
            (init Math_random Math_pow newAudioContext).
Proof.
  intros s Hs. destruct s as [x m p t n k tid ity g r to sq rp].
  unfold init, andThen, withCtx. simpl.
  destruct x as [[ct sr [] gr] |]; try exact Hs.
  destruct newAudioContext as [[ct sr [] gr] |]; [reflexivity .. | exact Hs].
Qed.

Lemma preserves_wired_startBGM (fuel : nat) (i : Intensity) :
  preserves (fun s => wired s = true)
            (startBGM Math_random Math_pow newAudioContext fuel i).
Proof.
  unfold startBGM. apply preserves_seq; [| apply preserves_seq].
  - intros s Hs. destruct (isPlaying s); [destruct s |]; exact Hs.
  - apply preserves_wired_init.
  - intros s Hs. destruct (ctx s) as [c |]; [| exact Hs].
    apply (preserves_seq (fun s => wired s = true));
      [| apply preserves_wired_scheduler | exact Hs].
    apply preserves_update. intros u Hu. destruct u; exact Hu.
Qed.

Lemma keeps_clock_sfx :
  keeps clockOf playSliceSfx /\ keeps clockOf playBombSfx.
Proof.
  split; intros s; destruct s as [x m p t n k tid ity g r to sq rp];
    destruct x as [[ct sr st gr] |], m, g; reflexivity.
Qed.

(** Every event keeps the mix graph whole, however the call ends. *)
Lemma wired_invariant (fuel : nat) (e : Event) (s : State) :
  wired s = true ->
  wired (stateOf (handle Math_random Math_pow newAudioContext fuel e s) s)
  = true.
Proof.
  intros Hs. destruct e as [| i | | | | | id | t]; cbn [handle].
  - apply preserves_wired_init. exact Hs.
  - apply preserves_wired_startBGM. exact Hs.
  - destruct s; exact Hs.
  - pose proof (toggleMute_cases s) as H.
    destruct (masterGain s) eqn:Hg; [destruct (ctx s) eqn:Hc |];
      rewrite H; cbn [stateOf]; unfold wired in *;
      destruct s; simpl in *; rewrite ?Hg, ?Hc in *; exact Hs.
  - apply (preserves_wired_view _ keeps_playSliceSfx (proj1 keeps_clock_sfx)).
    exact Hs.
  - apply (preserves_wired_view _ keeps_playBombSfx (proj2 keeps_clock_sfx)).
    exact Hs.
  - destruct (existsb (Nat.eqb id) (timeouts s)); [| exact Hs].
    assert (Hs' : wired (set_timeouts (remove Nat.eq_dec id (timeouts s)) s)
                  = true) by (destruct s; exact Hs).
    pose proof (preserves_wired_scheduler fuel _ Hs') as H.
    destruct (scheduler Math_random fuel _); exact H || exact Hs.
  - destruct (ctx s) as [c |] eqn:Hc; [| exact Hs].
    destruct (Qle_bool (currentTime c) t); [| exact Hs].
    unfold wired in *. destruct s; simpl in *. rewrite Hc in Hs. exact Hs.
Qed.

Lemma scheduleNote_returns (b : Z) (time : Q) (s : State) :
  fairDraws Math_random -> initialised s = true ->
  exists s1,
    scheduleNote Math_random b time s = Done s1 /\ initialised s1 = true.
Proof.
  intros Hfair Hs. destruct (isMuted s) eqn:Hm.
  - exists s. split; [| exact Hs]. unfold scheduleNote. rewrite Hm.
    reflexivity.
  - destruct (scheduleNote_parts b time s Hfair Hs Hm)
      as (kick & snare & hat & bass & arp & pos & E & _).
    eexists. split; [exact E |]. rewrite emitted_initialised. exact Hs.
Qed.

Lemma schedulerLoop_no_throw (fuel : nat) : forall s : State,
  fairDraws Math_random -> initialised s = true ->
  throws (schedulerLoop Math_random fuel s) = false.
Proof.
  induction fuel as [| fuel IH]; intros s Hfair Hs; [reflexivity |].
  cbn [schedulerLoop].
  destruct (ctx s) as [c |] eqn:Hc;
    [| unfold initialised in Hs; rewrite Hc in Hs; discriminate Hs].
  destruct (Qltb _ _); [| reflexivity].
  unfold andThen.
  destruct (scheduleNote_returns (current16thNote s) (nextNoteTime s) s
              Hfair Hs) as (s1 & E & Hs1).
  rewrite E, nextNote_advance. apply (IH _ Hfair).
  destruct (advance_fields s1) as (_ & _ & Hi & _). rewrite Hi. exact Hs1.
Qed.

Lemma scheduler_no_throw (fuel : nat) (s : State) :
  fairDraws Math_random -> wired s = true ->
  throws (scheduler Math_random fuel s) = false.
Proof.
  intros Hfair Hs. unfold scheduler.
  destruct (isPlaying s); [| reflexivity].
  destruct (ctx s) as [c |] eqn:Hc; [| reflexivity].
  cbn [negb orb]. unfold andThen.
  pose proof (schedulerLoop_no_throw fuel s Hfair
                (wired_initialised s c Hs Hc)) as H.
  destruct (schedulerLoop Math_random fuel s); [reflexivity | exact H
                                               | reflexivity].
Qed.

Lemma sfx_no_throw (s : State) :
  wired s = true ->
  throws (playSliceSfx s) = false /\ throws (playBombSfx s) = false.
Proof.
  clear. intros Hs. destruct s as [x m p t n k tid ity g r to sq rp].
  unfold wired in Hs. simpl in Hs.
  destruct x as [[ct sr st gr] |], m, g, r; try discriminate Hs;
    split; reflexivity.
Qed.

(** X21. The states the service can reach (from the constructed object,
    by any calls of its public methods, timeouts firing and the clock
    moving on) all have at most one scheduling loop pending, the step
    counter in 0..15, and the mix graph whole: context, master gain and
    reverb exist together.  In such a state, with draws in [0, 1), no
    call throws, except [init] and [startBGM] when there is no context
    and none can be constructed. *)
Theorem reachable_safe (s : State) :
  fairDraws Math_random ->
  reachable Math_random Math_pow newAudioContext s ->
  singleLoop s = true /\ onGrid s /\ wired s = true
  /\ forall (fuel : nat) (e : Event),
       throws (handle Math_random Math_pow newAudioContext fuel e s) = true ->
       hasBackend newAudioContext s = false
       /\ (e = CallInit \/ exists i, e = CallStartBGM i).
Proof.
  intros Hfair Hreach.
  assert (Inv : singleLoop s = true /\ onGrid s /\ wired s = true).
  { destruct (reachable_disciplined s Hreach) as [H1 H2].
    split; [exact H1 |]. split; [exact H2 |].
    clear H1 H2. induction Hreach as [| fuel e s _ IH]; [reflexivity |].
    apply wired_invariant. exact IH. }
  destruct Inv as (Hloop & Hgrid & Hw).
  split; [exact Hloop |]. split; [exact Hgrid |]. split; [exact Hw |].
  intros fuel e Ht.
  destruct (hasBackend newAudioContext s) eqn:Hback.
  - exfalso. destruct e as [| i | | | | | id | t]; cbn [handle] in Ht.
    + destruct (init_done s Hback) as (s1 & c & E & _).
      rewrite E in Ht. discriminate Ht.
    + destruct (stop_first s Hloop)
        as (s0 & E0 & _ & _ & _ & _ & Hx0 & _ & Hg0 & Hr0 & _).
      assert (Hw0 : wired s0 = true)
        by (rewrite (wired_fields _ _ Hx0 Hg0 Hr0); exact Hw).
      assert (Hback0 : hasBackend newAudioContext s0 = true)
        by (unfold hasBackend in *; rewrite Hx0; exact Hback).
      destruct (init_done s0 Hback0) as (s1 & c & E1 & Hc1 & _).
      pose proof (preserves_wired_init s0 Hw0) as Hw1.
      rewrite E1 in Hw1. cbn [stateOf] in Hw1.
      unfold startBGM in Ht. unfold andThen at 1 in Ht. cbv beta in Ht.
      rewrite E0 in Ht. unfold andThen at 1 in Ht. rewrite E1 in Ht.
      cbv beta in Ht. rewrite Hc1 in Ht.
      unfold andThen, update in Ht. cbv beta in Ht.
      rewrite scheduler_no_throw in Ht; [discriminate Ht | exact Hfair |].
      destruct s1; exact Hw1.
    + discriminate Ht.
    + pose proof (toggleMute_cases s) as H.
      destruct (masterGain s) eqn:Hg; [destruct (ctx s) eqn:Hc |];
        rewrite H in Ht; try discriminate Ht.
      unfold wired in Hw. rewrite Hc, Hg in Hw. discriminate Hw.
    + rewrite (proj1 (sfx_no_throw s Hw)) in Ht. discriminate Ht.
    + rewrite (proj2 (sfx_no_throw s Hw)) in Ht. discriminate Ht.
    + destruct (existsb (Nat.eqb id) (timeouts s)); [| discriminate Ht].
      rewrite scheduler_no_throw in Ht; [discriminate Ht | exact Hfair |].
      destruct s; exact Hw.
    + destruct (ctx s) as [c |]; [| discriminate Ht].
      destruct (Qle_bool (currentTime c) t); discriminate Ht.
  - split; [reflexivity |].
    assert (Hc : ctx s = None)
      by (unfold hasBackend in Hback; destruct (ctx s); [| reflexivity];
          destruct newAudioContext; discriminate Hback).
    destruct e as [| i | | | | | id | t]; cbn [handle] in Ht.
    + left. reflexivity.
    + right. exists i. reflexivity.
    + discriminate Ht.
    + pose proof (toggleMute_cases s) as H.
      destruct (masterGain s) eqn:Hg; [| rewrite H in Ht; discriminate Ht].
      unfold wired in Hw. rewrite Hc, Hg in Hw. discriminate Hw.
    + rewrite (proj1 (sfx_no_throw s Hw)) in Ht. discriminate Ht.
    + rewrite (proj2 (sfx_no_throw s Hw)) in Ht. discriminate Ht.
    + destruct (existsb (Nat.eqb id) (timeouts s)); [| discriminate Ht].
      rewrite scheduler_no_throw in Ht; [discriminate Ht | exact Hfair |].
      destruct s; exact Hw.
    + rewrite Hc in Ht. discriminate Ht.
Qed.


(** *** One bar of sixteen steps *)

(** X22. The step counter counts modulo 16, whatever the tempo: from a
    step in 0..15, [k] advances lead to step [(step + k) mod 16], still
    in 0..15, and the counter has period 16: [k + 16 j] advances lead to
    the same step as [k] advances. *)
Theorem bar_cycle (s : State) (k j : nat) :
  onGrid s ->
  current16thNote (Nat.iter k advance s)
  = ((current16thNote s + Z.of_nat k) mod 16)%Z
  /\ onGrid (Nat.iter k advance s)
  /\ current16thNote (Nat.iter (k + 16 * j) advance s)
     = current16thNote (Nat.iter k advance s).
Proof.
  clear Math_random Math_pow newAudioContext.
  intros Hs.
  destruct (iter_advance_fields k s) as (_ & Hg & _).
  destruct (Hg Hs) as [Hg1 Hg2].
  destruct (iter_advance_fields (k + 16 * j) s) as (_ & Hgj & _).
  destruct (Hgj Hs) as [_ Hcj].
  split; [exact Hg2 |]. split; [exact Hg1 |].
  rewrite Hcj, Hg2, Nat2Z.inj_add, Nat2Z.inj_mul.
  change (Z.of_nat 16) with 16%Z.
  rewrite Z.add_assoc, (Z.mul_comm 16). apply Z_mod_plus_full.
Qed.


(** *** The master gain follows the mute flag *)

Lemma follows_view (s s' : State) :
  muteView s' = muteView s -> gainFollowsMute s -> gainFollowsMute s'.
Proof.
  clear. unfold muteView, gainFollowsMute, masterTarget.
  intros H. injection H as Hm Hg. rewrite Hm, Hg. tauto.
Qed.

Lemma shell_mute (s s' : State) :
  shellOf s' = shellOf s -> muteView s' = muteView s.
Proof.
  clear. unfold shellOf, muteView. intros H.
  injection H as Hm _ _ _ _ _ _ Hg _ _ _. congruence.
Qed.

Lemma keeps_mute_nextNote : keeps muteView nextNote.
Proof.
  intros s. destruct s as [x m p t n k tid ity g r to sq rp].
  unfold nextNote. simpl. destruct (k + 1 =? 16)%Z; reflexivity.
Qed.

Lemma keeps_mute_schedulerLoop (fuel : nat) :
  keeps muteView (schedulerLoop Math_random fuel).
Proof.
  induction fuel as [| fuel IH]; intros s; [reflexivity |].
  cbn [schedulerLoop]. destruct (ctx s) as [c |]; [| reflexivity].
  destruct (Qltb _ _); [| reflexivity].
  apply (keeps_seq muteView _ _
           (fun u => shell_mute _ _ (keeps_scheduleNote _ _ u))
           (keeps_seq muteView _ _ keeps_mute_nextNote IH)).
Qed.

Lemma keeps_mute_scheduler (fuel : nat) :
  keeps muteView (scheduler Math_random fuel).
Proof.
  intros s. unfold scheduler.
  destruct (negb (isPlaying s) || _); [reflexivity |].
  assert (Harm : keeps muteView setTimeout) by (intros u; destruct u; reflexivity).
  apply (keeps_seq muteView _ _ (keeps_mute_schedulerLoop fuel) Harm s).
Qed.

Lemma preserves_follows_init :
  preserves gainFollowsMute (init Math_random Math_pow newAudioContext).
Proof.
  intros s Hs. destruct s as [x m p t n k tid ity g r to sq rp].
  unfold init, andThen, withCtx. simpl.
  destruct x as [[ct sr [] gr] |]; try exact Hs.
  destruct newAudioContext as [[ct sr [] gr] |]; [| | exact Hs];
    (split; [intros g0 Hg0; injection Hg0 as <-; reflexivity
            | left; reflexivity]).
Qed.

Lemma preserves_follows_startBGM (fuel : nat) (i : Intensity) :
  preserves gainFollowsMute
            (startBGM Math_random Math_pow newAudioContext fuel i).
Proof.
  unfold startBGM. apply preserves_seq; [| apply preserves_seq].
  - intros s Hs. destruct (isPlaying s); [destruct s |]; exact Hs.
  - apply preserves_follows_init.
  - intros s Hs. destruct (ctx s) as [c |]; [| exact Hs].
    apply (preserves_seq gainFollowsMute);
      [| apply (keeps_preserves muteView gainFollowsMute _ follows_view
                  (keeps_mute_scheduler fuel))
       | exact Hs].
    apply preserves_update. intros u Hu. destruct u; exact Hu.
Qed.

(** Every event of a service whose mix graph is whole keeps the master
    gain in line with the mute flag, however the call ends. *)
Lemma follows_invariant (fuel : nat) (e : Event) (s : State) :
  wired s = true -> gainFollowsMute s ->
  gainFollowsMute
    (stateOf (handle Math_random Math_pow newAudioContext fuel e s) s).
Proof.
  intros Hw Hs. destruct e as [| i | | | | | id | t]; cbn [handle].
  - apply preserves_follows_init. exact Hs.
  - apply preserves_follows_startBGM. exact Hs.
  - destruct s; exact Hs.
  - pose proof (toggleMute_cases s) as H.
    destruct (masterGain s) as [g |] eqn:Hg; [destruct (ctx s) eqn:Hc |];
      rewrite H; cbn [stateOf].
    + destruct Hs as [Hv _]. specialize (Hv g Hg).
      destruct s as [x m p t n k tid ity g0 r to sq rp].
      unfold gainFollowsMute, masterTarget. simpl in *.
      split; [intros g1 Hg1; injection Hg1 as <-; exact Hv |].
      right. destruct m; reflexivity.
    + unfold wired in Hw. rewrite Hc, Hg in Hw. discriminate Hw.
    + destruct s as [x m p t n k tid ity g0 r to sq rp].
      unfold gainFollowsMute, masterTarget. simpl in *. subst g0.
      split; [intros g1 Hg1; discriminate Hg1 | left; reflexivity].
  - apply (follows_view s); [| exact Hs].
    apply shell_mute, keeps_playSliceSfx.
  - apply (follows_view s); [| exact Hs].
    apply shell_mute, keeps_playBombSfx.
  - destruct (existsb (Nat.eqb id) (timeouts s)); [| exact Hs].
    assert (Hs' : gainFollowsMute
                    (set_timeouts (remove Nat.eq_dec id (timeouts s)) s))
      by (destruct s; exact Hs).
    pose proof (keeps_preserves muteView gainFollowsMute _ follows_view
                  (keeps_mute_scheduler fuel) _ Hs') as H.
    destruct (scheduler Math_random fuel _); exact H || exact Hs.
  - destruct (ctx s) as [c |] eqn:Hc; [| exact Hs].
    destruct (Qle_bool (currentTime c) t); [| exact Hs].
    destruct s; exact Hs.
Qed.

Lemma reachable_wired (s : State) :
  reachable Math_random Math_pow newAudioContext s -> wired s = true.
Proof.
  induction 1 as [| fuel e s _ IH]; [reflexivity |].
  apply wired_invariant. exact IH.
Qed.

(** X23. In every state the service can reach, the master gain follows
    the mute flag: the gain node, if there is one, has the value 0.4 it
    was created with, and either it was never automated, or the target
    of its latest [setTargetAtTime] is 0 when [isMuted] is set and 0.4
    when it is not.  No sequence of calls leaves the flag and the
    automation of the gain out of step. *)
Theorem mute_follows (s : State) :
  reachable Math_random Math_pow newAudioContext s ->
  (forall g, masterGain s = Some g -> gain_value g = 0.4)
  /\ (masterTarget s = None
      \/ masterTarget s = Some (if isMuted s then 0 else 0.4)).
Proof.
  intros Hreach. change (gainFollowsMute s).
  induction Hreach as [| fuel e s Hreach IH].
  - split; [intros g Hg; discriminate Hg | left; reflexivity].
  - apply follows_invariant; [apply reachable_wired; exact Hreach | exact IH].
Qed.


End Properties.

(** ** The theorems at work on the small backend *)

Lemma kick_pattern_witness :
  exists s' new,
    scheduleNote (constantDraws 0.5) 4 0.1 (demoState high) = Done s'
    /\ voices s' = new ++ voices (demoState high)
    /\ (filter (playedBy Kick) new = [kickVoice 0.1]
        \/ filter (playedBy Kick) new = [])
    /\ (filter (playedBy Kick) new = [kickVoice 0.1] <->
        match intensity (demoState high) with
        | high => (4 mod 4 = 0)%Z
        | low => (4 = 0 \/ 4 = 10)%Z
        end)
    /\ ((4 mod 4 = 0)%Z <-> In 4%Z [0; 4; 8; 12]%Z).
Proof.
  apply (kick_pattern (constantDraws 0.5) 4 0.1 (demoState high)).
  - intros n. vm_compute. split; [discriminate | reflexivity].
  - reflexivity.
  - reflexivity.
  - lia.
Defined.

Lemma arp_notes_witness :
  exists s' new,
    scheduleNote (constantDraws 0.5) 3 0.1 (demoState high) = Done s'
    /\ voices s' = new ++ voices (demoState high)
    /\ ((In 3%Z [0; 3; 6; 9; 12; 14]%Z
         /\ exists f, drawnNote (constantDraws 0.5) 4 f
              /\ In f (firstn 4 scale)
              /\ filter (playedBy Synth) new = [synthVoice 0.1 f 0.1])
        \/ (~ In 3%Z [0; 3; 6; 9; 12; 14]%Z
            /\ filter (playedBy Synth) new = [])).
Proof.
  destruct (arp_notes (constantDraws 0.5) 3 0.1 (demoState high))
    as (s' & new & E & V & A & _).
  - intros n. vm_compute. split; [discriminate | reflexivity].
  - reflexivity.
  - reflexivity.
  - exists s', new. split; [exact E |]. split; [exact V | exact A].
Defined.



Lemma startBGM_restart_witness :
  exists s',
    startBGM (constantDraws 0.5) demoPow (Some demoContext) 1 high
      (demoState low) = Done s'
    /\ current16thNote s' = 0%Z /\ tempo s' = 135
    /\ isPlaying s' = true /\ timeouts s' = [1%nat].
Proof.
  destruct (startBGM_restart (constantDraws 0.5) demoPow (Some demoContext)
              (demoState low) high 1)
    as (s0 & s1 & c & s' & _ & _ & _ & _ & _ & E & Hc & Ht & _ & Hp & _ & _
        & Hto & _).
  - reflexivity.
  - reflexivity.
  - lia.
  - exists s'. repeat split; assumption.
Defined.

Lemma impulse_response_witness :
  exists buf,
    createImpulseResponse (constantDraws 0.5) demoPow demoContext 2.0 2.0
      false 0 = (buf, 32%nat)
    /\ length (left buf) = 16%nat /\ length (right buf) = 16%nat.
Proof.
  destruct (impulse_response (constantDraws 0.5) demoPow demoContext 2.0 2.0
              false 0 16) as (buf & E & Hl & Hr & _).
  - vm_compute. reflexivity.
  - exists buf. repeat split; assumption.
Defined.

Lemma snare_pattern_witness :
  exists s' new noise,
    scheduleNote (constantDraws 0.5) 4 0.1 (demoState low) = Done s'
    /\ voices s' = new ++ voices (demoState low)
    /\ filter (playedBy Snare) new = [snareVoice 0.1 noise].
Proof.
  destruct (snare_pattern (constantDraws 0.5) 4 0.1 (demoState low))
    as (s' & new & E & V & [(_ & noise & F) | (H & _)]).
  - intros n. vm_compute. split; [discriminate | reflexivity].
  - reflexivity.
  - reflexivity.
  - lia.
  - exists s', new, noise. split; [exact E |]. split; [exact V | exact F].
  - exfalso. apply H. reflexivity.
Defined.

Lemma hihat_pattern_witness :
  exists s' new noise,
    scheduleNote (constantDraws 0.5) 3 0.1 (demoState high) = Done s'
    /\ voices s' = new ++ voices (demoState high)
    /\ filter (playedBy HiHat) new = [hiHatVoice 0.1 0.03 noise].
Proof.
  destruct (hihat_pattern (constantDraws 0.5) 3 0.1 (demoState high))
    as (s' & new & E & V & [(H & _) | [(_ & _ & noise & F) | (_ & H & _)]]).
  - intros n. vm_compute. split; [discriminate | reflexivity].
  - reflexivity.
  - reflexivity.
  - lia.
  - exfalso. discriminate H.
  - exists s', new, noise. split; [exact E |]. split; [exact V | exact F].
  - exfalso. discriminate H.
Defined.

Lemma bass_pattern_witness :
  exists s' new,
    scheduleNote (constantDraws 0.5) 0 0.1 (demoState low) = Done s'
    /\ voices s' = new ++ voices (demoState low)
    /\ filter (playedBy Bass) new = [bassVoice 0.1 (130.81 / 2) 2].
Proof.
  destruct (bass_pattern (constantDraws 0.5) 0 0.1 (demoState low))
    as (s' & new & E & V & _ & _ & [(_ & F) | (H & _)]).
  - intros n. vm_compute. split; [discriminate | reflexivity].
  - reflexivity.
  - reflexivity.
  - lia.
  - exists s', new. split; [exact E |]. split; [exact V | exact F].
  - exfalso. apply H. reflexivity.
Defined.

Lemma voice_routing_witness :
  exists s' new,
    scheduleNote (constantDraws 0.5) 0 0.1 (demoState high) = Done s'
    /\ voices s' = new ++ voices (demoState high)
    /\ (length new <= 5)%nat
    /\ Forall (wellRouted 0.1) new.
Proof.
  apply (voice_routing (constantDraws 0.5) 0 0.1 (demoState high)).
  - intros n. vm_compute. split; [discriminate | reflexivity].
  - reflexivity.
  - reflexivity.
Defined.

Lemma init_idempotent_witness :
  exists s1,
    init (constantDraws 0.5) demoPow (Some demoContext) initial = Done s1
    /\ init (constantDraws 0.5) demoPow (Some demoContext) s1 = Done s1
    /\ initialised s1 = true.
Proof.
  destruct (init_idempotent (constantDraws 0.5) demoPow (Some demoContext)
              initial) as (s1 & E1 & E2 & _ & (Hi & _) & _).
  - reflexivity.
  - exists s1. split; [exact E1 |]. split; [exact E2 | exact Hi].
Defined.

Lemma start_without_backend_witness :
  init (constantDraws 0.5) demoPow None initial = Throw initial
  /\ exists s0,
       startBGM (constantDraws 0.5) demoPow None 1 high initial = Throw s0
       /\ isPlaying s0 = false /\ ctx s0 = None.
Proof.
  destruct (start_without_backend (constantDraws 0.5) demoPow None initial
              high 1) as (E & s0 & E0 & Hp & _ & Hc & _).
  - reflexivity.
  - reflexivity.
  - split; [exact E |]. exists s0. split; [exact E0 |].
    split; [exact Hp | exact Hc].
Defined.

Lemma sfx_frame_witness :
  shellOf (stateOf (playBombSfx (demoState low)) (demoState low))
  = shellOf (demoState low).
Proof.
  destruct (sfx_frame (demoState low) playBombSfx) as (H & _).
  - right. reflexivity.
  - exact H.
Defined.

Lemma tick_window_witness :
  exists N : nat, forall fuel : nat, (N <= fuel)%nat ->
    exists s',
      scheduler (constantDraws 0.5) fuel (set_nextNoteTime 0 (demoState high))
        = Done s'
      /\ 0 + 0.1 <= nextNoteTime s'
      /\ nextNoteTime s' < 0 + 0.1 + secondsPerSixteenth 135.
Proof.
  destruct (tick_window (constantDraws 0.5)
              (set_nextNoteTime 0 (demoState high)) (resume demoContext))
    as (N & H).
  - intros n. vm_compute. split; [discriminate | reflexivity].
  - reflexivity.
  - reflexivity.
  - reflexivity.
  - reflexivity.
  - exists N. intros fuel Hfuel.
    destruct (H fuel Hfuel) as (s' & E & L & U & _).
    exists s'. split; [exact E |]. split; [exact L |].
    apply U. reflexivity.
Defined.

Lemma stop_halts_witness :
  exists s0,
    stopBGM (demoState high) = Done s0
    /\ isPlaying s0 = false /\ timeouts s0 = []
    /\ scheduler (constantDraws 0.5) 5 s0 = Done s0.
Proof.
  destruct (stop_halts (constantDraws 0.5) demoPow (Some demoContext)
              (demoState high) 5)
    as (s0 & E & Hp & Hto & _ & _ & _ & Hs & _).
  - reflexivity.
  - exists s0. split; [exact E |]. split; [exact Hp |].
    split; [exact Hto | exact Hs].
Defined.

Lemma mute_before_init_witness :
  (toggleMute ;; toggleMute) initial = Done initial
  /\ exists s1 s2,
       toggleMute initial = Done s1
       /\ init (constantDraws 0.5) demoPow (Some demoContext) s1 = Done s2
       /\ isMuted s2 = true
       /\ masterGain s2 = Some (mkGain 0.4 [])
       /\ masterTarget s2 = None.
Proof.
  destruct (mute_before_init (constantDraws 0.5) demoPow (Some demoContext)
              initial demoContext)
    as (E & s1 & s2 & E1 & _ & E2 & Hm & Hg & Ht).
  - reflexivity.
  - reflexivity.
  - reflexivity.
  - split; [exact E |]. exists s1, s2. split; [exact E1 |].
    split; [exact E2 |]. split; [exact Hm |]. split; [exact Hg | exact Ht].
Defined.

Lemma startGame_audio_witness :
  exists s',
    Game.startGameAudio (constantDraws 0.5) demoPow (Some demoContext) 1
      Game.LEGEND initial = Done s'
    /\ startBGM (constantDraws 0.5) demoPow (Some demoContext) 1 high initial
       = Done s'
    /\ isPlaying s' = true /\ tempo s' = 135 /\ initialised s' = true.
Proof.
  destruct (startGame_audio (constantDraws 0.5) demoPow (Some demoContext)
              Game.LEGEND initial 0)
    as (s' & E1 & E2 & Hp & Ht & _ & _ & _ & _ & _ & Hi).
  - reflexivity.
  - reflexivity.
  - exists s'. split; [exact E1 |]. split; [exact E2 |].
    split; [exact Hp |]. split; [exact Ht |]. apply Hi. left. reflexivity.
Defined.

Lemma reachable_safe_witness :
  singleLoop
    (stateOf (handle (constantDraws 0.5) demoPow (Some demoContext) 1
                (CallStartBGM low) initial) initial) = true
  /\ wired
       (stateOf (handle (constantDraws 0.5) demoPow (Some demoContext) 1
                   (CallStartBGM low) initial) initial) = true
  /\ throws
       (handle (constantDraws 0.5) demoPow (Some demoContext) 3
          CallPlayBombSfx
          (stateOf (handle (constantDraws 0.5) demoPow (Some demoContext) 1
                      (CallStartBGM low) initial) initial)) = false.
Proof.
  destruct (reachable_safe (constantDraws 0.5) demoPow (Some demoContext)
              (stateOf (handle (constantDraws 0.5) demoPow (Some demoContext)
                          1 (CallStartBGM low) initial) initial))
    as (H1 & _ & H3 & H4).
  - intros n. vm_compute. split; [discriminate | reflexivity].
  - apply reach_event. apply reach_initial.
  - split; [exact H1 |]. split; [exact H3 |].
    destruct (throws _) eqn:Ht; [| reflexivity].
    destruct (H4 3%nat CallPlayBombSfx Ht) as (_ & [K | (i & K)]);
      discriminate K.
Defined.

Lemma bar_cycle_witness :
  current16thNote (Nat.iter 5 advance (demoState low))
  = ((current16thNote (demoState low) + Z.of_nat 5) mod 16)%Z
  /\ current16thNote (Nat.iter (5 + 16 * 1) advance (demoState low))
     = current16thNote (Nat.iter 5 advance (demoState low)).
Proof.
  destruct (bar_cycle (demoState low) 5 1) as (H1 & _ & H2).
  - unfold onGrid. simpl. lia.
  - split; [exact H1 | exact H2].
Defined.

Lemma mute_follows_witness :
  masterTarget mutedDemo = Some 0 /\ isMuted mutedDemo = true.
Proof.
  destruct (mute_follows (constantDraws 0.5) demoPow (Some demoContext)
              mutedDemo) as (_ & [H | H]).
  - change mutedDemo
      with (stateOf
              (handle (constantDraws 0.5) demoPow (Some demoContext) 0
                 CallToggleMute
                 (stateOf (handle (constantDraws 0.5) demoPow
                             (Some demoContext) 0 CallInit initial) initial))
              (stateOf (handle (constantDraws 0.5) demoPow (Some demoContext)
                          0 CallInit initial) initial)).
    apply reach_event, reach_event, reach_initial.
  - vm_compute in H. discriminate H.
  - split; [exact H | reflexivity].
Defined.

(** ** The step advance in double precision *)

Module DoubleFacts.

Import PrimFloat FloatOps SpecFloat.
Import Double.

Lemma allBelow_spec (n : nat) : forall (p : Z) (f : Z -> bool),
  allBelow n p f = true ->
  forall k : Z, (p * 2 ^ Z.of_nat n <= k < (p + 1) * 2 ^ Z.of_nat n)%Z ->
  f k = true.
Proof.
  induction n as [| n IH]; intros p f H k Hk.
  - simpl in Hk. replace k with p by lia. exact H.
  - cbn [allBelow] in H. apply andb_true_iff in H as [H0 H1].
    rewrite Nat2Z.inj_succ, Z.pow_succ_r in Hk by lia.
    destruct (Z_lt_le_dec k ((2 * p + 1) * 2 ^ Z.of_nat n)) as [L | L].
    + apply (IH _ _ H0). nia.
    + apply (IH _ _ H1). nia.
Qed.

(** Checked for each of the 65536 multiples of 0.125 below 8192. *)
Lemma eighths_exact : allBelow 16 0 barCheck = true.
Proof. vm_compute. reflexivity. Qed.

Lemma nextNote_fields (s : Transport) :
  tempo (nextNote s) = tempo s
  /\ nextNoteTime (nextNote s)
     = (nextNoteTime s + 0.25 * (60.0 / tempo s))%float
  /\ ((0 <= current16thNote s < 16)%Z ->
      current16thNote (nextNote s) = ((current16thNote s + 1) mod 16)%Z
      /\ (0 <= current16thNote (nextNote s) < 16)%Z).
Proof.
  unfold nextNote. cbn [tempo nextNoteTime current16thNote].
  destruct (Z.eqb_spec (current16thNote s + 1) 16) as [E | E];
    cbn [tempo nextNoteTime current16thNote];
    (split; [reflexivity |]); (split; [reflexivity |]); intros H.
  - rewrite E. split; [reflexivity | lia].
  - rewrite Z.mod_small by lia. lia.
Qed.

Lemma iter_nextNote (n : nat) (s : Transport) :
  tempo s = 120%float -> (0 <= current16thNote s < 16)%Z ->
  tempo (Nat.iter n nextNote s) = 120%float
  /\ nextNoteTime (Nat.iter n nextNote s)
     = Nat.iter n (fun t => (t + 0.125)%float) (nextNoteTime s)
  /\ current16thNote (Nat.iter n nextNote s)
     = ((current16thNote s + Z.of_nat n) mod 16)%Z
  /\ (0 <= current16thNote (Nat.iter n nextNote s) < 16)%Z.
Proof.
  intros Ht Hc. induction n as [| n (I1 & I2 & I3 & I4)].
  - cbn [Nat.iter nat_rect]. rewrite Z.add_0_r, Z.mod_small by exact Hc.
    repeat split; try assumption; lia.
  - cbn [Nat.iter nat_rect] in *.
    destruct (nextNote_fields (Nat.iter n nextNote s)) as (F1 & F2 & F3).
    destruct (F3 I4) as [F4 F5]. unfold Nat.iter in *.
    split; [congruence |]. split.
    + rewrite F2, I1, I2. reflexivity.
    + split; [| exact F5]. rewrite F4, I3, Nat2Z.inj_succ.
      unfold Z.succ. rewrite Zplus_mod_idemp_l. f_equal. lia.
Qed.

(** C2, amended. At tempo 120 the increment [0.25 * (60 / tempo)]
    is the double 0.125, which is exactly one eighth, and one step
    advance sets [nextNoteTime] to the double nearest to
    [nextNoteTime + 0.125]; sixteen advances bring [current16thNote]
    back to where it started (the counter runs modulo 16) and leave
    [nextNoteTime] at the result of sixteen such rounded additions.
    From a [nextNoteTime] that is a whole number of eighths of a second
    below 8192 s every one of these additions is exact: one advance
    moves it by exactly 0.125 s and sixteen by exactly 2 s.  For every
    state the increment is [0.25 * (60 / tempo)] in double precision, a
    function of the tempo alone: no clock is read. *)
Theorem step_advance_at_120 (s : Transport) :
  tempo s = 120%float -> (0 <= current16thNote s < 16)%Z ->
  (nextNoteTime (nextNote s) = (nextNoteTime s + 0.125)%float
   /\ valueOf 0.125 == 1 # 8
   /\ current16thNote (nextNote s) = ((current16thNote s + 1) mod 16)%Z)
  /\ (current16thNote (Nat.iter 16 nextNote s) = current16thNote s
      /\ nextNoteTime (Nat.iter 16 nextNote s)
         = Nat.iter 16 (fun t => (t + 0.125)%float) (nextNoteTime s))
  /\ (forall k : Z, (0 <= k < 2 ^ 16)%Z -> nextNoteTime s = eighths k ->
      valueOf (nextNoteTime s) == k # 8
      /\ is_finite (nextNoteTime (Nat.iter 16 nextNote s)) = true
      /\ valueOf (nextNoteTime (nextNote s))
         == valueOf (nextNoteTime s) + 0.125
      /\ valueOf (nextNoteTime (Nat.iter 16 nextNote s))
         == valueOf (nextNoteTime s) + 2)
  /\ (forall u : Transport,
        nextNoteTime (nextNote u)
        = (nextNoteTime u + 0.25 * (60.0 / tempo u))%float).
Proof.
  intros Ht Hc.
  destruct (nextNote_fields s) as (_ & F2 & F3).
  destruct (iter_nextNote 16 s Ht Hc) as (_ & I2 & I3 & _).
  assert (One : nextNoteTime (nextNote s) = (nextNoteTime s + 0.125)%float)
    by (rewrite F2, Ht; reflexivity).
  split; [| split; [| split]].
  - split; [exact One |]. split; [vm_compute; reflexivity |].
    apply (F3 Hc).
  - split; [| exact I2]. rewrite I3. change (Z.of_nat 16) with 16%Z.
    rewrite <- (Z.mul_1_l 16) at 1. rewrite Z_mod_plus_full.
    apply Z.mod_small. exact Hc.
  - intros k Hk Hx.
    pose proof (allBelow_spec 16 0 barCheck eighths_exact k) as B.
    assert (Hk' : (0 * 2 ^ Z.of_nat 16 <= k < (0 + 1) * 2 ^ Z.of_nat 16)%Z)
      by (change (Z.of_nat 16) with 16%Z; lia).
    specialize (B Hk'). unfold barCheck in B. cbv zeta in B.
    repeat (apply andb_true_iff in B; destruct B as [B ?]).
    repeat match goal with
           | H : Qeq_bool _ _ = true |- _ => apply Qeq_bool_iff in H
           end.
    rewrite One, I2, Hx.
    match goal with H : valueOf (eighths k) == _ |- _ => rename H into V0 end.
    split; [exact V0 |]. split; [assumption |].
    split; rewrite V0; assumption.
  - intros u. apply nextNote_fields.
Qed.

Lemma step_advance_at_120_witness :
  valueOf (nextNoteTime (Nat.iter 16 nextNote (mkTransport 120 (eighths 1) 0)))
  == valueOf (nextNoteTime (mkTransport 120 (eighths 1) 0)) + 2
  /\ current16thNote (Nat.iter 16 nextNote (mkTransport 120 (eighths 1) 0))
     = 0%Z.
Proof.
  destruct (step_advance_at_120 (mkTransport 120 (eighths 1) 0))
    as (_ & (C & _) & E & _).
  - reflexivity.
  - cbn [current16thNote]. lia.
  - destruct (E 1%Z) as (_ & _ & _ & E16).
    + lia.
    + reflexivity.
    + split; [exact E16 | exact C].
Defined.

(** C2, as stated, fails: the advance is not exact from every state.
    From the [nextNoteTime] of a session started five render quanta
    after the context, at tempo 120, one advance does not move
    [nextNoteTime] by 0.125 s and sixteen do not move it by 2 s: they
    end at 2.1145124716553285, the double below the one nearest to the
    exact sum. *)
Lemma step_advance_rounds :
  exists s : Transport,
    tempo s = 120%float /\ (0 <= current16thNote s < 16)%Z
    /\ is_finite (nextNoteTime s) = true
    /\ is_finite (nextNoteTime (nextNote s)) = true
    /\ is_finite (nextNoteTime (Nat.iter 16 nextNote s)) = true
    /\ ~ valueOf (nextNoteTime (nextNote s))
         == valueOf (nextNoteTime s) + 0.125
    /\ ~ valueOf (nextNoteTime (Nat.iter 16 nextNote s))
         == valueOf (nextNoteTime s) + 2
    /\ nextNoteTime (Nat.iter 16 nextNote s) = 0x1.0ea8583c5f33ap+1%float.
Proof.
  exists (mkTransport 120 afterFiveQuanta 0).
  split; [reflexivity |]. split; [cbn [current16thNote]; lia |].
  split; [reflexivity |]. split; [reflexivity |]. split; [reflexivity |].
  split; [| split].
  - intros H. apply Qeq_bool_iff in H. vm_compute in H. discriminate H.
  - intros H. apply Qeq_bool_iff in H. vm_compute in H. discriminate H.
  - vm_compute. reflexivity.
Qed.

End DoubleFacts.

(** ** Properties of the game loop *)

Module GameFacts.

Import Game.

(** *** The score *)

Lemma updateScore_wellScored (e : ScoreEvent) (sc : GameScore) :
  wellScored sc ->
  wellScored (updateScore e sc)
  /\ (hits (updateScore e sc) + misses (updateScore e sc)
      = hits sc + misses sc + 1)%Z
  /\ (maxCombo sc <= maxCombo (updateScore e sc))%Z.
Proof.
  unfold wellScored. intros (Hs & Hc & Hh & Hm).
  destruct e; cbn [updateScore score combo maxCombo hits misses].
  - destruct (Z.ltb_spec (maxCombo sc) (combo sc + 1)); repeat split; lia.
  - repeat split; lia.
  - repeat split; lia.
Qed.

(** X11. The score stays presentable: from a score with nothing negative
    and [combo <= maxCombo], any sequence of hits, misses and bombs
    leaves such a score (a bomb never drives the points below zero), the
    best combo never decreases, and [hits + misses] counts the events. *)
Theorem score_invariant (events : list ScoreEvent) (sc : GameScore) :
  wellScored sc ->
  wellScored (scoreAfter events sc)
  /\ (hits (scoreAfter events sc) + misses (scoreAfter events sc)
      = hits sc + misses sc + Z.of_nat (length events))%Z
  /\ (maxCombo sc <= maxCombo (scoreAfter events sc))%Z.
Proof.
  revert sc. induction events as [| e events IH]; intros sc Hsc.
  - simpl. repeat split; try apply Hsc; lia.
  - destruct (updateScore_wellScored e sc Hsc) as (H1 & H2 & H3).
    destruct (IH (updateScore e sc) H1) as (I1 & I2 & I3).
    unfold scoreAfter in *. cbn [fold_left length].
    split; [exact I1 |]. split; lia.
Qed.

Lemma score_invariant_witness :
  wellScored (scoreAfter [onHit; onBomb; onMiss] zeroScore)
  /\ (hits (scoreAfter [onHit; onBomb; onMiss] zeroScore)
      + misses (scoreAfter [onHit; onBomb; onMiss] zeroScore)
      = hits zeroScore + misses zeroScore + Z.of_nat 3)%Z
  /\ (maxCombo zeroScore
      <= maxCombo (scoreAfter [onHit; onBomb; onMiss] zeroScore))%Z.
Proof.
  apply (score_invariant [onHit; onBomb; onMiss] zeroScore).
  unfold wellScored. simpl. lia.
Defined.

(** X12. A streak of [n] hits in a row from combo [c] adds
    [100 n + 10 c n + 5 n (n - 1)] points (each hit is worth 100 plus 10
    per hit of the streak before it), raises the combo to [c + n] and the
    best combo to at least that, and leaves the misses alone. *)
Theorem hit_streak (n : nat) (sc : GameScore) :
  wellScored sc ->
  let sc' := scoreAfter (repeat onHit n) sc in
  (score sc' = score sc + 100 * Z.of_nat n + 10 * combo sc * Z.of_nat n
               + 5 * Z.of_nat n * (Z.of_nat n - 1))%Z
  /\ (combo sc' = combo sc + Z.of_nat n)%Z
  /\ (maxCombo sc' = Z.max (maxCombo sc) (combo sc + Z.of_nat n))%Z
  /\ (hits sc' = hits sc + Z.of_nat n)%Z
  /\ misses sc' = misses sc.
Proof.
  revert sc. induction n as [| n IH]; intros sc Hsc.
  - simpl. unfold wellScored in Hsc. repeat split; lia.
  - destruct (updateScore_wellScored onHit sc Hsc) as (H1 & _).
    specialize (IH (updateScore onHit sc) H1).
    cbv zeta in IH |- *. unfold scoreAfter in *. cbn [repeat fold_left].
    destruct IH as (I1 & I2 & I3 & I4 & I5).
    rewrite I1, I2, I3, I4, I5. unfold wellScored in Hsc.
    cbn [updateScore score combo maxCombo hits misses].
    destruct (Z.ltb_spec (maxCombo sc) (combo sc + 1)); repeat split; nia.
Qed.

Lemma hit_streak_witness :
  score (scoreAfter (repeat onHit 3) zeroScore) = 330%Z
  /\ combo (scoreAfter (repeat onHit 3) zeroScore) = 3%Z.
Proof.
  destruct (hit_streak 3 zeroScore) as (H1 & H2 & _).
  - unfold wellScored. simpl. lia.
  - split; [rewrite H1 | rewrite H2]; reflexivity.
Defined.

(** *** Particles *)

Lemma step_alive (l : Q) (ps : list Particle) :
  Forall (fun p => life p == l) ps -> 0 < l - 0.03 ->
  length (stepParticles ps) = length ps
  /\ Forall (fun p => life p == l - 0.03) (stepParticles ps).
Proof.
  intros F Hl. induction F as [| p ps Hp F IH]; [split; constructor |].
  destruct IH as [IH1 IH2]. unfold stepParticles in *. cbn [map filter].
  assert (A : Qltb 0 (life (moveParticle p)) = true).
  { apply Qltb_lt. cbn [moveParticle life]. rewrite Hp. exact Hl. }
  rewrite A. cbn [length]. split; [rewrite IH1; reflexivity |].
  constructor; [| exact IH2]. cbn [moveParticle life]. rewrite Hp.
  reflexivity.
Qed.

Lemma step_dead (l : Q) (ps : list Particle) :
  Forall (fun p => life p == l) ps -> l - 0.03 <= 0 ->
  stepParticles ps = [].
Proof.
  intros F Hl. induction F as [| p ps Hp F IH]; [reflexivity |].
  unfold stepParticles in *. cbn [map filter].
  assert (A : Qltb 0 (life (moveParticle p)) = false).
  { apply Qltb_ge. cbn [moveParticle life]. rewrite Hp. exact Hl. }
  rewrite A. exact IH.
Qed.

Lemma iter_step_nil (k : nat) : Nat.iter k stepParticles [] = [].
Proof.
  induction k as [| k IH]; [reflexivity |]. simpl. rewrite IH. reflexivity.
Qed.

Lemma iter_step (k : nat) : forall (l : Q) (ps : list Particle),
  Forall (fun p => life p == l) ps ->
  (0 < l - 0.03 * inject_Z (Z.of_nat k) ->
   length (Nat.iter k stepParticles ps) = length ps)
  /\ (l - 0.03 * inject_Z (Z.of_nat k) <= 0 -> (0 < k)%nat ->
      Nat.iter k stepParticles ps = []).
Proof.
  induction k as [| k IH]; intros l ps F.
  - split; [reflexivity | lia].
  - rewrite Nat.iter_succ_r.
    assert (E : inject_Z (Z.of_nat (S k)) == inject_Z (Z.of_nat k) + 1).
    { rewrite Nat2Z.inj_succ. unfold Z.succ. rewrite inject_Z_plus.
      reflexivity. }
    assert (K : 0 <= inject_Z (Z.of_nat k))
      by (rewrite <- (Zle_Qle 0); lia).
    destruct (Qlt_le_dec 0 (l - 0.03)) as [Hl | Hl].
    + destruct (step_alive l ps F Hl) as [L1 L2].
      destruct (IH (l - 0.03) (stepParticles ps) L2) as [I1 I2].
      split.
      * intros H. rewrite I1, L1; [reflexivity |]. rewrite E in H. lra.
      * intros H _. destruct k as [| k].
        -- simpl. change (inject_Z (Z.of_nat 1)) with 1 in H.
           exfalso. lra.
        -- apply I2; [rewrite E in H; lra | lia].
    + rewrite (step_dead l ps F Hl), iter_step_nil.
      split; [| reflexivity]. intros H. exfalso. rewrite E in H. lra.
Qed.

(** X13. The particles of an explosion, created with life 1, are on
    screen for exactly 33 frames: all of them are still there after any
    number of frames up to 33, none after 34 or more. *)
Theorem particle_lifetime (k : nat) (ps : list Particle) :
  Forall (fun p => life p == 1) ps ->
  length (Nat.iter k stepParticles ps)
  = if (k <=? 33)%nat then length ps else 0%nat.
Proof.
  intros F. destruct (iter_step k 1 ps F) as [A D].
  destruct (Nat.leb_spec k 33) as [Hk | Hk].
  - apply A.
    assert (K : inject_Z (Z.of_nat k) <= 33)
      by (rewrite <- (Zle_Qle _ 33); lia).
    lra.
  - rewrite D; [reflexivity | | lia].
    assert (K : 34 <= inject_Z (Z.of_nat k))
      by (rewrite <- (Zle_Qle 34); lia).
    lra.
Qed.

Lemma particle_lifetime_witness :
  length (Nat.iter 33 stepParticles
            [mkParticle 0 0 1 1 1.0 (fruitColor firstFruit)]) = 1%nat
  /\ length (Nat.iter 34 stepParticles
               [mkParticle 0 0 1 1 1.0 (fruitColor firstFruit)]) = 0%nat.
Proof.
  split.
  - apply (particle_lifetime 33 [mkParticle 0 0 1 1 1.0 (fruitColor firstFruit)]).
    repeat constructor.
  - apply (particle_lifetime 34 [mkParticle 0 0 1 1 1.0 (fruitColor firstFruit)]).
    repeat constructor.
Defined.


Section GameLoop.

Variable Math_random : nat -> Q.
Variable Math_cos : Q -> Q.
Variable Math_sin : Q -> Q.
Variable Math_PI : Q.
Variable idString : Q -> String.string.
Variable gameState : GameState.
Variable levelConfig : LevelConfig.

(** *** Falling targets and misses *)

Lemma updateScore_miss_fields (sc : GameScore) :
  misses (updateScore onMiss sc) = (misses sc + 1)%Z
  /\ hits (updateScore onMiss sc) = hits sc
  /\ score (updateScore onMiss sc) = score sc
  /\ maxCombo (updateScore onMiss sc) = maxCombo sc.
Proof. repeat split. Qed.

(** X14. In the miss detection of a frame every target falls by the
    gravity of the level and keeps its identity, side, type and hit
    flag.  The misses grow by the number of fruits that pass the bottom
    line in this frame unhit and unflagged; bombs and targets already
    flagged count nothing, and hits, points and best combo are not
    touched.  A target that passes the line in this frame is flagged, so
    it does not pass it again in the next. *)
Theorem fall_counts (height : Q) (ts : list Target) (sc : GameScore) :
  let r := fallTargets levelConfig height ts sc in
  Forall2 (fun t t' =>
             y t' = y t + gravity levelConfig
             /\ id t' = id t /\ side t' = side t /\ type t' = type t
             /\ fruitIndex t' = fruitIndex t /\ hit t' = hit t
             /\ missed t' = (passesLine levelConfig height t || missed t)
             /\ (passesLine levelConfig height t = true ->
                 passesLine levelConfig height t' = false))
          ts (fst r)
  /\ (misses (snd r)
      = misses sc
        + Z.of_nat (length (filter (fun t => passesLine levelConfig height t
                                             && isFruit t) ts)))%Z
  /\ hits (snd r) = hits sc /\ score (snd r) = score sc
  /\ maxCombo (snd r) = maxCombo sc.
Proof.
  clear Math_random Math_cos Math_sin Math_PI idString gameState.
  cbv zeta. revert sc. induction ts as [| t ts IH]; intros sc.
  - simpl. repeat split; try constructor; lia.
  - cbn [fallTargets filter].
    set (sc1 := if passesLine levelConfig height t
                then match type t with
                     | fruit => updateScore onMiss sc
                     | bomb => sc
                     end
                else sc).
    specialize (IH sc1).
    destruct (fallTargets levelConfig height ts sc1) as [rest' sc'] eqn:E.
    cbn [fst snd] in IH |- *. destruct IH as (F & Hm & Hh & Hs & Hx).
    assert (S1 : (misses sc1
                  = misses sc
                    + (if passesLine levelConfig height t && isFruit t
                       then 1 else 0))%Z
                 /\ hits sc1 = hits sc /\ score sc1 = score sc
                 /\ maxCombo sc1 = maxCombo sc).
    { unfold sc1, isFruit.
      destruct (passesLine levelConfig height t), (type t); simpl;
        repeat split; lia. }
    destruct S1 as (M1 & H1 & P1 & X1).
    split.
    { constructor; [| exact F]. cbn [y id side type fruitIndex hit missed].
      do 6 (split; [reflexivity |]). split.
      - destruct (passesLine levelConfig height t); reflexivity.
      - intros Hp. rewrite Hp. unfold passesLine. cbn [y hit missed].
        apply andb_false_r. }
    split.
    { rewrite Hm, M1.
      destruct (passesLine levelConfig height t && isFruit t);
        cbn [length]; lia. }
    repeat split; congruence.
Qed.

(** *** Spawning *)

(** X15. [spawnTarget] takes four draws and appends one target to the
    list: it starts at [y = -100], unhit and unflagged, on the left
    exactly when the first draw is above 0.5; it is a bomb exactly when
    the second draw is below the bomb chance of the level, so never when
    that chance is zero; its fruit index is a valid index of the table
    of fruits, so the fallback [FRUITS[0]] is never needed for it.
    Nothing else of the game changes. *)
Theorem spawn_target (width : Q) (g : Canvas) :
  fairDraws Math_random ->
  exists t,
    spawnTarget Math_random idString levelConfig width g
    = set_targetsRef (targetsRef g ++ [t])
        (set_audioService
           (set_randomPos (randomPos (audioService g) + 4) (audioService g)) g)
    /\ y t = -100 /\ hit t = false /\ missed t = false
    /\ (side t = left <-> 0.5 < Math_random (randomPos (audioService g)))
    /\ (type t = bomb <->
        Math_random (randomPos (audioService g) + 1) < bombChance levelConfig)
    /\ (bombChance levelConfig <= 0 -> type t = fruit)
    /\ (0 <= fruitIndex t < 8)%Z
    /\ nth_error FRUITS (Z.to_nat (fruitIndex t)) = Some (fruitAt (fruitIndex t)).
Proof.
  clear Math_cos Math_sin Math_PI gameState.
  intros Hfair. unfold spawnTarget, nextRandom.
  destruct g as [ts ps ls tr sc a].
  destruct a as [x m p t n k tid ity gn r to sq rp].
  cbn [audioService randomPos set_audioService set_randomPos targetsRef
       particlesRef lastSpawnRef triggerRef scoreState set_targetsRef
       ctx isMuted isPlaying tempo nextNoteTime current16thNote timerID
       intensity masterGain reverbNode timeouts timeoutSeq].
  replace (rp + 4)%nat with (S (S (S (S rp)))) by lia.
  replace (rp + 1)%nat with (S rp) by lia.
  eexists. split; [reflexivity |].
  cbn [y hit missed side type fruitIndex].
  split; [reflexivity |]. split; [reflexivity |]. split; [reflexivity |].
  split.
  { destruct (Qltb 0.5 (Math_random rp)) eqn:E.
    - apply Qltb_lt in E. split; [intros _; exact E | reflexivity].
    - apply Qltb_ge in E. split; [discriminate |].
      intros H. exfalso. lra. }
  split.
  { destruct (Qltb (Math_random (S rp)) (bombChance levelConfig)) eqn:E.
    - apply Qltb_lt in E. split; [intros _; exact E | reflexivity].
    - apply Qltb_ge in E. split; [discriminate |].
      intros H. exfalso. lra. }
  split.
  { intros H0. destruct (Hfair (S rp)) as [Hr _].
    destruct (Qltb (Math_random (S rp)) (bombChance levelConfig)) eqn:E;
      [| reflexivity].
    apply Qltb_lt in E. exfalso. lra. }
  pose proof (draw_index (Math_random (S (S rp))) 8 (Hfair (S (S rp))) eq_refl)
    as Hidx.
  change (inject_Z (Z.of_nat (length FRUITS))) with (inject_Z 8).
  split; [exact Hidx |].
  set (idx := Qfloor (Math_random (S (S rp)) * inject_Z 8)) in *.
  assert (C : (idx = 0 \/ idx = 1 \/ idx = 2 \/ idx = 3 \/ idx = 4 \/ idx = 5
               \/ idx = 6 \/ idx = 7)%Z) by lia.
  destruct C as [-> | [-> | [-> | [-> | [-> | [-> | [-> | ->]]]]]]];
    reflexivity.
Qed.


(** *** Strikes *)

Lemma findIndex_none {A} (f : A -> bool) (l : list A) :
  Forall (fun a => f a = false) l -> findIndex f l = None.
Proof.
  induction 1 as [| a l Ha _ IH]; [reflexivity |].
  simpl. rewrite Ha, IH. reflexivity.
Qed.

Lemma findIndex_first {A} (f : A -> bool) (pre post : list A) (a : A) :
  Forall (fun b => f b = false) pre -> f a = true ->
  findIndex f (pre ++ a :: post) = Some (length pre).
Proof.
  induction 1 as [| b pre Hb _ IH]; intros Ha; simpl.
  - rewrite Ha. reflexivity.
  - rewrite Hb, (IH Ha). reflexivity.
Qed.

Lemma markHit_middle (pre post : list Target) (t : Target) :
  markHit (length pre) (pre ++ t :: post)
  = pre ++ mkTarget (id t) (side t) (y t) true (missed t) (type t)
             (fruitIndex t) :: post.
Proof.
  induction pre as [| b pre IH]; [reflexivity |].
  simpl. rewrite IH. reflexivity.
Qed.

(** [k] rounds of the loop of [createExplosion]: [k] particles more, all
    at the given point with life 1, and [2 k] draws taken. *)
Lemma explosionLoop_shape (k : nat) (x y0 : Q) (c : String.string) :
  forall g : Canvas,
  exists ps,
    explosionLoop Math_random Math_cos Math_sin Math_PI k x y0 c g
    = set_particlesRef (particlesRef g ++ ps)
        (set_audioService
           (set_randomPos (randomPos (audioService g) + 2 * k)
              (audioService g)) g)
    /\ length ps = k
    /\ Forall (fun p => px p = x /\ py p = y0 /\ life p = 1.0 /\ color p = c)
              ps.
Proof.
  clear idString gameState levelConfig.
  induction k as [| k IH]; intros g.
  - exists []. split; [| split; [reflexivity | constructor]].
    destruct g as [ts ps ls tr sc a].
    destruct a as [x1 m p t n j tid ity gn r to sq rp].
    cbn. rewrite app_nil_r, Nat.add_0_r. reflexivity.
  - cbn [explosionLoop]. unfold nextRandom.
    destruct g as [ts ps ls tr sc a].
    destruct a as [x1 m p t n j tid ity gn r to sq rp].
    cbn [audioService randomPos set_audioService set_randomPos targetsRef
         particlesRef lastSpawnRef triggerRef scoreState set_particlesRef
         ctx isMuted isPlaying tempo nextNoteTime current16thNote timerID
         intensity masterGain reverbNode timeouts timeoutSeq].
    match goal with
    | |- exists _, explosionLoop _ _ _ _ _ _ _ _ ?g1 = _ /\ _ =>
        destruct (IH g1) as (ps' & E & Hl & F)
    end.
    rewrite E.
    cbn [audioService randomPos set_audioService set_randomPos targetsRef
         particlesRef lastSpawnRef triggerRef scoreState set_particlesRef
         ctx isMuted isPlaying tempo nextNoteTime current16thNote timerID
         intensity masterGain reverbNode timeouts timeoutSeq].
    eexists (_ :: ps'). split; [| split].
    + rewrite <- app_assoc. cbn [app].
      replace (S (S rp) + 2 * k)%nat with (rp + 2 * S k)%nat by lia.
      reflexivity.
    + cbn [length]. rewrite Hl. reflexivity.
    + constructor; [repeat split | exact F].
Qed.

Lemma sfx_returns (a : State) :
  initialised a = true \/ isMuted a = true \/ ctx a = None ->
  (exists a', playSliceSfx a = Done a')
  /\ (exists a', playBombSfx a = Done a').
Proof.
  clear. intros H.
  destruct a as [x m p t n j tid ity gn r to sq rp].
  unfold initialised in H. simpl in H.
  destruct x as [[ct sr st gr] |]; [| split; eexists; reflexivity].
  destruct m; [split; eexists; reflexivity |].
  destruct gn as [gn |]; [split; eexists; reflexivity |].
  destruct H as [H | [H | H]]; discriminate H.
Qed.


(** X16. A strike hits the first target in reach on its side and no
    other: that target is flagged hit where it stands in the list, 30
    particles of life 1 appear at its height on the column of the side,
    the service plays the effect of its type without touching its
    transport, and, unless the service threw, the score takes a bomb for
    a bomb and a hit for a fruit.  The service does not throw when it is
    initialised, muted or without context.  With no target in reach the
    strike changes nothing. *)
Theorem checkHit_first (s : Side) (hitY threshold width : Q) (g : Canvas) :
  (Forall (fun u => inReach s hitY threshold u = false) (targetsRef g) ->
   checkHit Math_random Math_cos Math_sin Math_PI s hitY threshold width g
   = Completed g)
  /\ forall (pre post : list Target) (t : Target),
       targetsRef g = pre ++ t :: post ->
       Forall (fun u => inReach s hitY threshold u = false) pre ->
       inReach s hitY threshold t = true ->
       let r := checkHit Math_random Math_cos Math_sin Math_PI s hitY
                  threshold width g in
       targetsRef (canvasOf r)
       = pre ++ mkTarget (id t) (side t) (y t) true (missed t) (type t)
                  (fruitIndex t) :: post
       /\ (exists ps,
             particlesRef (canvasOf r) = particlesRef g ++ ps
             /\ length ps = 30%nat
             /\ Forall (fun p =>
                          px p = match s with
                                 | left => width * 0.20
                                 | right => width * 0.80
                                 end
                          /\ py p = y t /\ life p = 1.0) ps)
       /\ lastSpawnRef (canvasOf r) = lastSpawnRef g
       /\ triggerRef (canvasOf r) = triggerRef g
       /\ shellOf (audioService (canvasOf r)) = shellOf (audioService g)
       /\ scoreState (canvasOf r)
          = (if completed r
             then updateScore (match type t with
                               | bomb => onBomb
                               | fruit => onHit
                               end) (scoreState g)
             else scoreState g)
       /\ (initialised (audioService g) = true
           \/ isMuted (audioService g) = true
           \/ ctx (audioService g) = None -> completed r = true).
Proof.
  clear idString gameState levelConfig.
  split.
  { intros F. unfold checkHit. rewrite (findIndex_none _ _ F). reflexivity. }
  intros pre post t Hts Fpre Ht. cbv zeta. unfold checkHit.
  rewrite Hts, (findIndex_first _ pre post t Fpre Ht).
  rewrite nth_error_app2, Nat.sub_diag by lia. cbn [nth_error].
  rewrite markHit_middle. unfold createExplosion.
  set (hitT := mkTarget (id t) (side t) (y t) true (missed t) (type t)
                 (fruitIndex t)).
  set (xPos := match s with left => width * 0.20 | right => width * 0.80 end).
  set (g1 := set_targetsRef (pre ++ hitT :: post) g).
  assert (Main : forall (c : String.string) (p : Proc) (e : ScoreEvent),
    keeps shellOf p ->
    (initialised (audioService g) = true
     \/ isMuted (audioService g) = true
     \/ ctx (audioService g) = None ->
     forall a, initialised a = initialised (audioService g) ->
               isMuted a = isMuted (audioService g) ->
               (ctx a = None <-> ctx (audioService g) = None) ->
               exists a', p a = Done a') ->
    let r := andNext
               (callService p
                  (explosionLoop Math_random Math_cos Math_sin Math_PI 30 xPos
                     (y t) c g1))
               (fun g2 => Completed (setScore (updateScore e) g2)) in
    targetsRef (canvasOf r) = pre ++ hitT :: post
    /\ (exists ps,
          particlesRef (canvasOf r) = particlesRef g ++ ps
          /\ length ps = 30%nat
          /\ Forall (fun q => px q = xPos /\ py q = y t /\ life q = 1.0) ps)
    /\ lastSpawnRef (canvasOf r) = lastSpawnRef g
    /\ triggerRef (canvasOf r) = triggerRef g
    /\ shellOf (audioService (canvasOf r)) = shellOf (audioService g)
    /\ scoreState (canvasOf r)
       = (if completed r then updateScore e (scoreState g) else scoreState g)
    /\ (initialised (audioService g) = true
        \/ isMuted (audioService g) = true
        \/ ctx (audioService g) = None -> completed r = true)).
  { intros c p e Kp Hret. cbv zeta.
    destruct (explosionLoop_shape 30 xPos (y t) c g1) as (ps & E & Hl & F).
    rewrite E. unfold callService.
    set (a2 := set_randomPos (randomPos (audioService g1) + 2 * 30)
                 (audioService g1)).
    assert (Ha2 : shellOf a2 = shellOf (audioService g))
      by (unfold a2, g1; destruct g as [ts0 ps0 ls tr sc a]; destruct a;
          reflexivity).
    assert (Hps : Forall (fun q => px q = xPos /\ py q = y t /\ life q = 1.0) ps)
      by (eapply Forall_impl; [| exact F]; intros q (A & B & C & _);
          repeat split; assumption).
    cbn [audioService set_particlesRef set_audioService].
    pose proof (Kp a2) as K.
    assert (Hdone : initialised (audioService g) = true
                    \/ isMuted (audioService g) = true
                    \/ ctx (audioService g) = None -> exists a', p a2 = Done a').
    { intros H. apply (Hret H); unfold a2, g1;
        destruct g as [ts0 ps0 ls tr sc a]; destruct a; reflexivity. }
    destruct (p a2) as [a' | a' |] eqn:Ep; cbn [stateOf] in K;
      cbn [andNext canvasOf completed setScore set_scoreState targetsRef
           particlesRef lastSpawnRef triggerRef scoreState audioService
           set_particlesRef set_audioService];
      (split; [unfold g1; destruct g; reflexivity |]);
      (split; [exists ps; split; [unfold g1; destruct g; reflexivity |
                                  split; [exact Hl | exact Hps]] |]);
      (split; [unfold g1; destruct g; reflexivity |]);
      (split; [unfold g1; destruct g; reflexivity |]).
    - split; [rewrite K; exact Ha2 |].
      split; [unfold g1; destruct g; reflexivity | intros _; reflexivity].
    - split; [rewrite K; exact Ha2 |].
      split; [unfold g1; destruct g; reflexivity |].
      intros H. destruct (Hdone H) as (a'' & Ea). discriminate Ea.
    - split; [unfold g1; destruct g as [ts0 ps0 ls tr sc a]; destruct a;
              reflexivity |].
      split; [unfold g1; destruct g; reflexivity |].
      intros H. destruct (Hdone H) as (a'' & Ea). discriminate Ea. }
  assert (Ret : forall a,
            initialised (audioService g) = true
            \/ isMuted (audioService g) = true
            \/ ctx (audioService g) = None ->
            initialised a = initialised (audioService g) ->
            isMuted a = isMuted (audioService g) ->
            (ctx a = None <-> ctx (audioService g) = None) ->
            initialised a = true \/ isMuted a = true \/ ctx a = None).
  { intros a H Hi Hm Hc. rewrite Hi, Hm. tauto. }
  destruct (type t).
  - apply (Main (fruitColor (fruitAt (fruitIndex t))) playSliceSfx onHit
             keeps_playSliceSfx).
    intros H a Hi Hm Hc. apply (sfx_returns a (Ret a H Hi Hm Hc)).
  - apply (Main _ playBombSfx onBomb keeps_playBombSfx).
    intros H a Hi Hm Hc. apply (sfx_returns a (Ret a H Hi Hm Hc)).
Qed.


(** *** One frame *)

Lemma findIndex_split {A} (f : A -> bool) (l : list A) :
  Forall (fun a => f a = false) l
  \/ exists pre a post,
       l = pre ++ a :: post /\ Forall (fun b => f b = false) pre
       /\ f a = true.
Proof.
  induction l as [| b l IH]; [left; constructor |].
  destruct (f b) eqn:Hb.
  - right. exists [], b, l. repeat split; [constructor | exact Hb].
  - destruct IH as [F | (pre & a & post & -> & F & Ha)].
    + left. constructor; assumption.
    + right. exists (b :: pre), a, post.
      repeat split; [constructor; assumption | exact Ha].
Qed.

(** The two ways [checkHit] can go: nothing in reach, or the first
    target in reach is flagged, explodes, sounds and scores. *)
Lemma checkHit_cases (s : Side) (hitY threshold width : Q) (g : Canvas) :
  checkHit Math_random Math_cos Math_sin Math_PI s hitY threshold width g
  = Completed g
  \/ exists pre t post x c p e,
       targetsRef g = pre ++ t :: post
       /\ hit t = false
       /\ (p = playSliceSfx /\ e = onHit /\ type t = fruit
           \/ p = playBombSfx /\ e = onBomb /\ type t = bomb)
       /\ checkHit Math_random Math_cos Math_sin Math_PI s hitY threshold
            width g
          = andNext
              (callService p
                 (explosionLoop Math_random Math_cos Math_sin Math_PI 30 x
                    (y t) c
                    (set_targetsRef
                       (pre ++ mkTarget (id t) (side t) (y t) true (missed t)
                                 (type t) (fruitIndex t) :: post) g)))
              (fun g2 => Completed (setScore (updateScore e) g2)).
Proof.
  clear idString gameState levelConfig.
  destruct (findIndex_split (inReach s hitY threshold) (targetsRef g))
    as [F | (pre & t & post & Hts & F & Ht)].
  - left. unfold checkHit. rewrite (findIndex_none _ _ F). reflexivity.
  - right.
    assert (Hh : hit t = false).
    { unfold inReach in Ht. destruct (hit t); [| reflexivity].
      rewrite andb_false_r in Ht. discriminate Ht. }
    set (x := match s with left => width * 0.20 | right => width * 0.80 end).
    set (g1 := set_targetsRef
                 (pre ++ mkTarget (id t) (side t) (y t) true (missed t)
                           (type t) (fruitIndex t) :: post) g).
    assert (E : exists cb,
              checkHit Math_random Math_cos Math_sin Math_PI s hitY
                threshold width g
              = match type t with
                | bomb =>
                    andNext
                      (callService playBombSfx
                         (explosionLoop Math_random Math_cos Math_sin
                            Math_PI 30 x (y t) cb g1))
                      (fun g2 => Completed (setScore (updateScore onBomb) g2))
                | fruit =>
                    andNext
                      (callService playSliceSfx
                         (explosionLoop Math_random Math_cos Math_sin
                            Math_PI 30 x (y t)
                            (fruitColor (fruitAt (fruitIndex t))) g1))
                      (fun g2 => Completed (setScore (updateScore onHit) g2))
                end).
    { unfold checkHit.
      rewrite Hts, (findIndex_first _ pre post t F Ht).
      rewrite nth_error_app2, Nat.sub_diag by lia. cbn [nth_error].
      rewrite markHit_middle.
      unfold createExplosion. eexists. reflexivity. }
    destruct E as (cb & E). rewrite E. destruct (type t) eqn:Ety.
    + exists pre, t, post, x, (fruitColor (fruitAt (fruitIndex t))),
        playSliceSfx, onHit.
      split; [exact Hts |]. split; [exact Hh |].
      split; [left; repeat split; exact Ety |].
      unfold g1. rewrite Ety. reflexivity.
    + exists pre, t, post, x, cb, playBombSfx, onBomb.
      split; [exact Hts |]. split; [exact Hh |].
      split; [right; repeat split; exact Ety |].
      unfold g1. rewrite Ety. reflexivity.
Qed.

Lemma keeps_backend_sfx (p : Proc) :
  p = playSliceSfx \/ p = playBombSfx ->
  keeps shellOf p /\ keeps (hasBackend None) p
  /\ forall a, soundSafe a -> exists a', p a = Done a'.
Proof.
  intros [-> | ->].
  - split; [exact keeps_playSliceSfx |]. split.
    + intros a. destruct a as [x m p t n k tid ity g r to sq rp].
      destruct x as [[ct sr st gr] |], m, g; reflexivity.
    + intros a H. apply (sfx_returns a H).
  - split; [exact keeps_playBombSfx |]. split.
    + intros a. destruct a as [x m p t n k tid ity g r to sq rp].
      destruct x as [[ct sr st gr] |], m, g; reflexivity.
    + intros a H. apply (sfx_returns a H).
Qed.

Lemma soundSafe_view (a a' : State) :
  shellOf a' = shellOf a -> hasBackend None a' = hasBackend None a ->
  soundSafe a -> soundSafe a'.
Proof.
  clear. unfold shellOf, hasBackend, soundSafe, initialised.
  intros Hs Hb. injection Hs as -> _ _ _ _ _ _ -> -> _ _.
  destruct (ctx a), (ctx a'); try discriminate Hb; simpl;
    intuition congruence.
Qed.

(** What a strike that found its target leaves. *)
Lemma strike_frame (p : Proc) (e : ScoreEvent) (x y0 : Q) (c : String.string)
    (g1 : Canvas) :
  p = playSliceSfx \/ p = playBombSfx ->
  let r := andNext
             (callService p
                (explosionLoop Math_random Math_cos Math_sin Math_PI 30 x y0 c
                   g1))
             (fun g2 => Completed (setScore (updateScore e) g2)) in
  targetsRef (canvasOf r) = targetsRef g1
  /\ lastSpawnRef (canvasOf r) = lastSpawnRef g1
  /\ triggerRef (canvasOf r) = triggerRef g1
  /\ shellOf (audioService (canvasOf r)) = shellOf (audioService g1)
  /\ hasBackend None (audioService (canvasOf r))
     = hasBackend None (audioService g1)
  /\ scoreState (canvasOf r)
     = (if completed r then updateScore e (scoreState g1) else scoreState g1)
  /\ (soundSafe (audioService g1) -> completed r = true)
  /\ exists ps,
       particlesRef (canvasOf r) = particlesRef g1 ++ ps
       /\ Forall (fun q => life q = 1.0) ps.
Proof.
  clear idString gameState levelConfig.
  intros Hp. cbv zeta.
  destruct (keeps_backend_sfx p Hp) as (Ks & Kb & Kr).
  destruct (explosionLoop_shape 30 x y0 c g1) as (ps & E & _ & F).
  rewrite E. unfold callService.
  cbn [audioService set_particlesRef set_audioService].
  set (a2 := set_randomPos (randomPos (audioService g1) + 2 * 30)
               (audioService g1)).
  assert (Ha2 : shellOf a2 = shellOf (audioService g1)
                /\ hasBackend None a2 = hasBackend None (audioService g1))
    by (unfold a2; destruct g1 as [ts0 ps0 ls tr sc a]; destruct a;
        split; reflexivity).
  destruct Ha2 as [Ha2 Hb2].
  assert (Hps : Forall (fun q => life q = 1.0) ps)
    by (eapply Forall_impl; [| exact F]; intros q (_ & _ & C & _); exact C).
  pose proof (Ks a2) as K1. pose proof (Kb a2) as K2.
  assert (Hdone : soundSafe (audioService g1) -> exists a', p a2 = Done a').
  { intros H. apply Kr. apply (soundSafe_view _ _ Ha2 Hb2 H). }
  destruct (p a2) as [a' | a' |] eqn:Ep; cbn [stateOf] in K1, K2;
    cbn [andNext canvasOf completed setScore set_scoreState targetsRef
         particlesRef lastSpawnRef triggerRef scoreState audioService
         set_particlesRef set_audioService];
    (split; [destruct g1; reflexivity |]);
    (split; [destruct g1; reflexivity |]);
    (split; [destruct g1; reflexivity |]).
  - split; [rewrite K1; exact Ha2 |]. split; [rewrite K2; exact Hb2 |].
    split; [destruct g1; reflexivity |]. split; [reflexivity |].
    exists ps. split; [destruct g1; reflexivity | exact Hps].
  - split; [rewrite K1; exact Ha2 |]. split; [rewrite K2; exact Hb2 |].
    split; [destruct g1; reflexivity |]. split.
    + intros H. destruct (Hdone H) as (a'' & Ea). discriminate Ea.
    + exists ps. split; [destruct g1; reflexivity | exact Hps].
  - split; [destruct g1 as [ts0 ps0 ls tr sc a]; destruct a; reflexivity |].
    split; [destruct g1 as [ts0 ps0 ls tr sc a]; destruct a; reflexivity |].
    split; [destruct g1; reflexivity |]. split.
    + intros H. destruct (Hdone H) as (a'' & Ea). discriminate Ea.
    + exists ps. split; [destruct g1; reflexivity | exact Hps].
Qed.

Lemma struck_refl (t : Target) : struck t t.
Proof. clear. unfold struck. tauto. Qed.

Lemma Forall2_struck_refl (ts : list Target) : Forall2 struck ts ts.
Proof.
  clear. induction ts; constructor; [apply struck_refl | assumption].
Qed.

(** What any strike leaves, whether it found a target or not. *)
Lemma checkHit_summary (s : Side) (hitY threshold width : Q) (g : Canvas) :
  let r := checkHit Math_random Math_cos Math_sin Math_PI s hitY threshold
             width g in
  Forall2 struck (targetsRef g) (targetsRef (canvasOf r))
  /\ lastSpawnRef (canvasOf r) = lastSpawnRef g
  /\ triggerRef (canvasOf r) = triggerRef g
  /\ shellOf (audioService (canvasOf r)) = shellOf (audioService g)
  /\ hasBackend None (audioService (canvasOf r))
     = hasBackend None (audioService g)
  /\ (scoreState (canvasOf r) = scoreState g
      \/ exists t, In t (targetsRef g) /\ hit t = false
           /\ scoreState (canvasOf r)
              = updateScore (match type t with
                             | bomb => onBomb
                             | fruit => onHit
                             end) (scoreState g))
  /\ (soundSafe (audioService g) -> completed r = true)
  /\ exists ps,
       particlesRef (canvasOf r) = particlesRef g ++ ps
       /\ Forall (fun q => life q = 1.0) ps.
Proof.
  clear idString gameState levelConfig.
  cbv zeta.
  destruct (checkHit_cases s hitY threshold width g)
    as [E | (pre & t & post & x & c & p & e & Hts & Hh & Hp & E)];
    rewrite E.
  - cbn [canvasOf completed]. split; [apply Forall2_struck_refl |].
    do 4 (split; [reflexivity |]). split; [left; reflexivity |].
    split; [reflexivity |]. exists []. rewrite app_nil_r.
    split; [reflexivity | constructor].
  - set (g1 := set_targetsRef
                 (pre ++ mkTarget (id t) (side t) (y t) true (missed t)
                           (type t) (fruitIndex t) :: post) g).
    assert (Hp' : p = playSliceSfx \/ p = playBombSfx)
      by (destruct Hp as [(-> & _) | (-> & _)]; [left | right]; reflexivity).
    destruct (strike_frame p e x (y t) c g1 Hp')
      as (T & L & Tr & Sh & Bk & Sc & Cp & Ps).
    assert (G1 : targetsRef g1
                 = pre ++ mkTarget (id t) (side t) (y t) true (missed t)
                            (type t) (fruitIndex t) :: post
                 /\ lastSpawnRef g1 = lastSpawnRef g
                 /\ triggerRef g1 = triggerRef g
                 /\ audioService g1 = audioService g
                 /\ scoreState g1 = scoreState g
                 /\ particlesRef g1 = particlesRef g)
      by (unfold g1; destruct g; repeat split).
    destruct G1 as (G1 & G2 & G3 & G4 & G5 & G6).
    rewrite G4 in Sh, Bk, Cp. rewrite G5 in Sc. rewrite G6 in Ps.
    split.
    { rewrite T, G1, Hts. apply Forall2_app; [apply Forall2_struck_refl |].
      constructor; [| apply Forall2_struck_refl].
      unfold struck. cbn [id side y missed type fruitIndex hit]. tauto. }
    split; [rewrite L; exact G2 |]. split; [rewrite Tr; exact G3 |].
    split; [exact Sh |]. split; [exact Bk |].
    split; [| split; [exact Cp | exact Ps]].
    rewrite Sc. match goal with |- context [completed ?r] =>
      destruct (completed r) end; [right | left; reflexivity].
    exists t. split; [rewrite Hts; apply in_elt |]. split; [exact Hh |].
    destruct Hp as [(_ & -> & ->) | (_ & -> & ->)]; reflexivity.
Qed.


Lemma strikeIf_summary (b : bool) (s : Side) (hitY threshold width : Q)
    (g : Canvas) :
  let r := if b
           then checkHit Math_random Math_cos Math_sin Math_PI s hitY
                  threshold width g
           else Completed g in
  Forall2 struck (targetsRef g) (targetsRef (canvasOf r))
  /\ lastSpawnRef (canvasOf r) = lastSpawnRef g
  /\ triggerRef (canvasOf r) = triggerRef g
  /\ shellOf (audioService (canvasOf r)) = shellOf (audioService g)
  /\ hasBackend None (audioService (canvasOf r))
     = hasBackend None (audioService g)
  /\ (scoreState (canvasOf r) = scoreState g
      \/ exists t, In t (targetsRef g) /\ hit t = false
           /\ scoreState (canvasOf r)
              = updateScore (match type t with
                             | bomb => onBomb
                             | fruit => onHit
                             end) (scoreState g))
  /\ (soundSafe (audioService g) -> completed r = true)
  /\ exists ps,
       particlesRef (canvasOf r) = particlesRef g ++ ps
       /\ Forall (fun q => life q = 1.0) ps.
Proof.
  clear idString gameState levelConfig.
  destruct b; [apply checkHit_summary |].
  cbv zeta. cbn [canvasOf completed]. split; [apply Forall2_struck_refl |].
  do 4 (split; [reflexivity |]). split; [left; reflexivity |].
  split; [reflexivity |]. exists []. rewrite app_nil_r.
  split; [reflexivity | constructor].
Qed.

(** What the score can take from one strike. *)
Lemma strike_score (ts : list Target) (sc sc' : GameScore) :
  sc' = sc
  \/ (exists t, In t ts /\ hit t = false
        /\ sc' = updateScore (match type t with
                              | bomb => onBomb
                              | fruit => onHit
                              end) sc) ->
  (hits sc <= hits sc' <= hits sc + 1)%Z
  /\ (wellScored sc -> wellScored sc')
  /\ (wellScored sc -> Forall (fun t => isFruit t = true) ts ->
      (score sc <= score sc')%Z).
Proof.
  clear. intros [-> | (t & Hin & _ & ->)].
  - split; [lia |]. split; [tauto | lia].
  - split; [destruct (type t); cbn [updateScore hits]; lia |].
    split; [intros H; apply (updateScore_wellScored _ _ H) |].
    intros (Hs & Hc & _) F. rewrite Forall_forall in F.
    specialize (F t Hin). unfold isFruit in F.
    destruct (type t); [| discriminate F]. cbn [updateScore score]. lia.
Qed.

Lemma fallTargets_frame (height : Q) (ts : list Target) (sc : GameScore) :
  let r := fallTargets levelConfig height ts sc in
  Forall2 (fun t t' => fallen (gravity levelConfig) t t' /\ hit t' = hit t)
          ts (fst r)
  /\ hits (snd r) = hits sc /\ score (snd r) = score sc
  /\ maxCombo (snd r) = maxCombo sc
  /\ (combo (snd r) = combo sc \/ combo (snd r) = 0%Z)
  /\ (misses sc <= misses (snd r))%Z.
Proof.
  clear Math_random Math_cos Math_sin Math_PI idString gameState.
  cbv zeta. revert sc. induction ts as [| t ts IH]; intros sc.
  - simpl. split; [constructor |]. repeat split; try lia; auto.
  - cbn [fallTargets].
    set (sc1 := if passesLine levelConfig height t
                then match type t with
                     | fruit => updateScore onMiss sc
                     | bomb => sc
                     end
                else sc).
    specialize (IH sc1).
    destruct (fallTargets levelConfig height ts sc1) as [rest' sc'] eqn:E.
    cbn [fst snd] in IH |- *. destruct IH as (F & Hh & Hs & Hx & Hc & Hm).
    assert (S1 : hits sc1 = hits sc /\ score sc1 = score sc
                 /\ maxCombo sc1 = maxCombo sc
                 /\ (combo sc1 = combo sc \/ combo sc1 = 0%Z)
                 /\ (misses sc <= misses sc1)%Z).
    { unfold sc1. destruct (passesLine levelConfig height t), (type t);
        cbn [updateScore hits score maxCombo combo misses];
        repeat split; try lia; auto. }
    destruct S1 as (H1 & P1 & X1 & C1 & M1).
    split.
    { constructor; [| exact F]. unfold fallen.
      cbn [y id side type fruitIndex hit]. repeat split. }
    split; [congruence |]. split; [congruence |]. split; [congruence |].
    split; [| lia].
    destruct Hc as [Hc | Hc]; [| right; exact Hc].
    destruct C1 as [C1 | C1]; [left | right]; congruence.
Qed.

Lemma Forall2_In_r {A B} (R : A -> B -> Prop) (l : list A) (l' : list B)
    (b : B) :
  Forall2 R l l' -> In b l' -> exists a, In a l /\ R a b.
Proof.
  clear. induction 1 as [| a b0 l l' HR _ IH]; intros Hin; [destruct Hin |].
  destruct Hin as [<- | Hin].
  - exists a. split; [left; reflexivity | exact HR].
  - destruct (IH Hin) as (a' & Ha & Hr). exists a'.
    split; [right; exact Ha | exact Hr].
Qed.

(** The spawning step of a frame. *)
Lemma spawn_step (now : Z) (width : Q) (g : Canvas) :
  let g1 := if Qltb (spawnInterval levelConfig)
                    (inject_Z (now - lastSpawnRef g))
            then set_lastSpawnRef now
                   (spawnTarget Math_random idString levelConfig width g)
            else g in
  triggerRef g1 = triggerRef g /\ scoreState g1 = scoreState g
  /\ particlesRef g1 = particlesRef g
  /\ shellOf (audioService g1) = shellOf (audioService g)
  /\ hasBackend None (audioService g1) = hasBackend None (audioService g)
  /\ ctx (audioService g1) = ctx (audioService g)
  /\ (g1 = g
      \/ exists t,
           targetsRef g1 = targetsRef g ++ [t] /\ lastSpawnRef g1 = now
           /\ y t = -100 /\ hit t = false /\ missed t = false
           /\ (fairDraws Math_random -> bombChance levelConfig <= 0 ->
               type t = fruit)).
Proof.
  clear Math_cos Math_sin Math_PI gameState.
  cbv zeta.
  destruct (Qltb (spawnInterval levelConfig) (inject_Z (now - lastSpawnRef g)));
    [| repeat split; left; reflexivity].
  unfold spawnTarget, nextRandom.
  destruct g as [ts ps ls tr sc a].
  destruct a as [x m p t n k tid ity gn r to sq rp].
  cbn [audioService randomPos set_audioService set_randomPos targetsRef
       particlesRef lastSpawnRef triggerRef scoreState set_targetsRef
       set_lastSpawnRef
       ctx isMuted isPlaying tempo nextNoteTime current16thNote timerID
       intensity masterGain reverbNode timeouts timeoutSeq].
  do 6 (split; [reflexivity |]). right. eexists.
  split; [reflexivity |]. split; [reflexivity |].
  cbn [y hit missed type].
  split; [reflexivity |]. split; [reflexivity |]. split; [reflexivity |].
  intros Hfair H0. destruct (Hfair (S rp)) as [Hr _].
  destruct (Qltb (Math_random (S rp)) (bombChance levelConfig)) eqn:E;
    [| reflexivity].
  apply Qltb_lt in E. exfalso. lra.
Qed.

(** The three ways a frame of a running game can go: the left strike
    throws, the right strike throws, or both return and the targets
    fall, are cleaned up and the particles fade. *)
Lemma update_chain (now : Z) (width height : Q) (g : Canvas) :
  gameState = PLAYING ->
  let g1 := if Qltb (spawnInterval levelConfig)
                    (inject_Z (now - lastSpawnRef g))
            then set_lastSpawnRef now
                   (spawnTarget Math_random idString levelConfig width g)
            else g in
  let r1 := if (now - triggerRef g1 left <? STRIKE_WINDOW_MS)%Z
            then checkHit Math_random Math_cos Math_sin Math_PI left
                   (height - 160) HIT_THRESHOLD_Y width g1
            else Completed g1 in
  let r2 := if (now - triggerRef (canvasOf r1) right <? STRIKE_WINDOW_MS)%Z
            then checkHit Math_random Math_cos Math_sin Math_PI right
                   (height - 160) HIT_THRESHOLD_Y width (canvasOf r1)
            else Completed (canvasOf r1) in
  let ft := fallTargets levelConfig height (targetsRef (canvasOf r2))
              (scoreState (canvasOf r2)) in
  let r := update Math_random Math_cos Math_sin Math_PI idString gameState
             levelConfig now width height g in
  (completed r1 = false /\ r = r1)
  \/ (completed r1 = true /\ completed r2 = false /\ r = r2)
  \/ (completed r1 = true /\ completed r2 = true /\ completed r = true
      /\ targetsRef (canvasOf r)
         = filter (fun t => Qltb (y t) (height + 150) && negb (hit t))
                  (fst ft)
      /\ particlesRef (canvasOf r) = stepParticles (particlesRef (canvasOf r2))
      /\ scoreState (canvasOf r) = snd ft
      /\ lastSpawnRef (canvasOf r) = lastSpawnRef (canvasOf r2)
      /\ triggerRef (canvasOf r) = triggerRef (canvasOf r2)
      /\ audioService (canvasOf r) = audioService (canvasOf r2)).
Proof.
  intros Hplay. cbv zeta. unfold update. rewrite Hplay.
  set (g1 := if Qltb (spawnInterval levelConfig)
                     (inject_Z (now - lastSpawnRef g))
             then set_lastSpawnRef now
                    (spawnTarget Math_random idString levelConfig width g)
             else g).
  set (r1 := if (now - triggerRef g1 left <? STRIKE_WINDOW_MS)%Z
             then checkHit Math_random Math_cos Math_sin Math_PI left
                    (height - 160) HIT_THRESHOLD_Y width g1
             else Completed g1).
  destruct r1 as [g2 | g2]; cbn [andNext canvasOf completed];
    [| left; split; reflexivity].
  right.
  set (r2 := if (now - triggerRef g2 right <? STRIKE_WINDOW_MS)%Z
             then checkHit Math_random Math_cos Math_sin Math_PI right
                    (height - 160) HIT_THRESHOLD_Y width g2
             else Completed g2).
  destruct r2 as [g3 | g3]; cbn [andNext canvasOf completed];
    [| left; repeat split].
  right.
  destruct (fallTargets levelConfig height (targetsRef g3) (scoreState g3))
    as [fl sc] eqn:E.
  cbn [canvasOf completed fst snd]. destruct g3. repeat split.
Qed.


Lemma fallen_after_strikes (dy : Q) (t1 t2 t3 t' : Target) :
  struck t1 t2 -> struck t2 t3 -> fallen dy t3 t' -> fallen dy t1 t'.
Proof.
  clear. unfold struck, fallen.
  intros (A1 & A2 & A3 & _ & A5 & A6 & _) (B1 & B2 & B3 & _ & B5 & B6 & _)
         (C1 & C2 & C3 & C5 & C6).
  repeat split; congruence.
Qed.

Lemma stepParticles_alive (ps : list Particle) :
  Forall (fun p => 0 < life p) (stepParticles ps).
Proof.
  clear. unfold stepParticles. apply Forall_forall. intros p Hin.
  apply filter_In in Hin as [_ Hp]. apply Qltb_lt in Hp. exact Hp.
Qed.

(** X17. One frame of a running game.  It never touches the strike
    timestamps nor the transport, mute flag or mix bus of the service,
    and on a service that is initialised, muted or without context it
    always completes.  It registers at most one hit per side, so at most
    two, and keeps the score presentable.  When it completes, no target
    that was hit and none that fell 150 or more below the canvas is
    left, every target left is one of the frame before (or the one
    spawned in this frame, at the moment now recorded as the last
    spawn), [gravity] lower and otherwise the same, at most one target
    was added, and every particle left has a positive life. *)
Theorem update_frame (now : Z) (width height : Q) (g : Canvas) :
  gameState = PLAYING ->
  let r := update Math_random Math_cos Math_sin Math_PI idString gameState
             levelConfig now width height g in
  triggerRef (canvasOf r) = triggerRef g
  /\ shellOf (audioService (canvasOf r)) = shellOf (audioService g)
  /\ (soundSafe (audioService g) ->
      completed r = true /\ soundSafe (audioService (canvasOf r)))
  /\ (hits (scoreState g) <= hits (scoreState (canvasOf r))
      <= hits (scoreState g) + 2)%Z
  /\ (wellScored (scoreState g) -> wellScored (scoreState (canvasOf r)))
  /\ (completed r = true ->
      Forall (fun t' =>
                hit t' = false /\ y t' < height + 150
                /\ exists t,
                     fallen (gravity levelConfig) t t'
                     /\ (In t (targetsRef g)
                         \/ y t = -100 /\ lastSpawnRef (canvasOf r) = now))
             (targetsRef (canvasOf r))
      /\ (length (targetsRef (canvasOf r)) <= S (length (targetsRef g)))%nat
      /\ Forall (fun p => 0 < life p) (particlesRef (canvasOf r))).
Proof.
  intros Hplay. cbv zeta.
  pose proof (update_chain now width height g Hplay) as C.
  pose proof (spawn_step now width g) as S0. cbv zeta in C, S0.
  set (g1 := if Qltb (spawnInterval levelConfig)
                     (inject_Z (now - lastSpawnRef g))
             then set_lastSpawnRef now
                    (spawnTarget Math_random idString levelConfig width g)
             else g) in *.
  pose proof (strikeIf_summary (now - triggerRef g1 left <? STRIKE_WINDOW_MS)%Z
                left (height - 160) HIT_THRESHOLD_Y width g1) as S1.
  cbv zeta in S1.
  set (r1 := if (now - triggerRef g1 left <? STRIKE_WINDOW_MS)%Z
             then checkHit Math_random Math_cos Math_sin Math_PI left
                    (height - 160) HIT_THRESHOLD_Y width g1
             else Completed g1) in *.
  pose proof (strikeIf_summary
                (now - triggerRef (canvasOf r1) right <? STRIKE_WINDOW_MS)%Z
                right (height - 160) HIT_THRESHOLD_Y width (canvasOf r1)) as S2.
  cbv zeta in S2.
  set (r2 := if (now - triggerRef (canvasOf r1) right <? STRIKE_WINDOW_MS)%Z
             then checkHit Math_random Math_cos Math_sin Math_PI right
                    (height - 160) HIT_THRESHOLD_Y width (canvasOf r1)
             else Completed (canvasOf r1)) in *.
  pose proof (fallTargets_frame height (targetsRef (canvasOf r2))
                (scoreState (canvasOf r2))) as S3.
  cbv zeta in S3.
  set (ft := fallTargets levelConfig height (targetsRef (canvasOf r2))
               (scoreState (canvasOf r2))) in *.
  destruct S0 as (Tr0 & Sc0 & Ps0 & Sh0 & Bk0 & _ & Sp0).
  destruct S1 as (F1 & L1 & Tr1 & Sh1 & Bk1 & Sc1 & Cp1 & _).
  destruct S2 as (F2 & L2 & Tr2 & Sh2 & Bk2 & Sc2 & Cp2 & _).
  destruct S3 as (F3 & Hh3 & Hs3 & Hx3 & Hc3 & Hm3).
  destruct (strike_score _ _ _ Sc1) as (B1 & W1 & _).
  destruct (strike_score _ _ _ Sc2) as (B2 & W2 & _).
  rewrite Sc0 in B1, W1.
  assert (Safe : soundSafe (audioService g) ->
                 completed r1 = true /\ soundSafe (audioService (canvasOf r1))
                 /\ completed r2 = true
                 /\ soundSafe (audioService (canvasOf r2))).
  { intros H0.
    assert (H1 : soundSafe (audioService g1))
      by (apply (soundSafe_view _ _ Sh0 Bk0 H0)).
    assert (H2 : soundSafe (audioService (canvasOf r1)))
      by (apply (soundSafe_view _ _ Sh1 Bk1 H1)).
    assert (H3 : soundSafe (audioService (canvasOf r2)))
      by (apply (soundSafe_view _ _ Sh2 Bk2 H2)).
    repeat split; auto. }
  destruct C as [(C1 & Hr) | [(C1 & C2 & Hr)
                             | (C1 & C2 & C3 & T & P & Sc & L & Tr & Au)]].
  - rewrite Hr.
    split; [congruence |]. split; [congruence |].
    split; [intros H0; destruct (Safe H0) as (A & _); congruence |].
    split; [lia |]. split; [exact W1 |].
    intros H. congruence.
  - rewrite Hr.
    split; [congruence |]. split; [congruence |].
    split; [intros H0; destruct (Safe H0) as (_ & _ & A & _); congruence |].
    split; [lia |]. split; [intros H; exact (W2 (W1 H)) |].
    intros H. congruence.
  - split; [congruence |]. split; [rewrite Au; congruence |].
    split; [intros H0; destruct (Safe H0) as (_ & _ & _ & A);
            split; [exact C3 | rewrite Au; exact A] |].
    split; [rewrite Sc; lia |].
    split.
    { intros H. pose proof (W2 (W1 H)) as (Q1 & Q2 & Q3 & Q4).
      rewrite Sc. unfold wellScored. lia. }
    intros _. split; [| split].
    + rewrite T. apply Forall_forall. intros t' Hin.
      apply filter_In in Hin as [Hin Hk].
      apply andb_true_iff in Hk as [Hy Hh]. apply Qltb_lt in Hy.
      apply negb_true_iff in Hh.
      split; [exact Hh |]. split; [exact Hy |].
      destruct (Forall2_In_r _ _ _ _ F3 Hin) as (t3 & I3 & R3 & _).
      destruct (Forall2_In_r _ _ _ _ F2 I3) as (t2 & I2 & R2).
      destruct (Forall2_In_r _ _ _ _ F1 I2) as (t1 & I1 & R1).
      exists t1. split; [apply (fallen_after_strikes _ _ _ _ _ R1 R2 R3) |].
      destruct Sp0 as [E | (tn & E & Ls & Yn & _)].
      * left. rewrite E in I1. exact I1.
      * rewrite E in I1. apply in_app_or in I1 as [I1 | [<- | []]].
        -- left. exact I1.
        -- right. split; [exact Yn | congruence].
    + rewrite T. eapply Nat.le_trans; [apply filter_length_le |].
      rewrite <- (Forall2_length F3), <- (Forall2_length F2),
        <- (Forall2_length F1).
      destruct Sp0 as [E | (tn & E & _)]; rewrite E;
        [lia | rewrite length_app; cbn [length]; lia].
    + rewrite P. apply stepParticles_alive.
Qed.


Lemma Forall2_Forall_r {A B} (R : A -> B -> Prop) (P : A -> Prop)
    (Q : B -> Prop) (l : list A) (l' : list B) :
  (forall a b, R a b -> P a -> Q b) ->
  Forall2 R l l' -> Forall P l -> Forall Q l'.
Proof.
  clear. intros H. induction 1 as [| a b l l' HR _ IH]; intros F;
    [constructor |].
  inversion F as [| a0 l0 Pa Pl]; subst.
  constructor; [apply (H a b HR Pa) | apply (IH Pl)].
Qed.

(** X18. A frame with no strike in its window (both timestamps 600 ms
    old or older) always completes, awards nothing and makes no sound:
    hits, points and best combo are as before and the misses can only
    grow, the context of the service (its clock and every voice
    scheduled) and its transport are untouched, and no new particle
    appears: the particles are those of the frame before, one step
    older. *)
Theorem quiet_frame (now : Z) (width height : Q) (g : Canvas) :
  gameState = PLAYING ->
  (STRIKE_WINDOW_MS <= now - triggerRef g left)%Z ->
  (STRIKE_WINDOW_MS <= now - triggerRef g right)%Z ->
  let r := update Math_random Math_cos Math_sin Math_PI idString gameState
             levelConfig now width height g in
  completed r = true
  /\ hits (scoreState (canvasOf r)) = hits (scoreState g)
  /\ score (scoreState (canvasOf r)) = score (scoreState g)
  /\ maxCombo (scoreState (canvasOf r)) = maxCombo (scoreState g)
  /\ (misses (scoreState g) <= misses (scoreState (canvasOf r)))%Z
  /\ ctx (audioService (canvasOf r)) = ctx (audioService g)
  /\ shellOf (audioService (canvasOf r)) = shellOf (audioService g)
  /\ particlesRef (canvasOf r) = stepParticles (particlesRef g).
Proof.
  intros Hplay Hl Hr. cbv zeta.
  pose proof (update_chain now width height g Hplay) as C.
  pose proof (spawn_step now width g) as S0. cbv zeta in C, S0.
  set (g1 := if Qltb (spawnInterval levelConfig)
                     (inject_Z (now - lastSpawnRef g))
             then set_lastSpawnRef now
                    (spawnTarget Math_random idString levelConfig width g)
             else g) in *.
  destruct S0 as (Tr0 & Sc0 & Ps0 & Sh0 & _ & Cx0 & _).
  assert (E1 : (now - triggerRef g1 left <? STRIKE_WINDOW_MS)%Z = false)
    by (rewrite Tr0; apply Z.ltb_ge; exact Hl).
  rewrite E1 in C. cbn [canvasOf completed] in C.
  assert (E2 : (now - triggerRef g1 right <? STRIKE_WINDOW_MS)%Z = false)
    by (rewrite Tr0; apply Z.ltb_ge; exact Hr).
  rewrite E2 in C. cbn [canvasOf completed] in C.
  pose proof (fallTargets_frame height (targetsRef g1) (scoreState g1)) as S3.
  cbv zeta in S3.
  destruct S3 as (_ & Hh3 & Hs3 & Hx3 & _ & Hm3).
  destruct C as [(C1 & _) | [(_ & C2 & _)
                            | (_ & _ & C3 & _ & P & Sc & _ & _ & Au)]];
    [discriminate C1 | discriminate C2 |].
  split; [exact C3 |]. rewrite Sc, Au, P.
  split; [congruence |]. split; [congruence |]. split; [congruence |].
  split; [rewrite <- Sc0; exact Hm3 |].
  split; [exact Cx0 |]. split; [exact Sh0 |]. rewrite Ps0. reflexivity.
Qed.

(** X19. On a level without bombs (bomb chance zero, as on NOVICE) a
    frame never creates a bomb: if all targets are fruits before the
    frame they all are after it, and the points never go down. *)
Theorem no_bomb_level (now : Z) (width height : Q) (g : Canvas) :
  fairDraws Math_random ->
  bombChance levelConfig <= 0 ->
  wellScored (scoreState g) ->
  Forall (fun t => isFruit t = true) (targetsRef g) ->
  let r := update Math_random Math_cos Math_sin Math_PI idString gameState
             levelConfig now width height g in
  Forall (fun t => isFruit t = true) (targetsRef (canvasOf r))
  /\ (score (scoreState g) <= score (scoreState (canvasOf r)))%Z.
Proof.
  intros Hfair Hb Hw Hf. cbv zeta.
  destruct (match gameState with PLAYING => true | _ => false end) eqn:Hgs.
  2: { assert (E : update Math_random Math_cos Math_sin Math_PI idString
                     gameState levelConfig now width height g = Completed g)
         by (unfold update; destruct gameState;
             [reflexivity | reflexivity | discriminate Hgs | reflexivity]).
       rewrite E. cbn [canvasOf]. split; [exact Hf | lia]. }
  assert (Hplay : gameState = PLAYING)
    by (destruct gameState; try discriminate Hgs; reflexivity).
  clear Hgs.
  pose proof (update_chain now width height g Hplay) as C.
  pose proof (spawn_step now width g) as S0. cbv zeta in C, S0.
  set (g1 := if Qltb (spawnInterval levelConfig)
                     (inject_Z (now - lastSpawnRef g))
             then set_lastSpawnRef now
                    (spawnTarget Math_random idString levelConfig width g)
             else g) in *.
  pose proof (strikeIf_summary (now - triggerRef g1 left <? STRIKE_WINDOW_MS)%Z
                left (height - 160) HIT_THRESHOLD_Y width g1) as S1.
  cbv zeta in S1.
  set (r1 := if (now - triggerRef g1 left <? STRIKE_WINDOW_MS)%Z
             then checkHit Math_random Math_cos Math_sin Math_PI left
                    (height - 160) HIT_THRESHOLD_Y width g1
             else Completed g1) in *.
  pose proof (strikeIf_summary
                (now - triggerRef (canvasOf r1) right <? STRIKE_WINDOW_MS)%Z
                right (height - 160) HIT_THRESHOLD_Y width (canvasOf r1)) as S2.
  cbv zeta in S2.
  set (r2 := if (now - triggerRef (canvasOf r1) right <? STRIKE_WINDOW_MS)%Z
             then checkHit Math_random Math_cos Math_sin Math_PI right
                    (height - 160) HIT_THRESHOLD_Y width (canvasOf r1)
             else Completed (canvasOf r1)) in *.
  pose proof (fallTargets_frame height (targetsRef (canvasOf r2))
                (scoreState (canvasOf r2))) as S3.
  cbv zeta in S3.
  set (ft := fallTargets levelConfig height (targetsRef (canvasOf r2))
               (scoreState (canvasOf r2))) in *.
  destruct S0 as (_ & Sc0 & _ & _ & _ & _ & Sp0).
  destruct S1 as (F1 & _ & _ & _ & _ & Sc1 & _ & _).
  destruct S2 as (F2 & _ & _ & _ & _ & Sc2 & _ & _).
  destruct S3 as (F3 & _ & Hs3 & _ & _ & _).
  destruct (strike_score _ _ _ Sc1) as (_ & W1 & P1).
  destruct (strike_score _ _ _ Sc2) as (_ & W2 & P2).
  rewrite Sc0 in W1, P1.
  assert (Fr1 : Forall (fun t => isFruit t = true) (targetsRef g1)).
  { destruct Sp0 as [E | (tn & E & _ & _ & _ & _ & Ty)]; rewrite E;
      [exact Hf |].
    apply Forall_app. split; [exact Hf |]. constructor; [| constructor].
    unfold isFruit. rewrite (Ty Hfair Hb). reflexivity. }
  assert (Keep : forall a b : Target,
                   struck a b -> isFruit a = true -> isFruit b = true).
  { intros a b (_ & _ & _ & _ & Ty & _) Ha. unfold isFruit in *.
    rewrite Ty. exact Ha. }
  assert (Fr2 : Forall (fun t => isFruit t = true) (targetsRef (canvasOf r1)))
    by (apply (Forall2_Forall_r _ _ _ _ _ Keep F1 Fr1)).
  assert (Fr3 : Forall (fun t => isFruit t = true) (targetsRef (canvasOf r2)))
    by (apply (Forall2_Forall_r _ _ _ _ _ Keep F2 Fr2)).
  specialize (P1 Hw Fr1). specialize (P2 (W1 Hw) Fr2).
  destruct C as [(_ & Hr) | [(_ & _ & Hr)
                            | (_ & _ & _ & T & _ & Sc & _ & _ & _)]].
  - rewrite Hr. split; [exact Fr2 | exact P1].
  - rewrite Hr. split; [exact Fr3 | lia].
  - rewrite T, Sc. split; [| lia].
    apply Forall_forall. intros t' Hin. apply filter_In in Hin as [Hin _].
    destruct (Forall2_In_r _ _ _ _ F3 Hin) as (t3 & I3 & R3 & _).
    rewrite Forall_forall in Fr3. specialize (Fr3 t3 I3).
    destruct R3 as (_ & _ & _ & Ty & _). unfold isFruit in *.
    rewrite Ty. exact Fr3.
Qed.


End GameLoop.


(** *** The frame at work on the example canvas *)

Lemma spawn_target_witness :
  exists t,
    targetsRef (spawnTarget (constantDraws 0.5) demoId
                  (DIFFICULTY_CONFIGS NOVICE) 1280 demoCanvas)
    = targetsRef demoCanvas ++ [t]
    /\ y t = -100 /\ type t = fruit /\ side t = right.
Proof.
  destruct (spawn_target (constantDraws 0.5) demoId (DIFFICULTY_CONFIGS NOVICE)
              1280 demoCanvas) as (t & E & Hy & _ & _ & Hs & _ & Hf & _).
  - intros n. vm_compute. split; [discriminate | reflexivity].
  - exists t. split; [rewrite E; reflexivity |]. split; [exact Hy |].
    split; [apply Hf; vm_compute; discriminate |].
    destruct (side t); [| reflexivity].
    exfalso. assert (K : 0.5 < constantDraws 0.5 0) by (apply Hs; reflexivity).
    vm_compute in K. discriminate K.
Defined.

Lemma checkHit_first_witness :
  targetsRef
    (canvasOf (checkHit (constantDraws 0.5) demoCos demoSin 3 left
                 560 220 1280 demoCanvas))
  = [mkTarget (id demoTarget) left 500 true false fruit 0]
  /\ completed (checkHit (constantDraws 0.5) demoCos demoSin 3 left
                  560 220 1280 demoCanvas) = true
  /\ score (scoreState
              (canvasOf (checkHit (constantDraws 0.5) demoCos
                           demoSin 3 left 560 220 1280 demoCanvas)))
     = 100%Z.
Proof.
  destruct (checkHit_first (constantDraws 0.5) demoCos demoSin 3
              left 560 220 1280 demoCanvas) as [_ H].
  destruct (H [] [] demoTarget) as (T & _ & _ & _ & _ & Sc & Cp).
  - reflexivity.
  - constructor.
  - vm_compute. reflexivity.
  - assert (C : completed (checkHit (constantDraws 0.5) demoCos
                             demoSin 3 left 560 220 1280 demoCanvas)
                = true) by (apply Cp; left; reflexivity).
    split; [exact T |]. split; [exact C |].
    rewrite Sc, C. reflexivity.
Defined.

Lemma update_frame_witness :
  completed (update (constantDraws 0.5) demoCos demoSin 3 demoId
               PLAYING (DIFFICULTY_CONFIGS NOVICE) 1000 1280 720 demoCanvas)
  = true
  /\ wellScored
       (scoreState
          (canvasOf (update (constantDraws 0.5) demoCos demoSin 3
                       demoId PLAYING (DIFFICULTY_CONFIGS NOVICE) 1000 1280
                       720 demoCanvas)))
  /\ Forall (fun t' => hit t' = false /\ y t' < 720 + 150)
       (targetsRef
          (canvasOf (update (constantDraws 0.5) demoCos demoSin 3
                       demoId PLAYING (DIFFICULTY_CONFIGS NOVICE) 1000 1280
                       720 demoCanvas))).
Proof.
  destruct (update_frame (constantDraws 0.5) demoCos demoSin 3
              demoId PLAYING (DIFFICULTY_CONFIGS NOVICE) 1000 1280 720
              demoCanvas) as (_ & _ & Safe & _ & W & Clean).
  - reflexivity.
  - destruct Safe as [C _]; [left; reflexivity |].
    split; [exact C |].
    split; [apply W; unfold wellScored; simpl; lia |].
    destruct (Clean C) as (F & _).
    eapply Forall_impl; [| exact F].
    intros t' (A & B & _). split; [exact A | exact B].
Defined.

Lemma quiet_frame_witness :
  completed (update (constantDraws 0.5) demoCos demoSin 3 demoId
               PLAYING (DIFFICULTY_CONFIGS NOVICE) 1000 1280 720 demoCanvas)
  = true
  /\ score (scoreState
              (canvasOf (update (constantDraws 0.5) demoCos demoSin
                           3 demoId PLAYING (DIFFICULTY_CONFIGS NOVICE) 1000
                           1280 720 demoCanvas)))
     = score (scoreState demoCanvas).
Proof.
  destruct (quiet_frame (constantDraws 0.5) demoCos demoSin 3
              demoId PLAYING (DIFFICULTY_CONFIGS NOVICE) 1000 1280 720
              demoCanvas) as (C & _ & S & _).
  - reflexivity.
  - vm_compute. discriminate.
  - vm_compute. discriminate.
  - split; [exact C | exact S].
Defined.

Lemma no_bomb_level_witness :
  Forall (fun t => isFruit t = true)
    (targetsRef
       (canvasOf (update (constantDraws 0.5) demoCos demoSin 3
                    demoId PLAYING (DIFFICULTY_CONFIGS NOVICE) 1500 1280 720
                    demoCanvas)))
  /\ (score (scoreState demoCanvas)
      <= score (scoreState
                  (canvasOf (update (constantDraws 0.5) demoCos
                               demoSin 3 demoId PLAYING
                               (DIFFICULTY_CONFIGS NOVICE) 1500 1280 720
                               demoCanvas))))%Z.
Proof.
  apply (no_bomb_level (constantDraws 0.5) demoCos demoSin 3
           demoId PLAYING (DIFFICULTY_CONFIGS NOVICE) 1500 1280 720
           demoCanvas).
  - intros n. vm_compute. split; [discriminate | reflexivity].
  - vm_compute. discriminate.
  - unfold wellScored. simpl. lia.
  - repeat constructor.
Defined.

End GameFacts.
